(** * pycollada: document loading, cross-reference resolution and save

    A shallow embedding of the parts of [collada/__init__.py],
    [collada/util.py] and [collada/primitive.py] that load, index and
    re-serialise a COLLADA document, followed by the properties of the
    natural-language specification that concern them.

    Conventions.
    - A Python [dict] used as a map is a [gmap]; a [dict] whose iteration
      order matters is an association list.
    - A Python object carries its identity ([id(o)], what [is] compares) as
      a natural number next to its attributes.
    - A method that can raise returns its outcome together with the state
      it leaves behind: mutations done before the [raise] stay visible. *)

From Stdlib Require Import Ascii.
From stdpp Require Import gmap strings list fin_maps pretty.

Open Scope string_scope.
Open Scope list_scope.

#[global] Set Warnings "-clear-no-such-hyp".

(** ** Error kinds and the error policy ([Collada.handleError],
       [Collada.ignoreErrors]) *)

Module Errors.

(** Modelled from the spec: the exception classes of [collada.common],
    which the sources import but do not define.  [DaeError] is the root of
    the hierarchy; every other kind derives from it directly. *)
Inductive dae_kind :=
| DaeError
| DaeIncompleteError
| DaeBrokenRefError
| DaeMalformedError
| DaeUnsupportedError
| DaeSaveValidationError.

#[export] Instance dae_kind_eq_dec : EqDecision dae_kind.
Proof. solve_decision. Defined.

(** [issubclass k c]: class [k] is [c] or derives from it. *)
Definition issubclass (k c : dae_kind) : bool :=
  match c with
  | DaeError => true
  | _ => bool_decide (k = c)
  end.

(** A raised error: its class and its message. *)
Record dae_error := MkError { err_kind : dae_kind; err_msg : string }.

(** What a caller can pass to [ignoreErrors]: an exception class or
    [None]. *)
Inductive mask_entry :=
| MKind (c : dae_kind)
| MNone.

#[export] Instance mask_entry_eq_dec : EqDecision mask_entry.
Proof. solve_decision. Defined.

(** The two Python sequence types that meet in [ignoreErrors]: [*args] is
    always a tuple, the literal [[None]] is a list.  [==] between a tuple
    and a list is [False] whatever they hold. *)
Inductive pyseq :=
| PyTuple (xs : list mask_entry)
| PyList (xs : list mask_entry).

Definition pyseq_eq (a b : pyseq) : bool :=
  match a, b with
  | PyTuple xs, PyTuple ys => bool_decide (xs = ys)
  | PyList xs, PyList ys => bool_decide (xs = ys)
  | _, _ => false
  end.

(** [Collada.ignoreErrors(self, *args)]; returns the new [maskedErrors]. *)
Definition ignoreErrors (maskedErrors : list mask_entry)
    (args : list mask_entry) : list mask_entry :=
  if pyseq_eq (PyTuple args) (PyList [MNone])
  then []
  else maskedErrors ++ args.

(** Outcome of [any(isinstance(error, mask) for mask in maskedErrors)]:
    the generator is consumed left to right and stops at the first [True];
    [isinstance(error, None)] raises [TypeError]. *)
Inductive any_result :=
| AnyTrue
| AnyFalse
| AnyTypeError.

Fixpoint any_isinstance (k : dae_kind) (masks : list mask_entry) : any_result :=
  match masks with
  | [] => AnyFalse
  | MNone :: _ => AnyTypeError
  | MKind c :: rest => if issubclass k c then AnyTrue else any_isinstance k rest
  end.

(** The exceptions that reach a caller of the modelled code. *)
Inductive exn :=
| KeyError
| IndexError
| TypeError
| AttributeError
| DaeExn (e : dae_error)
| DaeInstanceNotLoadedError (msg : string).

(** Whether a call returned rather than raised. *)
Definition returned {A : Type} (r : exn + A) : bool :=
  match r with
  | inr _ => true
  | inl _ => false
  end.

(** How [handleError] returns. *)
Inductive handled :=
| Swallowed            (* returns normally: the error is masked *)
| Reraised             (* the bare [raise] re-raises the error *)
| RaisedTypeError.     (* [isinstance] rejected a mask entry *)

(** [Collada.handleError(self, error)]: the error list after the call, and
    how the call returns. *)
Definition handleError (errors : list dae_error) (maskedErrors : list mask_entry)
    (error : dae_error) : list dae_error * handled :=
  (errors ++ [error],
   match any_isinstance (err_kind error) maskedErrors with
   | AnyTrue => Swallowed
   | AnyFalse => Reraised
   | AnyTypeError => RaisedTypeError
   end).

End Errors.

(** ** Selection of the document inside a zip archive ([Collada.__init__]) *)

Module Zip.
Import Errors.

(** [str.upper] on the ASCII range. *)
Definition upper_char (c : ascii) : ascii :=
  let n := nat_of_ascii c in
  if (97 <=? n)%nat && (n <=? 122)%nat then ascii_of_nat (n - 32) else c.

Fixpoint upper (s : string) : string :=
  match s with
  | EmptyString => EmptyString
  | String c r => String (upper_char c) (upper r)
  end.

(** [s.endswith(suffix)] *)
Fixpoint endswith (s suffix : string) : bool :=
  if bool_decide (s = suffix) then true
  else match s with
       | EmptyString => false
       | String _ r => endswith r suffix
       end.

(** [sub in s] for strings. *)
Fixpoint contains (sub s : string) : bool :=
  if String.prefix sub s then true
  else match s with
       | EmptyString => false
       | String _ r => contains sub r
       end.

(** Truth value of a string: [not s] holds for the empty string only. *)
Definition str_false (s : string) : bool := bool_decide (s = "").

(** The first loop: the members whose upper-cased name ends with [.DAE]. *)
Definition daefiles (namelist : list string) : list string :=
  filter (λ name, endswith (upper name) ".DAE" = true) namelist.

(** The second loop, started with [self.filename = filename]. *)
Fixpoint pick_name (filename : string) (names : list string) : string :=
  match names with
  | [] => filename
  | name :: rest =>
      if str_false filename then pick_name name rest
      else if contains "MACOSX" filename then pick_name name rest
      else pick_name filename rest
  end.

(** Lines 190-207 of [Collada.__init__] for an input that is a zip
    archive: the name of the member read as the document, or the error
    raised. *)
Definition select_member (zip_filename : option string)
    (namelist : list string) : dae_kind + string :=
  let filename :=
    match zip_filename with
    | Some z => z
    | None => pick_name "" (daefiles namelist)
    end in
  if str_false filename || negb (bool_decide (filename ∈ namelist))
  then inl DaeIncompleteError
  else inr filename.

(** The rule in the words of the specification: the candidate seen last. *)
Definition last_seen_candidate (namelist : list string) : option string :=
  last (daefiles namelist).

(** The rule the code implements: the first candidate that does not carry
    the marker, and the last candidate when all carry it. *)
Definition first_unmarked_candidate (namelist : list string) : option string :=
  match List.find (λ n, negb (contains "MACOSX" n)) (daefiles namelist) with
  | Some n => Some n
  | None => last (daefiles namelist)
  end.

End Zip.


(** ** The element tree and the domain objects *)

Module Tree.

(** An [Element] of the tree library: its Python identity [xref], its tag,
    its attributes and its children.  The tree is a value; two elements are
    the same object exactly when their [xref] agree. *)
#[warnings="-register-all"]
Inductive xmlnode := XmlNode {
  xref : nat;
  xtag : string;
  xattrib : list (string * string);
  xchildren : list xmlnode
}.

(** [node.get(name)] *)
Fixpoint assoc_get (name : string) (attrib : list (string * string)) : option string :=
  match attrib with
  | [] => None
  | (k, v) :: rest => if bool_decide (k = name) then Some v else assoc_get name rest
  end.

Definition node_get (node : xmlnode) (name : string) : option string :=
  assoc_get name (xattrib node).

(** A decoded entity ([DaeObject]): its Python identity, its [id]
    attribute and the element it wraps ([o.xmlnode]). *)
Record pyobj := PyObj {
  oref : nat;
  oid : string;
  oxmlnode : xmlnode
}.

(** An element to wrap in examples. *)
Definition sample_node : xmlnode := XmlNode 0 "light" [] [].

End Tree.

(** ** [collada.util.IndexedList]

    Every [IndexedList] of the sources is built with [attrs = ('id',)]
    ([Collada.__init__], [Collada._setIndexedList]), so the loop
    [for attr in self._attrs] runs once, with [attr = 'id']. *)

Module IndexedList.
Import Errors Tree.

Record indexed_list := MkIndexedList {
  il_items : list pyobj;              (* the [list] part *)
  il_index : gmap string pyobj        (* [self._index] *)
}.

(** [IndexedList._addindex] *)
Definition _addindex (idx : gmap string pyobj) (obj : pyobj) : gmap string pyobj :=
  <[oid obj := obj]> idx.

(** [IndexedList._delindex]: a missing key is passed over. *)
Definition _delindex (idx : gmap string pyobj) (obj : pyobj) : gmap string pyobj :=
  delete (oid obj) idx.

(** [IndexedList.__init__(items, ('id',))] *)
Definition __init__ (items : list pyobj) : indexed_list :=
  MkIndexedList items (foldl _addindex ∅ items).

(** [IndexedList.append] *)
Definition append (self : indexed_list) (obj : pyobj) : indexed_list :=
  MkIndexedList (il_items self ++ [obj]) (_addindex (il_index self) obj).

(** [IndexedList.extend]: [newList = list(newList)] is a plain list, so
    the [isinstance(newList, IndexedList)] branch is never taken. *)
Definition extend (self : indexed_list) (newList : list pyobj) : indexed_list :=
  MkIndexedList (il_items self ++ newList) (foldl _addindex (il_index self) newList).

(** A subscript: a string key or an integer position. *)
Inductive subscript :=
| SKey (k : string)
| SPos (i : Z).

(** [list.__getitem__(self, i)] for an integer: negative positions count
    from the end, a position out of range raises [IndexError]. *)
Definition list_getitem {A} (l : list A) (i : Z) : exn + A :=
  let n := Z.of_nat (length l) in
  let j := if (i <? 0)%Z then (n + i)%Z else i in
  if (j <? 0)%Z || (n <=? j)%Z then inl IndexError
  else match l !! Z.to_nat j with
       | Some x => inr x
       | None => inl IndexError
       end.

(** [IndexedList.__getitem__]: the index is tried first; the keys of the
    index are strings, so an integer never hits it and falls through to the
    list. *)
Definition __getitem__ (self : indexed_list) (ind : subscript) : exn + pyobj :=
  match ind with
  | SKey k =>
      match il_index self !! k with
      | Some o => inr o
      | None => inl KeyError
      end
  | SPos i => list_getitem (il_items self) i
  end.

(** [IndexedList.get] *)
Definition get (self : indexed_list) (key : string) (default : option pyobj) : option pyobj :=
  match il_index self !! key with
  | Some o => Some o
  | None => default
  end.

(** [IndexedList.__contains__] for a string: a key of the index; the
    fallback [list.__contains__] compares the string with the members,
    which are objects, and finds none. *)
Definition __contains__ (self : indexed_list) (item : string) : bool :=
  bool_decide (is_Some (il_index self !! item)).

(** [len(self)] *)
Definition __len__ (self : indexed_list) : nat := length (il_items self).

(** The collections a document can hold: what the constructor, [append]
    and [extend] build. *)
Inductive built : indexed_list → Prop :=
| built_init items : built (__init__ items)
| built_append self obj : built self → built (append self obj)
| built_extend self newList : built self → built (extend self newList).

End IndexedList.

(** ** [collada.util.LazyIndexedList]

    The three lazy loaders build it with [attrs = ('id',)] and
    [id_attr = 'id']. *)

Module LazyIndexedList.
Import Errors Tree.

Record lazy_list := MkLazyList {
  _pending_nodes : gmap string xmlnode;
  _loaded : gmap string pyobj;
  _loaded_objects : gset nat;
  _order : list string
}.

(** [LazyIndexedList.__init__] *)
Definition __init__ : lazy_list := MkLazyList ∅ ∅ ∅ [].

(** [LazyIndexedList.add_node]: [if obj_id:] rejects [None] and the empty
    string. *)
Definition add_node (self : lazy_list) (node : xmlnode) : lazy_list :=
  match node_get node "id" with
  | Some obj_id =>
      if bool_decide (obj_id = "") then self
      else MkLazyList (<[obj_id := node]> (_pending_nodes self)) (_loaded self)
                      (_loaded_objects self) (_order self ++ [obj_id])
  | None => self
  end.

Section WithLoader.

(** [self._loader_func(self._collada, {}, node)]: the injected decoder. *)
Variable loader_func : xmlnode → exn + pyobj.

(** [LazyIndexedList._load_item]: what the call returns or raises, and the
    collection it leaves. *)
Definition _load_item (self : lazy_list) (obj_id : string)
    : (exn + option pyobj) * lazy_list :=
  match _loaded self !! obj_id with
  | Some o => (inr (Some o), self)
  | None =>
      match _pending_nodes self !! obj_id with
      | Some node =>
          let popped := MkLazyList (delete obj_id (_pending_nodes self)) (_loaded self)
                                   (_loaded_objects self) (_order self) in
          match loader_func node with
          | inl e => (inl e, popped)
          | inr obj =>
              (inr (Some obj),
               MkLazyList (_pending_nodes popped) (<[obj_id := obj]> (_loaded popped))
                          ({[oref obj]} ∪ _loaded_objects popped) (_order popped))
          end
      | None => (inr None, self)
      end
  end.

(** [LazyIndexedList.get] *)
Definition get (self : lazy_list) (key : string) (default : option pyobj)
    : (exn + option pyobj) * lazy_list :=
  match _loaded self !! key with
  | Some o => (inr (Some o), self)
  | None =>
      if bool_decide (is_Some (_pending_nodes self !! key))
      then _load_item self key
      else (inr default, self)
  end.

(** [len(self)] *)
Definition __len__ (self : lazy_list) : nat := length (_order self).

(** [LazyIndexedList.__getitem__] *)
Definition __getitem__ (self : lazy_list) (key : IndexedList.subscript)
    : (exn + option pyobj) * lazy_list :=
  match key with
  | IndexedList.SKey k => get self k None
  | IndexedList.SPos i =>
      let key := if (i <? 0)%Z then (Z.of_nat (__len__ self) + i)%Z else i in
      if (key <? 0)%Z || (Z.of_nat (length (_order self)) <=? key)%Z
      then (inl IndexError, self)
      else match _order self !! Z.to_nat key with
           | Some obj_id => _load_item self obj_id
           | None => (inl IndexError, self)
           end
  end.

(** [LazyIndexedList.__iter__], run over the identities still to visit:
    the values yielded before the generator ends or raises, the exception
    if it raised, and the collection it leaves. *)
Fixpoint iter_from (self : lazy_list) (ids : list string)
    : list (option pyobj) * option exn * lazy_list :=
  match ids with
  | [] => ([], None, self)
  | obj_id :: rest =>
      match _load_item self obj_id with
      | (inl e, self') => ([], Some e, self')
      | (inr v, self') =>
          let '(vs, e, self'') := iter_from self' rest in
          (v :: vs, e, self'')
      end
  end.

Definition __iter__ (self : lazy_list) : list (option pyobj) * option exn * lazy_list :=
  iter_from self (_order self).

End WithLoader.

(** [LazyIndexedList.__contains__] for a string *)
Definition __contains__ (self : lazy_list) (item : string) : bool :=
  bool_decide (is_Some (_loaded self !! item))
  || bool_decide (is_Some (_pending_nodes self !! item)).

(** [LazyIndexedList.append] *)
Definition append (self : lazy_list) (obj : pyobj) : lazy_list :=
  let key := oid obj in
  MkLazyList (_pending_nodes self) (<[key := obj]> (_loaded self))
             ({[oref obj]} ∪ _loaded_objects self)
             (if bool_decide (key ∈ _order self) then _order self
              else _order self ++ [key]).

(** [LazyIndexedList.extend] *)
Definition extend (self : lazy_list) (items : list pyobj) : lazy_list :=
  foldl append self items.

(** An identity is lost when it is neither pending nor materialised. *)
Definition lost (obj_id : string) (self : lazy_list) : Prop :=
  _pending_nodes self !! obj_id = None ∧ _loaded self !! obj_id = None.

(** The operations a caller applies to the collection. *)
Inductive operation :=
| OpAddNode (node : xmlnode)                       (* [add_node(node)] *)
| OpAppend (obj : pyobj)                           (* [append(obj)] *)
| OpGet (key : string) (default : option pyobj)    (* [get(key, default)] *)
| OpGetitem (key : IndexedList.subscript)          (* [self[key]] *)
| OpIter.                                          (* [for o in self] *)

(** The collection after one operation, whether it returned or raised. *)
Definition apply_op (loader_func : xmlnode → exn + pyobj) (self : lazy_list)
    (op : operation) : lazy_list :=
  match op with
  | OpAddNode node => add_node self node
  | OpAppend obj => append self obj
  | OpGet key default => (get loader_func self key default).2
  | OpGetitem key => (__getitem__ loader_func self key).2
  | OpIter => (__iter__ loader_func self).2
  end.

Definition run (loader_func : xmlnode → exn + pyobj) (ops : list operation)
    (self : lazy_list) : lazy_list :=
  foldl (apply_op loader_func) self ops.

(** The identity an operation registers or appends, if any. *)
Definition registered_id (op : operation) : option string :=
  match op with
  | OpAddNode node =>
      match node_get node "id" with
      | Some obj_id => if bool_decide (obj_id = "") then None else Some obj_id
      | None => None
      end
  | OpAppend obj => Some (oid obj)
  | _ => None
  end.

(** The identities ever registered or appended. *)
Definition identities (ops : list operation) : list string := omap registered_id ops.

(** The operations that read the collection. *)
Definition is_access (op : operation) : Prop :=
  match op with
  | OpAddNode _ | OpAppend _ => False
  | _ => True
  end.

(** No [add_node] registers an identity that is in the collection
    already; [seen] holds the identities met so far. *)
Fixpoint registers_fresh (seen : list string) (ops : list operation) : Prop :=
  match ops with
  | [] => True
  | op :: rest =>
      match op with
      | OpAddNode _ =>
          match registered_id op with
          | Some obj_id => (obj_id ∉ seen) ∧ registers_fresh (obj_id :: seen) rest
          | None => registers_fresh seen rest
          end
      | OpAppend obj => registers_fresh (oid obj :: seen) rest
      | _ => registers_fresh seen rest
      end
  end.

End LazyIndexedList.

(** ** [collada.primitive.Primitive._getInputsFromList] *)

Module Primitive.
Import Errors.

(** A data source ([collada.source.Source]): its identity and its [id]. *)
Record source := MkSource { src_ref : nat; src_id : string }.

(** An entry of the local scope: a data source, or a [dict] from semantic
    to data source (what a [<vertices>] element leaves in the scope), kept
    in the order [dict.items()] yields. *)
Inductive scope_entry :=
| Src (s : source)
| Bundle (d : list (string * source)).

(** A raw input [(offset, semantic, source, set)]. *)
Record raw_input := MkInput {
  offset : Z;
  semantic : string;
  source_ref : string;
  set : option string
}.

(** A resolved input [(offset, semantic, source, set, localscope[key])]. *)
Definition binding : Type := raw_input * scope_entry.

Definition _KNOWN_SEMANTICS : list string :=
  ["VERTEX"; "NORMAL"; "TEXCOORD"; "TEXTANGENT";
   "TEXBINORMAL"; "COLOR"; "TANGENT"; "BINORMAL"].

(** [source[1:]] *)
Definition tail_str (s : string) : string :=
  match s with
  | EmptyString => EmptyString
  | String _ r => r
  end.

Definition isdict (e : option scope_entry) : bool :=
  match e with
  | Some (Bundle _) => true
  | _ => false
  end.

(** The inner loop over [vertex_source.items()]. *)
Definition dereference (off : Z) (st : option string) (d : list (string * source))
    : list raw_input :=
  map (λ item : string * source,
         if bool_decide (item.1 = "POSITION")
         then MkInput off "VERTEX" ("#" +:+ src_id item.2) st
         else MkInput off item.1 ("#" +:+ src_id item.2) st) d.

(** The first loop: [(new_inputs, to_append)] after it. *)
Fixpoint split_inputs (localscope : gmap string scope_entry) (inputs : list raw_input)
    : list raw_input * list raw_input :=
  match inputs with
  | [] => ([], [])
  | input :: rest =>
      let '(new_inputs, to_append) := split_inputs localscope rest in
      let vertex_source := localscope !! tail_str (source_ref input) in
      match vertex_source with
      | Some (Bundle d) =>
          if bool_decide (semantic input = "VERTEX")
          then (new_inputs, dereference (offset input) (set input) d ++ to_append)
          else (new_inputs, to_append)
      | _ => (input :: new_inputs, to_append)
      end
  end.

(** [new_inputs] after [new_inputs.extend(to_append)]. *)
Definition expand (localscope : gmap string scope_entry) (inputs : list raw_input)
    : list raw_input :=
  let '(new_inputs, to_append) := split_inputs localscope inputs in
  new_inputs ++ to_append.

(** [{sem: [] for sem in Primitive._KNOWN_SEMANTICS}] *)
Definition initial_inputs : gmap string (list binding) :=
  list_to_map ((λ sem, (sem, [])) <$> _KNOWN_SEMANTICS).

(** [all_inputs[semantic].append(input_tuple)] on a bucket that exists or
    has just been created. *)
Definition bucket_append (all_inputs : gmap string (list binding))
    (sem : string) (b : binding) : gmap string (list binding) :=
  <[sem := default [] (all_inputs !! sem) ++ [b]]> all_inputs.

Definition dquote : string := String (ascii_of_nat 34) "".

(** [len(source) < 2 or source[0] != '#'] *)
Definition malformed (src : string) : bool :=
  (String.length src <? 2)%nat || negb (bool_decide (String.get 0 src = Some "#"%char)).

(** The exception raised for a semantic outside [_KNOWN_SEMANTICS]. *)
Definition unsupported_error (input : raw_input) : dae_error :=
  MkError DaeUnsupportedError ("Unknown input semantic: " +:+ semantic input).

Section WithDocument.

(** [collada.maskedErrors]: the resolver does not change it. *)
Variable maskedErrors : list mask_entry.

(** The second loop: the table or the exception, and [collada.errors]. *)
Fixpoint resolve (localscope : gmap string scope_entry) (new_inputs : list raw_input)
    (all_inputs : gmap string (list binding)) (errors : list dae_error)
    : (exn + gmap string (list binding)) * list dae_error :=
  match new_inputs with
  | [] => (inr all_inputs, errors)
  | input :: rest =>
      let src := source_ref input in
      if malformed src
      then (inl (DaeExn (MkError DaeMalformedError
                   ("Incorrect source id " +:+ dquote +:+ src +:+ dquote +:+ " in input"))),
            errors)
      else
        match localscope !! tail_str src with
        | None =>
            (inl (DaeExn (MkError DaeBrokenRefError
                    ("Source input id " +:+ dquote +:+ src +:+ dquote +:+ " not found"))),
             errors)
        | Some entry =>
            let input_tuple := (input, entry) in
            if bool_decide (semantic input ∈ _KNOWN_SEMANTICS)
            then resolve localscope rest
                   (bucket_append all_inputs (semantic input) input_tuple) errors
            else
              let ex := unsupported_error input in
              match handleError errors maskedErrors ex with
              | (errors', Swallowed) =>
                  resolve localscope rest
                    (bucket_append all_inputs (semantic input) input_tuple) errors'
              | (errors', Reraised) => (inl (DaeExn ex), errors')
              | (errors', RaisedTypeError) => (inl TypeError, errors')
              end
        end
  end.

(** [Primitive._getInputsFromList(collada, localscope, inputs)] *)
Definition _getInputsFromList (errors : list dae_error)
    (localscope : gmap string scope_entry) (inputs : list raw_input)
    : (exn + gmap string (list binding)) * list dae_error :=
  resolve localscope (expand localscope inputs) initial_inputs errors.

End WithDocument.

(** The binding of an input whose source is in scope. *)
Definition bound (localscope : gmap string scope_entry) (input : raw_input)
    : option binding :=
  (λ entry, (input, entry)) <$> localscope !! tail_str (source_ref input).

(** The inputs that pass the two checks of the second loop. *)
Definition admissible (localscope : gmap string scope_entry) (input : raw_input) : Prop :=
  malformed (source_ref input) = false ∧ is_Some (bound localscope input).

(** What the first loop appends for one input: the inputs an alias stands
    for when the input is a [VERTEX] input that names a [dict] of the
    scope, nothing otherwise. *)
Definition aliases (localscope : gmap string scope_entry) (input : raw_input)
    : list raw_input :=
  match localscope !! tail_str (source_ref input) with
  | Some (Bundle d) =>
      if bool_decide (semantic input = "VERTEX")
      then dereference (offset input) (set input) d
      else []
  | _ => []
  end.

(** The inputs the first loop neither keeps nor expands: those that name
    a [dict] of the scope under a semantic other than [VERTEX]. *)
Definition dropped (localscope : gmap string scope_entry) (input : raw_input) : Prop :=
  isdict (localscope !! tail_str (source_ref input)) = true ∧ semantic input ≠ "VERTEX".

#[global] Instance dropped_dec localscope input : Decision (dropped localscope input).
Proof. unfold dropped. apply _. Defined.

(** A scope with two sources and the alias a [<vertices>] element makes
    of them, for examples. *)
Definition sample_positions : source := MkSource 1 "positions".
Definition sample_normals : source := MkSource 2 "normals".
Definition sample_scope : gmap string scope_entry :=
  <["positions" := Src sample_positions]>
    (<["normals" := Src sample_normals]>
       (<["bundle" := Bundle [("POSITION", sample_positions); ("NORMAL", sample_normals)]]> ∅)).

(** The number of bindings in the whole table. *)
Definition total_bindings (all_inputs : gmap string (list binding)) : nat :=
  map_fold (λ _ bucket n, length bucket + n) 0 all_inputs.

End Primitive.

(** ** Queries and updates of the element tree used by the document *)

Module ElementTree.
Import Tree.

(** [node.find(tag)]: the first child with that tag. *)
Definition find (name : string) (children : list xmlnode) : option xmlnode :=
  List.find (λ n, bool_decide (xtag n = name)) children.

(** [node.findall(tag)]: the children with that tag, in document order. *)
Definition findall (name : string) (children : list xmlnode) : list xmlnode :=
  filter (λ n, xtag n = name) children.

(** [x in seq] for elements: [Element] defines no [__eq__], so the test
    is identity. *)
Definition elem_in (x : xmlnode) (seq : list xmlnode) : bool :=
  existsb (λ n, bool_decide (xref n = xref x)) seq.

(** [node.remove(x)]: drops the first child that is [x]. *)
Fixpoint remove (x : xmlnode) (children : list xmlnode) : list xmlnode :=
  match children with
  | [] => []
  | n :: rest => if bool_decide (xref n = xref x) then rest else n :: remove x rest
  end.

(** [root.remove(root.find(tag))]: the first child that is the element
    found is the first child with that tag, an element having one tag. *)
Fixpoint remove_found (name : string) (children : list xmlnode) : list xmlnode :=
  match children with
  | [] => []
  | n :: rest =>
      if bool_decide (xtag n = name) then rest else n :: remove_found name rest
  end.

(** [node.insert(i, x)]: a position past the end appends. *)
Definition insert (i : nat) (x : xmlnode) (children : list xmlnode) : list xmlnode :=
  take i children ++ x :: drop i children.

(** The element with other children. *)
Definition with_children (node : xmlnode) (children : list xmlnode) : xmlnode :=
  XmlNode (xref node) (xtag node) (xattrib node) children.

(** [node.clear()]: no attributes, no children. *)
Definition clear (node : xmlnode) : xmlnode :=
  XmlNode (xref node) (xtag node) [] [].

(** Writes [node'] back in the place of the first child tagged [name]:
    what the mutations of [node = find(name)] amount to in the parent. *)
Fixpoint replace_first (name : string) (node' : xmlnode) (children : list xmlnode)
    : list xmlnode :=
  match children with
  | [] => []
  | n :: rest =>
      if bool_decide (xtag n = name) then node' :: rest
      else n :: replace_first name node' rest
  end.

(** The element tree is lxml's when lxml is installed and the standard
    library's otherwise ([schema] is imported under a guard for the second
    case).  The two differ in what [for n in node] visits when the body
    removes [n]: lxml has already fetched the next sibling, the standard
    library walks by position and passes over the child that slides into
    the freed place. *)
Inductive implementation :=
| Lxml
| XmlEtree.

(** [for n in node: if n not in keep: node.remove(n)] walked by position:
    [i] is the position to visit, [fuel] bounds the positions left. *)
Fixpoint prune_by_position (keep : list xmlnode) (fuel i : nat)
    (children : list xmlnode) : list xmlnode :=
  match fuel with
  | O => children
  | S fuel' =>
      match children !! i with
      | None => children
      | Some n =>
          if elem_in n keep
          then prune_by_position keep fuel' (S i) children
          else prune_by_position keep fuel' (S i) (remove n children)
      end
  end.

(** The same loop with the next sibling fetched before the body runs:
    every child is visited. *)
Definition prune_prefetched (keep : list xmlnode) (children : list xmlnode)
    : list xmlnode :=
  filter (λ n, elem_in n keep = true) children.

Definition prune (impl : implementation) (keep : list xmlnode)
    (children : list xmlnode) : list xmlnode :=
  match impl with
  | Lxml => prune_prefetched keep children
  | XmlEtree => prune_by_position keep (length children) 0 children
  end.

(** The identities of the elements below [n], at any depth. *)
Fixpoint below (n : xmlnode) : list nat :=
  match n with
  | XmlNode _ _ _ children =>
      (fix go (l : list xmlnode) : list nat :=
         match l with
         | [] => []
         | c :: rest => (xref c :: below c) ++ go rest
         end) children
  end.

(** [parent.remove(x)] for the parent the element [r] has below [n],
    when it has one there. *)
Fixpoint detach (r : nat) (n : xmlnode) : xmlnode :=
  match n with
  | XmlNode ref tag attrib children =>
      XmlNode ref tag attrib
        ((fix go (l : list xmlnode) : list xmlnode :=
            match l with
            | [] => []
            | c :: rest =>
                if bool_decide (xref c = r) then go rest else detach r c :: go rest
            end) children)
  end.

(** The library containers of a document: the children of the root
    whose tag starts with [library_]. *)
Definition is_library (n : xmlnode) : bool := String.prefix "library_" (xtag n).

(** What [parent.append(x)] does to the place [x] has already.  An
    element of lxml has one parent: appending it takes it out of the
    parent it has.  The nodes of the entities of a document sit below its
    library containers, where the loaders found them, or in no tree yet:
    the model looks for the former place there.  The standard library's
    tree leaves the element where it is; it is then in two places. *)
Definition release (impl : implementation) (x : xmlnode) (children : list xmlnode)
    : list xmlnode :=
  match impl with
  | Lxml => (λ c, if is_library c then detach (xref x) c else c) <$> children
  | XmlEtree => children
  end.

(** [thinned Q l l']: [l'] is [l] without some of its elements that
    satisfy [Q]. *)
Inductive thinned {A : Type} (Q : A → Prop) : list A → list A → Prop :=
| thinned_nil : thinned Q [] []
| thinned_keep x l l' : thinned Q l l' → thinned Q (x :: l) (x :: l')
| thinned_drop x l l' : Q x → thinned Q l l' → thinned Q (x :: l) l'.

End ElementTree.

(** ** [Collada._loadNodes] *)

Module Nodes.
Import Errors Tree ElementTree.

(** Modelled from the spec: how [scene.loadNode(collada, node, {})] can
    end.  It returns a node object or [None], raises the deferral signal
    [DaeInstanceNotLoadedError] with a message, or raises a [DaeError]. *)
Inductive load_outcome :=
| Loaded (N : option pyobj)
| NotLoaded (msg : string)
| Failed (e : dae_error).

(** What a pass over a library changes. *)
Record pass_state := MkPass {
  tried_loading : list (xmlnode * string);
  succeeded : bool;
  nodes : IndexedList.indexed_list;       (* [self.nodes] *)
  errors : list dae_error                 (* [self.errors] *)
}.

Section WithDecoder.

(** The decoder reads the document; of the document, a pass changes
    [self.nodes] only, so that is the argument kept. *)
Variable loadNode : IndexedList.indexed_list → xmlnode → load_outcome.
Variable maskedErrors : list mask_entry.

(** The body shared by the two [for] loops: one node is tried. *)
Definition try_node (st : pass_state) (node : xmlnode) : option exn * pass_state :=
  match loadNode (nodes st) node with
  | NotLoaded msg =>
      (None, MkPass (tried_loading st ++ [(node, msg)]) (succeeded st) (nodes st) (errors st))
  | Failed ex =>
      match handleError (errors st) maskedErrors ex with
      | (errors', Swallowed) =>
          (None, MkPass (tried_loading st) (succeeded st) (nodes st) errors')
      | (errors', Reraised) =>
          (Some (DaeExn ex), MkPass (tried_loading st) (succeeded st) (nodes st) errors')
      | (errors', RaisedTypeError) =>
          (Some TypeError, MkPass (tried_loading st) (succeeded st) (nodes st) errors')
      end
  | Loaded None => (None, st)
  | Loaded (Some N) =>
      (None, MkPass (tried_loading st) true (IndexedList.append (nodes st) N) (errors st))
  end.

(** One [for] loop over the nodes still to try. *)
Fixpoint pass (st : pass_state) (todo : list xmlnode) : option exn * pass_state :=
  match todo with
  | [] => (None, st)
  | node :: rest =>
      match try_node st node with
      | (Some e, st') => (Some e, st')
      | (None, st') => pass st' rest
      end
  end.

(** [while len(tried_loading) > 0 and succeeded:]; the body starts a pass
    with [succeeded = False] and an empty [next_tried].  [fuel] bounds the
    number of passes. *)
Fixpoint retry (fuel : nat) (st : pass_state) : option exn * pass_state :=
  match fuel with
  | O => (None, st)
  | S fuel' =>
      if bool_decide (0 < length (tried_loading st)) && succeeded st
      then
        match pass (MkPass [] false (nodes st) (errors st)) (tried_loading st).*1 with
        | (Some e, st') => (Some e, st')
        | (None, st') => retry fuel' st'
        end
      else (None, st)
  end.

(** The body of [for libnode in libnodes], for the nodes [todo] of the
    library.  A pass that loads a node leaves fewer nodes to try, so the
    [while] loop runs at most once per deferred node, and once more to see
    no progress. *)
Definition resolve_nodes (nodes0 : IndexedList.indexed_list) (errors0 : list dae_error)
    (todo : list xmlnode) : option exn * pass_state :=
  match pass (MkPass [] false nodes0 errors0) todo with
  | (Some e, st) => (Some e, st)
  | (None, st) =>
      match retry (S (length (tried_loading st))) st with
      | (Some e, st') => (Some e, st')
      | (None, st') =>
          match tried_loading st' with
          | [] => (None, st')
          | (_, msg) :: _ => (Some (DaeExn (MkError DaeBrokenRefError msg)), st')
          end
      end
  end.

Definition load_library (nodes0 : IndexedList.indexed_list) (errors0 : list dae_error)
    (libnode : xmlnode) : option exn * pass_state :=
  resolve_nodes nodes0 errors0 (findall "node" (xchildren libnode)).

(** [Collada._loadNodes]: [self.nodes] and [self.errors] after the call,
    and the exception if it raised. *)
Fixpoint load_libraries (nodes0 : IndexedList.indexed_list) (errors0 : list dae_error)
    (libnodes : list xmlnode)
    : option exn * (IndexedList.indexed_list * list dae_error) :=
  match libnodes with
  | [] => (None, (nodes0, errors0))
  | libnode :: rest =>
      match load_library nodes0 errors0 libnode with
      | (Some e, st) => (Some e, (nodes st, errors st))
      | (None, st) => load_libraries (nodes st) (errors st) rest
      end
  end.

Definition _loadNodes (root : xmlnode) (nodes0 : IndexedList.indexed_list)
    (errors0 : list dae_error)
    : option exn * (IndexedList.indexed_list * list dae_error) :=
  load_libraries nodes0 errors0 (findall "library_nodes" (xchildren root)).

(** Every decode error other than the deferral signal is masked. *)
Definition failures_masked : Prop :=
  ∀ ns node e, loadNode ns node = Failed e →
               any_isinstance (err_kind e) maskedErrors = AnyTrue.

(** A node that the decoder defers whatever has been loaded. *)
Definition never_resolves (node : xmlnode) : Prop :=
  ∀ ns, ∃ msg, loadNode ns node = NotLoaded msg.

End WithDecoder.

(** Modelled from the spec: a decoder in which a node instantiates other
    nodes by identity.  The children tagged [instance_node] name them in
    their [url] ([#identity]); the node loads once every one of them is in
    [self.nodes], and raises the deferral signal for the first one that is
    not. *)
Definition node_refs (node : xmlnode) : list string :=
  omap (λ child,
          if bool_decide (xtag child = "instance_node")
          then Primitive.tail_str <$> node_get child "url"
          else None)
       (xchildren node).

Definition reference_loadNode (nodes : IndexedList.indexed_list) (node : xmlnode)
    : load_outcome :=
  match List.find (λ r, negb (IndexedList.__contains__ nodes r)) (node_refs node) with
  | Some r => NotLoaded ("Node " +:+ r +:+ " not loaded")
  | None => Loaded (Some (PyObj (xref node) (default "" (node_get node "id")) node))
  end.

(** A [<node id=...>] that instantiates the nodes [refs]. *)
Definition node_element (ref : nat) (node_id : string) (refs : list string) : xmlnode :=
  XmlNode ref "node" [("id", node_id)]
    ((λ r, XmlNode 0 "instance_node" [("url", "#" +:+ r)] []) <$> refs).

End Nodes.

(** ** The document: the uniform library loaders and [Collada.save] *)

Module Document.
Import Errors Tree ElementTree.

(** A collection of the document: an [IndexedList], or, for the
    geometries, controllers and animations of a document opened with
    [lazy=True], a [LazyIndexedList] with its decoder. *)
Inductive collection :=
| Eager (l : IndexedList.indexed_list)
| Lazy (loader_func : xmlnode → exn + pyobj) (l : LazyIndexedList.lazy_list).

(** [len(arr)] *)
Definition coll_len (arr : collection) : nat :=
  match arr with
  | Eager l => IndexedList.__len__ l
  | Lazy _ l => LazyIndexedList.__len__ l
  end.

(** The fields of [Collada] that [save] reads or writes.  Only the
    three lazy loaders install a [LazyIndexedList]; the other seven
    collections are [IndexedList]s throughout. *)
Record collada := MkCollada {
  xmlroot : xmlnode;                 (* [self.xmlnode.getroot()] *)
  assetInfo_xmlnode : xmlnode;       (* [self.assetInfo.xmlnode] after [assetInfo.save()] *)
  geometries : collection;
  controllers : collection;
  animations : collection;
  lights : IndexedList.indexed_list;
  cameras : IndexedList.indexed_list;
  images : IndexedList.indexed_list;
  effects : IndexedList.indexed_list;
  materials : IndexedList.indexed_list;
  nodes : IndexedList.indexed_list;
  scenes : IndexedList.indexed_list;
  scene : option pyobj;
  validator : option (xmlnode → option string);
                                     (* the diagnostic when the tree is invalid *)
  next_ref : nat                     (* the identity of the next element created *)
}.

(** The names [save] goes through, in its order. *)
Inductive library :=
| LGeometries | LControllers | LLights | LCameras | LImages
| LEffects | LMaterials | LNodes | LScenes.

#[export] Instance library_eq_dec : EqDecision library.
Proof. solve_decision. Defined.

Definition libraries : list library :=
  [LGeometries; LControllers; LLights; LCameras; LImages;
   LEffects; LMaterials; LNodes; LScenes].

Definition library_name (lib : library) : string :=
  match lib with
  | LGeometries => "library_geometries"
  | LControllers => "library_controllers"
  | LLights => "library_lights"
  | LCameras => "library_cameras"
  | LImages => "library_images"
  | LEffects => "library_effects"
  | LMaterials => "library_materials"
  | LNodes => "library_nodes"
  | LScenes => "library_visual_scenes"
  end.

Definition library_arr (self : collada) (lib : library) : collection :=
  match lib with
  | LGeometries => geometries self
  | LControllers => controllers self
  | LLights => Eager (lights self)
  | LCameras => Eager (cameras self)
  | LImages => Eager (images self)
  | LEffects => Eager (effects self)
  | LMaterials => Eager (materials self)
  | LNodes => Eager (nodes self)
  | LScenes => Eager (scenes self)
  end.

(** The collection [arr] as the round over [lib] leaves it: iterating a
    [LazyIndexedList] materialises it in place; an [IndexedList] is only
    read. *)
Definition set_library_arr (self : collada) (lib : library) (arr : collection) : collada :=
  MkCollada (xmlroot self) (assetInfo_xmlnode self)
    (if bool_decide (lib = LGeometries) then arr else geometries self)
    (if bool_decide (lib = LControllers) then arr else controllers self)
    (animations self) (lights self) (cameras self) (images self) (effects self)
    (materials self) (nodes self) (scenes self) (scene self) (validator self)
    (next_ref self).

Definition set_tree (self : collada) (root : xmlnode) (fresh : nat) : collada :=
  MkCollada root (assetInfo_xmlnode self)
    (geometries self) (controllers self) (animations self) (lights self)
    (cameras self) (images self) (effects self) (materials self)
    (nodes self) (scenes self) (scene self) (validator self) fresh.

(** [library_loc] after the loop over [enumerate(root)]: one past the last
    child tagged [asset], [loc] when there is none. *)
Fixpoint library_location (i loc : nat) (children : list xmlnode) : nat :=
  match children with
  | [] => loc
  | node :: rest =>
      library_location (S i) (if bool_decide (xtag node = "asset") then S i else loc) rest
  end.

(** [if o.xmlnode not in node: node.append(o.xmlnode)] for the container
    [node], the first child of the root tagged [name]; the children of
    the root afterwards.  [o.save()] runs first; it rewrites the inside of
    [o.xmlnode], which the tree of this model does not look into. *)
Definition adopt (impl : implementation) (name : string) (children : list xmlnode)
    (o : pyobj) : list xmlnode :=
  match find name children with
  | None => children
  | Some node =>
      if elem_in (oxmlnode o) (xchildren node) then children
      else
        let children' := release impl (oxmlnode o) children in
        match find name children' with
        | None => children'
        | Some node' =>
            replace_first name (with_children node' (xchildren node' ++ [oxmlnode o]))
              children'
        end
  end.

(** [for o in arr: ...] over a [LazyIndexedList]: the identities left to
    visit are materialised one by one; a decoder that raises ends the loop,
    and so does a lost identity, for which the iterator yields [None]
    ([None.save()] raises [AttributeError]). *)
Fixpoint adopt_lazy (impl : implementation) (name : string)
    (loader_func : xmlnode → exn + pyobj) (ids : list string)
    (l : LazyIndexedList.lazy_list) (seen : list pyobj) (children : list xmlnode)
    : option exn * LazyIndexedList.lazy_list * list pyobj * list xmlnode :=
  match ids with
  | [] => (None, l, seen, children)
  | obj_id :: rest =>
      match LazyIndexedList._load_item loader_func l obj_id with
      | (inl e, l') => (Some e, l', seen, children)
      | (inr None, l') => (Some AttributeError, l', seen, children)
      | (inr (Some o), l') =>
          adopt_lazy impl name loader_func rest l' (seen ++ [o])
            (adopt impl name children o)
      end
  end.

(** The first loop over [arr]: the exception if one was raised, the
    collection afterwards, the members met and the children of the
    root. *)
Definition adopt_all (impl : implementation) (name : string) (arr : collection)
    (children : list xmlnode)
    : option exn * collection * list pyobj * list xmlnode :=
  match arr with
  | Eager l =>
      (None, arr, IndexedList.il_items l,
       foldl (adopt impl name) children (IndexedList.il_items l))
  | Lazy loader_func l =>
      let '(e, l', seen, children') :=
        adopt_lazy impl name loader_func (LazyIndexedList._order l) l [] children in
      (e, Lazy loader_func l', seen, children')
  end.

(** What one round of [for arr, name in libraries] leaves. *)
Record round := MkRound {
  raised : option exn;
  root_children : list xmlnode;
  round_next_ref : nat;
  arr_after : collection
}.

(** [for n in node: if n not in xmlnodes: node.remove(n)] for the first
    child of the root tagged [name]. *)
Definition prune_container (impl : implementation) (name : string)
    (xmlnodes : list xmlnode) (children : list xmlnode) : list xmlnode :=
  match find name children with
  | None => children
  | Some node =>
      replace_first name (with_children node (prune impl xmlnodes (xchildren node)))
        children
  end.

(** The statements from [for o in arr] to the end of the round, for the
    container tagged [name]; every identity of [arr] is materialised once
    the first loop is over, so [[o.xmlnode for o in arr]] lists the nodes
    of the members just met. *)
Definition sync_container (impl : implementation) (name : string) (arr : collection)
    (children : list xmlnode) (fresh : nat) : round :=
  let '(e, arr', members, children') := adopt_all impl name arr children in
  match e with
  | Some ex => MkRound (Some ex) children' fresh arr'
  | None =>
      MkRound None (prune_container impl name (oxmlnode <$> members) children') fresh arr'
  end.

(** The body of [for arr, name in libraries]. *)
Definition save_library (impl : implementation) (library_loc : nat)
    (children : list xmlnode) (fresh : nat) (arr : collection) (name : string) : round :=
  match find name children with
  | None =>
      if bool_decide (coll_len arr = 0) then MkRound None children fresh arr
      else
        let children' := insert library_loc (XmlNode fresh name [] []) children in
        match find name children' with
        | None => MkRound (Some TypeError) children' (S fresh) arr
        | Some _ => sync_container impl name arr children' (S fresh)
        end
  | Some _ =>
      if bool_decide (coll_len arr = 0)
      then MkRound None (remove_found name children) fresh arr
      else sync_container impl name arr children fresh
  end.

(** The loop over [libraries]. *)
Fixpoint save_libraries (impl : implementation) (library_loc : nat)
    (self : collada) (libs : list library) : option exn * collada :=
  match libs with
  | [] => (None, self)
  | lib :: rest =>
      let r := save_library impl library_loc (xchildren (xmlroot self)) (next_ref self)
                 (library_arr self lib) (library_name lib) in
      let self' :=
        set_library_arr
          (set_tree self (with_children (xmlroot self) (root_children r)) (round_next_ref r))
          lib (arr_after r) in
      match raised r with
      | Some e => (Some e, self')
      | None => save_libraries impl library_loc self' rest
      end
  end.

(** The statements on the [asset] element, up to [library_loc]. *)
Definition save_asset (self : collada) : collada * nat :=
  let children := xchildren (xmlroot self) in
  let children1 :=
    match find "asset" children with
    | Some assetnode => remove_found "asset" children
    | None => children
    end in
  let children2 := insert 0 (assetInfo_xmlnode self) children1 in
  (set_tree self (with_children (xmlroot self) children2) (next_ref self),
   library_location 0 0 children2).

(** The statements on the [scene] element. *)
Definition save_scene (self : collada) : option exn * collada :=
  let children := xchildren (xmlroot self) in
  match find "scene" children with
  | None => (Some AttributeError, self)
  | Some scenenode =>
      let cleared := clear scenenode in
      let put (node : xmlnode) (fresh : nat) :=
        set_tree self (with_children (xmlroot self) (replace_first "scene" node children))
                 fresh in
      match scene self with
      | None => (None, put cleared (next_ref self))
      | Some s =>
          let sceneid := oid s in
          if negb (IndexedList.__contains__ (scenes self) sceneid)
          then (Some (DaeExn (MkError DaeBrokenRefError
                        ("Default scene " +:+ sceneid +:+ " not found"))),
                put cleared (next_ref self))
          else
            let ref_node :=
              XmlNode (next_ref self) "instance_visual_scene" [("url", "#" +:+ sceneid)] [] in
            (None, put (with_children cleared [ref_node]) (S (next_ref self)))
      end
  end.

(** The final validation. *)
Definition save_validate (self : collada) : option exn :=
  match validator self with
  | None => None
  | Some validate =>
      match validate (xmlroot self) with
      | None => None
      | Some diagnostic =>
          Some (DaeExn (MkError DaeSaveValidationError
                  ("Validation error when saving: " +:+ diagnostic)))
      end
  end.

(** [Collada.save]: the exception if it raised, and the document it
    leaves. *)
Definition save (impl : implementation) (self : collada) : option exn * collada :=
  let '(self1, library_loc) := save_asset self in
  match save_libraries impl library_loc self1 libraries with
  | (Some e, self2) => (Some e, self2)
  | (None, self2) =>
      match save_scene self2 with
      | (Some e, self3) => (Some e, self3)
      | (None, self3) => (save_validate self3, self3)
      end
  end.

(** [for o in arr] over a [LazyIndexedList] with an empty body: the
    exception if one was raised, the collection afterwards and the
    members met. *)
Fixpoint iterate (loader_func : xmlnode → exn + pyobj) (ids : list string)
    (l : LazyIndexedList.lazy_list) (seen : list pyobj)
    : option exn * LazyIndexedList.lazy_list * list pyobj :=
  match ids with
  | [] => (None, l, seen)
  | obj_id :: rest =>
      match LazyIndexedList._load_item loader_func l obj_id with
      | (inl e, l') => (Some e, l', seen)
      | (inr None, l') => (Some AttributeError, l', seen)
      | (inr (Some o), l') => iterate loader_func rest l' (seen ++ [o])
      end
  end.

(** The members [for o in arr] yields when the iteration runs to its
    end: those of an [IndexedList]; for a [LazyIndexedList], the objects
    its identities materialise to, unless a decoder raises or an identity
    is lost. *)
Definition coll_members (arr : collection) : option (list pyobj) :=
  match arr with
  | Eager l => Some (IndexedList.il_items l)
  | Lazy loader_func l =>
      match iterate loader_func (LazyIndexedList._order l) l [] with
      | (None, _, seen) => Some seen
      | (Some _, _, _) => None
      end
  end.

(** The members of a library of the document, none when the iteration
    does not run to its end. *)
Definition members_of (self : collada) (lib : library) : list pyobj :=
  default [] (coll_members (library_arr self lib)).

(** [apart name r children]: the element [r] sits below no library
    container of the root, unless as a child of the first child tagged
    [name]. *)
Definition apart (name : string) (r : nat) (children : list xmlnode) : Prop :=
  Forall (λ c, is_library c = true → xtag c ≠ name → r ∉ below c) children
  ∧ match findall name children with
    | [] => True
    | node :: others =>
        Forall (λ k, r ∉ below k) (xchildren node) ∧ Forall (λ c, r ∉ below c) others
    end.

#[global] Instance apart_dec name r children : Decision (apart name r children).
Proof. unfold apart. destruct (findall name children); apply _. Defined.

(** A document in which [save] has no element to move: the node of a
    member of a library sits below no library container, unless as a
    child of the first container of its own library; it is not below the
    node of a member, and it is not the node of a member of another
    library. *)
Definition settled (self : collada) : Prop :=
  Forall (λ lib,
    Forall (λ o,
      apart (library_name lib) (xref (oxmlnode o)) (xchildren (xmlroot self))
      ∧ Forall (λ lib',
          Forall (λ o',
            (xref (oxmlnode o) ∉ below (oxmlnode o'))
            ∧ (lib' ≠ lib → xref (oxmlnode o') ≠ xref (oxmlnode o)))
            (members_of self lib')) libraries)
      (members_of self lib)) libraries.

#[global] Instance settled_dec self : Decision (settled self).
Proof. unfold settled. apply _. Defined.


(** The library loaders [_loadGeometry], [_loadControllers],
    [_loadAnimations], [_loadLights], [_loadCameras], [_loadImages],
    [_loadEffects], [_loadMaterials] and [_loadScenes], outside the lazy
    mode, are one loop with other names: over the containers tagged
    [libname], over their children tagged [childname], with a test that a
    child qualifies (a geometry needs a [mesh], a controller a [skin] or a
    [morph], the others nothing) and the decoder of the kind. *)
Section Loaders.

Variable maskedErrors : list mask_entry.
Variable qualifies : xmlnode → bool.
(** [Kind.load(self, {}, node)]: what the call returns or raises, and
    the errors it has added to [self.errors] meanwhile.  The decoder is
    given the document and reports through [self.handleError] what it
    recovers from (the input resolver does so for an unknown semantic),
    so that a node can yield an object and leave errors, and an error
    that [handleError] raised again arrives recorded already. *)
Variable decode : xmlnode → (exn + pyobj) * list dae_error.

(** The body of the innermost loop: [self.<kind>] and [self.errors]
    after it, and the exception if it raised.  Only a [DaeError] is
    caught. *)
Definition load_item (st : IndexedList.indexed_list * list dae_error) (node : xmlnode)
    : option exn * (IndexedList.indexed_list * list dae_error) :=
  if negb (qualifies node) then (None, st)
  else
    let errors := st.2 ++ (decode node).2 in
    match (decode node).1 with
    | inr obj => (None, (IndexedList.append st.1 obj, errors))
    | inl (DaeExn ex) =>
        match handleError errors maskedErrors ex with
        | (errors', Swallowed) => (None, (st.1, errors'))
        | (errors', Reraised) => (Some (DaeExn ex), (st.1, errors'))
        | (errors', RaisedTypeError) => (Some TypeError, (st.1, errors'))
        end
    | inl e => (Some e, (st.1, errors))
    end.

Fixpoint load_items (st : IndexedList.indexed_list * list dae_error)
    (nodes : list xmlnode) : option exn * (IndexedList.indexed_list * list dae_error) :=
  match nodes with
  | [] => (None, st)
  | node :: rest =>
      match load_item st node with
      | (Some e, st') => (Some e, st')
      | (None, st') => load_items st' rest
      end
  end.

Fixpoint load_containers (childname : string)
    (st : IndexedList.indexed_list * list dae_error) (libnodes : list xmlnode)
    : option exn * (IndexedList.indexed_list * list dae_error) :=
  match libnodes with
  | [] => (None, st)
  | libnode :: rest =>
      match load_items st (findall childname (xchildren libnode)) with
      | (Some e, st') => (Some e, st')
      | (None, st') => load_containers childname st' rest
      end
  end.

Definition _loadLibrary (libname childname : string) (root : xmlnode)
    (st : IndexedList.indexed_list * list dae_error)
    : option exn * (IndexedList.indexed_list * list dae_error) :=
  load_containers childname st (findall libname (xchildren root)).

(** The entities the loader walks: the children tagged [childname] of
    the containers, container after container. *)
Definition entities (childname : string) (libnodes : list xmlnode) : list xmlnode :=
  libnodes ≫= (λ libnode, findall childname (xchildren libnode)).

(** The object a node yields in the loop, if one. *)
Definition loaded (node : xmlnode) : option pyobj :=
  if qualifies node
  then match (decode node).1 with
       | inr obj => Some obj
       | inl _ => None
       end
  else None.

(** A node the loop gets past: skipped, decoded, or failing with a
    masked [DaeError]. *)
Definition passes (node : xmlnode) : Prop :=
  qualifies node = false
  ∨ (∃ obj, (decode node).1 = inr obj)
  ∨ (∃ ex, (decode node).1 = inl (DaeExn ex)
           ∧ any_isinstance (err_kind ex) maskedErrors = AnyTrue).

End Loaders.

(** Whether the loop over [libraries] runs to its end. *)
Definition libraries_saved (impl : implementation) (self : collada) : Prop :=
  (save_libraries impl (save_asset self).2 (save_asset self).1 libraries).1 = None.

(** The document [Collada()] builds when no file is given. *)
Definition new_collada : collada :=
  MkCollada
    (XmlNode 0 "COLLADA" [("version", "1.4.1")]
       [XmlNode 1 "library_cameras" [] [];
        XmlNode 2 "library_controllers" [] [];
        XmlNode 3 "library_effects" [] [];
        XmlNode 4 "library_geometries" [] [];
        XmlNode 5 "library_images" [] [];
        XmlNode 6 "library_lights" [] [];
        XmlNode 7 "library_materials" [] [];
        XmlNode 8 "library_nodes" [] [];
        XmlNode 9 "library_visual_scenes" [] [];
        XmlNode 10 "scene" [] []])
    (XmlNode 11 "asset" [] [])
    (Eager (IndexedList.__init__ [])) (Eager (IndexedList.__init__ []))
    (Eager (IndexedList.__init__ []))
    (IndexedList.__init__ []) (IndexedList.__init__ []) (IndexedList.__init__ [])
    (IndexedList.__init__ []) (IndexedList.__init__ []) (IndexedList.__init__ [])
    (IndexedList.__init__ [])
    None None 12.




(** A new document to which a light has been added. *)
Definition sample_light : pyobj :=
  PyObj 30 "sun" (XmlNode 31 "light" [("id", "sun")] []).

Definition lit_collada : collada :=
  MkCollada (xmlroot new_collada) (assetInfo_xmlnode new_collada)
    (geometries new_collada) (controllers new_collada) (animations new_collada)
    (IndexedList.__init__ [sample_light]) (cameras new_collada) (images new_collada)
    (effects new_collada) (materials new_collada) (nodes new_collada)
    (scenes new_collada) None None 32.

(** A new document in which one light has been added to the lights and
    to the cameras. *)
Definition shared_collada : collada :=
  MkCollada (xmlroot new_collada) (assetInfo_xmlnode new_collada)
    (geometries new_collada) (controllers new_collada) (animations new_collada)
    (IndexedList.__init__ [sample_light]) (IndexedList.__init__ [sample_light])
    (images new_collada) (effects new_collada) (materials new_collada)
    (nodes new_collada) (scenes new_collada) None None 32.

(** A container in step with the members of a collection: the node of
    every member is a child; every child is the node of a member or was a
    child of the container [old] found before; with lxml's iteration every
    child is the node of a member. *)
Definition library_in_sync (impl : implementation) (members : list pyobj)
    (old : option xmlnode) (container : xmlnode) : Prop :=
  (∀ o, o ∈ members → elem_in (oxmlnode o) (xchildren container) = true)
  ∧ (∀ n, n ∈ xchildren container →
          n ∈ oxmlnode <$> members ∨ ∃ c, old = Some c ∧ n ∈ xchildren c)
  ∧ (impl = Lxml →
     ∀ n, n ∈ xchildren container → elem_in n (oxmlnode <$> members) = true).

(** A document whose tree names the default scene [old] and whose
    [scene] attribute has been set to a scene that is not in [scenes]. *)
Definition old_scene_reference : xmlnode :=
  XmlNode 13 "instance_visual_scene" [("url", "#old")] [].

Definition stray_scene : pyobj := PyObj 14 "stray" (XmlNode 15 "visual_scene" [("id", "stray")] []).

Definition stray_scene_collada : collada :=
  MkCollada
    (XmlNode 0 "COLLADA" [("version", "1.4.1")]
       [XmlNode 11 "asset" [] [];
        XmlNode 10 "scene" [] [old_scene_reference]])
    (XmlNode 11 "asset" [] [])
    (Eager (IndexedList.__init__ [])) (Eager (IndexedList.__init__ []))
    (Eager (IndexedList.__init__ []))
    (IndexedList.__init__ []) (IndexedList.__init__ []) (IndexedList.__init__ [])
    (IndexedList.__init__ []) (IndexedList.__init__ []) (IndexedList.__init__ [])
    (IndexedList.__init__ [])
    (Some stray_scene) None 16.

End Document.

(** ** [save] when no element is moved

    When no [append] of [save] takes an element out of another place, as
    with the standard library's tree and in a [settled] document, a round
    touches its own container only: the container can be brought up to
    date on its own and written back.  The definitions below say what
    [save] does then; [save_settled] shows that they agree with
    [Document.save]. *)

Module Unmoved.
Import Errors Tree ElementTree Document.

(** [if o.xmlnode not in node: node.append(o.xmlnode)], seen from the
    container: its children afterwards. *)
Definition adopt (children : list xmlnode) (o : pyobj) : list xmlnode :=
  if elem_in (oxmlnode o) children then children else children ++ [oxmlnode o].

(** [for o in arr: ...] over a [LazyIndexedList], seen from the
    container. *)
Fixpoint adopt_lazy (loader_func : xmlnode → exn + pyobj) (ids : list string)
    (l : LazyIndexedList.lazy_list) (seen : list pyobj) (children : list xmlnode)
    : option exn * LazyIndexedList.lazy_list * list pyobj * list xmlnode :=
  match ids with
  | [] => (None, l, seen, children)
  | obj_id :: rest =>
      match LazyIndexedList._load_item loader_func l obj_id with
      | (inl e, l') => (Some e, l', seen, children)
      | (inr None, l') => (Some AttributeError, l', seen, children)
      | (inr (Some o), l') => adopt_lazy loader_func rest l' (seen ++ [o]) (adopt children o)
      end
  end.

(** The first loop over [arr]: the exception if one was raised, the
    collection afterwards, the members met and the children of the
    container. *)
Definition adopt_all (arr : collection) (children : list xmlnode)
    : option exn * collection * list pyobj * list xmlnode :=
  match arr with
  | Eager l =>
      (None, arr, IndexedList.il_items l, foldl adopt children (IndexedList.il_items l))
  | Lazy loader_func l =>
      let '(e, l', seen, children') :=
        adopt_lazy loader_func (LazyIndexedList._order l) l [] children in
      (e, Lazy loader_func l', seen, children')
  end.

(** The statements from [for o in arr] to the end of the round, for the
    container [node], which is written back in its place. *)
Definition sync_container (impl : implementation) (name : string) (arr : collection)
    (node : xmlnode) (children : list xmlnode) (fresh : nat) : round :=
  let '(e, arr', members, kids) := adopt_all arr (xchildren node) in
  match e with
  | Some ex => MkRound (Some ex) (replace_first name (with_children node kids) children) fresh arr'
  | None =>
      let xmlnodes := oxmlnode <$> members in
      MkRound None
        (replace_first name (with_children node (prune impl xmlnodes kids)) children)
        fresh arr'
  end.

(** The body of [for arr, name in libraries]. *)
Definition save_library (impl : implementation) (library_loc : nat)
    (children : list xmlnode) (fresh : nat) (arr : collection) (name : string) : round :=
  match find name children with
  | None =>
      if bool_decide (coll_len arr = 0) then MkRound None children fresh arr
      else
        let children' := insert library_loc (XmlNode fresh name [] []) children in
        match find name children' with
        | None => MkRound (Some TypeError) children' (S fresh) arr
        | Some node => sync_container impl name arr node children' (S fresh)
        end
  | Some node =>
      if bool_decide (coll_len arr = 0)
      then MkRound None (remove_found name children) fresh arr
      else sync_container impl name arr node children fresh
  end.

(** The loop over [libraries]. *)
Fixpoint save_libraries (impl : implementation) (library_loc : nat)
    (self : collada) (libs : list library) : option exn * collada :=
  match libs with
  | [] => (None, self)
  | lib :: rest =>
      let r := save_library impl library_loc (xchildren (xmlroot self)) (next_ref self)
                 (library_arr self lib) (library_name lib) in
      let self' :=
        set_library_arr
          (set_tree self (with_children (xmlroot self) (root_children r)) (round_next_ref r))
          lib (arr_after r) in
      match raised r with
      | Some e => (Some e, self')
      | None => save_libraries impl library_loc self' rest
      end
  end.

(** [Collada.save] when no element is moved. *)
Definition save (impl : implementation) (self : collada) : option exn * collada :=
  let '(self1, library_loc) := save_asset self in
  match save_libraries impl library_loc self1 libraries with
  | (Some e, self2) => (Some e, self2)
  | (None, self2) =>
      match save_scene self2 with
      | (Some e, self3) => (Some e, self3)
      | (None, self3) => (save_validate self3, self3)
      end
  end.

(** The children of a container after the two loops of a round that
    moves no element. *)
Definition synced (impl : implementation) (members : list pyobj)
    (kids : list xmlnode) : list xmlnode :=
  prune impl (oxmlnode <$> members) (foldl adopt kids members).

(** The containers tagged [name] after a round, given those before it:
    with members, the first container is synchronised, or one is created;
    without, the first container is gone. *)
Definition container_synced (impl : implementation) (name : string)
    (members : list pyobj) (before after : list xmlnode) : Prop :=
  match before, members with
  | [], [] => after = []
  | [], _ :: _ => ∃ ref, after = [XmlNode ref name [] (synced impl members [])]
  | node :: others, [] => after = others
  | node :: others, _ :: _ =>
      after = with_children node (synced impl members (xchildren node)) :: others
  end.

End Unmoved.

(** ** [collada.util.checkSource] *)

Module Util.
Import Errors.

Section CheckSource.

(** A row of [source.data]. *)
Variable row : Type.

(** A data source as [checkSource] reads it: its [id], its [data] and
    the names of its [components].  The two sequences of names are
    compared with [!=] only after one has been assigned to the other when
    their lengths agree, and sequences of different lengths differ whatever
    their types: lists of strings decide the test as tuples do. *)
Record data_source := MkDataSource {
  ds_id : string;
  ds_data : list row;
  ds_components : list string
}.

(** [checkSource(source, components, maxindex)]: the source it returns
    (the one it was given, with the components it may have assigned) or the
    error it raises; nothing is assigned on a path that raises. *)
Definition checkSource (source : data_source) (components : list string)
    (maxindex : Z) : exn + data_source :=
  let len := Z.of_nat (length (ds_data source)) in
  if (len <=? maxindex)%Z
  then inl (DaeExn (MkError DaeMalformedError
              ("Indexes (maxindex=" +:+ pretty maxindex +:+ ") for source '"
               +:+ ds_id source +:+ "' (len=" +:+ pretty len
               +:+ ") go beyond the limits of the source")))
  else
    let source1 :=
      if bool_decide (length (ds_components source) = length components)
      then MkDataSource (ds_id source) (ds_data source) components
      else source in
    if bool_decide (ds_components source1 ≠ components)
    then inl (DaeExn (MkError DaeMalformedError
                ("Wrong format in source " +:+ ds_id source1)))
    else inr source1.

End CheckSource.

Arguments MkDataSource {row}.
Arguments ds_id {row}.
Arguments ds_data {row}.
Arguments ds_components {row}.
Arguments checkSource {row}.







End Util.

(** ** The updating methods of [collada.util.IndexedList] *)

Module IndexedListUpdate.
Import Errors Tree IndexedList.

(** A value handed to a method of the list: an integer, a string or an
    object. *)
Inductive pyval :=
| VInt (i : Z)
| VStr (s : string)
| VObj (o : pyobj).

(** The exceptions of the updating methods: those of [exn], and the
    [ValueError] of [list.index] and [list.remove]. *)
Inductive update_exn :=
| Raised (e : exn)
| ValueError.

(** [member == v] for a member of the list: the entities define no
    [__eq__], so a member equals itself only, and neither an integer nor a
    string. *)
Definition member_eq (member : pyobj) (v : pyval) : bool :=
  match v with
  | VObj o => bool_decide (oref member = oref o)
  | _ => false
  end.

(** [list.index(self, v)]; [None] stands for its [ValueError]. *)
Fixpoint list_index (l : list pyobj) (v : pyval) : option nat :=
  match l with
  | [] => None
  | member :: rest =>
      if member_eq member v then Some 0%nat else S <$> list_index rest v
  end.

(** [list.remove(self, v)]: the list without its first member equal to
    [v]; [None] stands for its [ValueError]. *)
Definition list_remove (l : list pyobj) (v : pyval) : option (list pyobj) :=
  (λ n, delete n l) <$> list_index l v.

(** The place an integer subscript that [list.__getitem__] accepted
    denotes: the list methods called with it afterwards count a negative
    one from the end in the same way. *)
Definition position (l : list pyobj) (i : Z) : nat :=
  Z.to_nat (if (i <? 0)%Z then Z.of_nat (length l) + i else i)%Z.

(** The opening shared by [__delitem__], [__setitem__], [insert] and
    [pop]:
    [try: obj = list.__getitem__(self, ind)]
    [except (IndexError, TypeError): obj = self._index[ind]; ind = list.index(self, obj)].
    An integer out of range is looked up in the index, whose keys are
    strings: [KeyError].  A string makes [list.__getitem__] raise
    [TypeError] and is looked up in the index.  The result is the object
    and the place [ind] denotes. *)
Definition locate (self : indexed_list) (ind : subscript) : update_exn + (pyobj * nat) :=
  match ind with
  | SPos i =>
      match list_getitem (il_items self) i with
      | inr obj => inr (obj, position (il_items self) i)
      | inl _ => inl (Raised KeyError)
      end
  | SKey k =>
      match il_index self !! k with
      | None => inl (Raised KeyError)
      | Some obj =>
          match list_index (il_items self) (VObj obj) with
          | Some n => inr (obj, n)
          | None => inl ValueError
          end
      end
  end.

(** [IndexedList.__delitem__] *)
Definition __delitem__ (self : indexed_list) (ind : subscript)
    : option update_exn * indexed_list :=
  match locate self ind with
  | inl e => (Some e, self)
  | inr (obj, n) =>
      (None, MkIndexedList (delete n (il_items self)) (_delindex (il_index self) obj))
  end.

(** [IndexedList.pop]; [pop()] is [pop(-1)]. *)
Definition pop (self : indexed_list) (ind : subscript)
    : (update_exn + pyobj) * indexed_list :=
  match locate self ind with
  | inl e => (inl e, self)
  | inr (obj, n) =>
      let idx := _delindex (il_index self) obj in
      match il_items self !! n with
      | Some popped => (inr popped, MkIndexedList (delete n (il_items self)) idx)
      | None => (inl (Raised IndexError), MkIndexedList (il_items self) idx)
      end
  end.

(** [IndexedList.insert]: [new_obj] goes in front of the member
    located. *)
Definition insert (self : indexed_list) (ind : subscript) (new_obj : pyobj)
    : option update_exn * indexed_list :=
  match locate self ind with
  | inl e => (Some e, self)
  | inr (_, n) =>
      (None, MkIndexedList (take n (il_items self) ++ new_obj :: drop n (il_items self))
               (_addindex (il_index self) new_obj))
  end.

(** [list.__setitem__(ind, new_obj)], the last statement of
    [IndexedList.__setitem__]: the method is taken from the class and
    called without [self], so [ind] stands where the list is expected and
    the method descriptor rejects it. *)
Definition list_setitem_unbound (receiver : pyval) (value : pyobj) : option exn :=
  match receiver with
  | VInt _ | VStr _ | VObj _ => Some TypeError
  end.

(** [IndexedList.__setitem__] *)
Definition __setitem__ (self : indexed_list) (ind : subscript) (new_obj : pyobj)
    : option update_exn * indexed_list :=
  match locate self ind with
  | inl e => (Some e, self)
  | inr (obj, n) =>
      let self' :=
        MkIndexedList (il_items self)
          (_addindex (_delindex (il_index self) obj) new_obj) in
      (Raised <$> list_setitem_unbound (VInt (Z.of_nat n)) new_obj, self')
  end.

(** [IndexedList.remove(ind_or_obj)]: the index is asked first; on its
    [KeyError] (a key that is missing, or an argument that is no string)
    the list is searched for the argument.  The last statement hands
    [list.remove] the place found, not the object. *)
Definition remove (self : indexed_list) (ind_or_obj : pyval)
    : option update_exn * indexed_list :=
  let items := il_items self in
  let by_key :=
    match ind_or_obj with
    | VStr k => il_index self !! k
    | _ => None
    end in
  let found : update_exn + (pyobj * nat) :=
    match by_key with
    | Some obj =>
        match list_index items (VObj obj) with
        | Some ind => inr (obj, ind)
        | None => inl ValueError
        end
    | None =>
        match list_index items ind_or_obj with
        | Some ind =>
            match items !! ind with
            | Some obj => inr (obj, ind)
            | None => inl (Raised IndexError)
            end
        | None => inl ValueError
        end
    end in
  match found with
  | inl e => (Some e, self)
  | inr (obj, ind) =>
      let idx := _delindex (il_index self) obj in
      match list_remove items (VInt (Z.of_nat ind)) with
      | Some items' => (None, MkIndexedList items' idx)
      | None => (Some ValueError, MkIndexedList items idx)
      end
  end.

(** A collection in which the index and the list agree: the members
    carry pairwise different ids, different members are different objects,
    and the index maps exactly the ids of the members, each to its
    member. *)
Definition agrees (self : indexed_list) : Prop :=
  NoDup (oid <$> il_items self)
  ∧ NoDup (oref <$> il_items self)
  ∧ ∀ k o, il_index self !! k = Some o ↔ o ∈ il_items self ∧ oid o = k.

(** An integer subscript within the list. *)
Definition in_range (self : indexed_list) (i : Z) : Prop :=
  (- Z.of_nat (length (il_items self)) ≤ i < Z.of_nat (length (il_items self)))%Z.

End IndexedListUpdate.

(** ** [LazyIndexedList._load_all] and the containment test for objects *)

Module LazyLoading.
Import Errors Tree LazyIndexedList.

(** [item in self] for an object: [id(item) in self._loaded_objects]. *)
Definition contains_object (self : lazy_list) (item : pyobj) : bool :=
  bool_decide (oref item ∈ _loaded_objects self).

(** [keys] can be [list(self._pending_nodes.keys())]: the pending
    identities, each once.  A [dict] yields them in the order of their
    insertion, which the map of the model does not keep; [_load_all] takes
    the list as an argument. *)
Definition pending_keys (self : lazy_list) (keys : list string) : Prop :=
  NoDup keys ∧ ∀ k, k ∈ keys ↔ is_Some (_pending_nodes self !! k).

Section WithLoader.

Variable loader_func : xmlnode → exn + pyobj.

(** [LazyIndexedList._load_all]: the loop over [keys]; a decoder that
    raises ends it. *)
Fixpoint _load_all (self : lazy_list) (keys : list string) : option exn * lazy_list :=
  match keys with
  | [] => (None, self)
  | obj_id :: rest =>
      match _load_item loader_func self obj_id with
      | (inl e, self') => (Some e, self')
      | (inr _, self') => _load_all self' rest
      end
  end.

End WithLoader.

(** The object a pending node is decoded to, when the decoder returns
    one. *)
Definition decoded (loader_func : xmlnode → exn + pyobj) (node : xmlnode) : option pyobj :=
  match loader_func node with
  | inr obj => Some obj
  | inl _ => None
  end.

(** Every identity that is pending or loaded is in the insertion
    order. *)
Definition listed (self : lazy_list) : Prop :=
  ∀ k, is_Some (_pending_nodes self !! k) ∨ is_Some (_loaded self !! k) →
       k ∈ _order self.

(** Every object of [_loaded] passes the containment test. *)
Definition loaded_are_contained (self : lazy_list) : Prop :=
  ∀ k o, _loaded self !! k = Some o → contains_object self o = true.

End LazyLoading.

(** ** The lazy library loaders and [Collada._loadDefaultScene] *)

Module Loading.
Import Errors Tree ElementTree Document.

Section LazyLoaders.

(** The test a child passes to be registered: a geometry needs a
    [mesh], a controller a [skin] or a [morph], an animation nothing. *)
Variable qualifies : xmlnode → bool.

(** The innermost loop of the lazy branch of [_loadGeometry],
    [_loadControllers] and [_loadAnimations]: the children that qualify
    are registered, none is decoded. *)
Definition register_items (l : LazyIndexedList.lazy_list) (nodes : list xmlnode)
    : LazyIndexedList.lazy_list :=
  foldl (λ l node, if qualifies node then LazyIndexedList.add_node l node else l) l nodes.

Definition register_containers (childname : string) (l : LazyIndexedList.lazy_list)
    (libnodes : list xmlnode) : LazyIndexedList.lazy_list :=
  foldl (λ l libnode, register_items l (findall childname (xchildren libnode))) l libnodes.

(** The lazy branch of a loader: the [LazyIndexedList] it installs. *)
Definition _loadLazyLibrary (libname childname : string) (root : xmlnode)
    : LazyIndexedList.lazy_list :=
  register_containers childname LazyIndexedList.__init__
    (findall libname (xchildren root)).

End LazyLoaders.

(** The identity under which [add_node] registers a node, if it does. *)
Definition node_id (node : xmlnode) : option string :=
  match node_get node "id" with
  | Some obj_id => if bool_decide (obj_id = "") then None else Some obj_id
  | None => None
  end.

(** The error with which the decoder fails on a node in an eager
    loader, if it does. *)
Definition failure (qualifies : xmlnode → bool)
    (decode : xmlnode → (exn + pyobj) * list dae_error)
    (node : xmlnode) : option dae_error :=
  if qualifies node
  then match (decode node).1 with
       | inl (DaeExn ex) => Some ex
       | _ => None
       end
  else None.

(** The errors a node leaves in [self.errors] in an eager loader: those
    the decoder records while it decodes, then the [DaeError] it fails
    with. *)
Definition recorded (qualifies : xmlnode → bool)
    (decode : xmlnode → (exn + pyobj) * list dae_error)
    (node : xmlnode) : list dae_error :=
  if qualifies node
  then (decode node).2 ++ match (decode node).1 with
                          | inl (DaeExn ex) => [ex]
                          | _ => []
                          end
  else [].

(** The decoder as a [LazyIndexedList] calls it: the collection has no
    use for the errors. *)
Definition loader_of (decode : xmlnode → (exn + pyobj) * list dae_error)
    : xmlnode → exn + pyobj :=
  λ node, (decode node).1.

(** A decoder that records nothing while it decodes. *)
Definition silent (loader_func : xmlnode → exn + pyobj)
    : xmlnode → (exn + pyobj) * list dae_error :=
  λ node, (loader_func node, []).




(** A document none of whose collections is a [LazyIndexedList]: one
    that was not opened with [lazy=True]. *)
Definition all_eager (self : collada) : Prop :=
  ∀ lib, ∃ l, library_arr self lib = Eager l.

(** What a run of [_loadNodes] may do to [self.nodes] and [self.errors]:
    add objects that [scene.loadNode] returned behind those there, and
    errors that it raised behind those recorded. *)
Definition extends (loadNode : IndexedList.indexed_list → xmlnode → Nodes.load_outcome)
    (before after : IndexedList.indexed_list * list dae_error) : Prop :=
  ∃ added recorded,
    IndexedList.il_items after.1 = IndexedList.il_items before.1 ++ added
    ∧ after.2 = before.2 ++ recorded
    ∧ Forall (λ o, ∃ ns n, loadNode ns n = Nodes.Loaded (Some o)) added
    ∧ Forall (λ e, ∃ ns n, loadNode ns n = Nodes.Failed e) recorded.

(** A tree with one library of three lights and two decoders for
    examples: one that wraps every node, one that rejects the second
    light and records an error while it decodes the third. *)
Definition sample_lights_root : xmlnode :=
  XmlNode 0 "COLLADA" []
    [XmlNode 1 "library_lights" []
       [XmlNode 2 "light" [("id", "key")] [];
        XmlNode 3 "light" [("id", "fill")] [];
        XmlNode 4 "light" [("id", "rim")] []]].

Definition wrapping_decode (node : xmlnode) : exn + pyobj :=
  inr (PyObj (100 + xref node) (default "" (node_get node "id")) node).

Definition sample_decode (node : xmlnode) : (exn + pyobj) * list dae_error :=
  if bool_decide (xref node = 3%nat)
  then (inl (DaeExn (MkError DaeMalformedError "no technique")), [])
  else if bool_decide (xref node = 4%nat)
       then (wrapping_decode node,
             [MkError DaeUnsupportedError "Unknown input semantic: FOO"])
       else (wrapping_decode node, []).



Definition sceneless_collada : collada :=
  MkCollada (XmlNode 0 "COLLADA" [("version", "1.4.1")] [XmlNode 11 "asset" [] []])
    (assetInfo_xmlnode new_collada)
    (geometries new_collada) (controllers new_collada) (animations new_collada)
    (lights new_collada) (cameras new_collada) (images new_collada)
    (effects new_collada) (materials new_collada) (nodes new_collada)
    (scenes new_collada) None None 12.

(** The document with no validator. *)
Definition without_validator (self : collada) : collada :=
  MkCollada (xmlroot self) (assetInfo_xmlnode self)
    (geometries self) (controllers self) (animations self) (lights self)
    (cameras self) (images self) (effects self) (materials self)
    (nodes self) (scenes self) (scene self) None (next_ref self).

End Loading.

(** * Properties *)

(** ** The member of a zip archive read as the document *)

Section ZipFacts.
Import Errors Zip.

Lemma endswith_nonempty s suffix : suffix ≠ "" → endswith s suffix = true → s ≠ "".
Proof.
  intros Hsuf H ->. simpl in H. case_bool_decide; [congruence | discriminate].
Qed.

Lemma daefiles_nonempty namelist name : name ∈ daefiles namelist → name ≠ "".
Proof.
  unfold daefiles. rewrite list_elem_of_filter. intros [H _] ->.
  vm_compute in H. discriminate.
Qed.

Lemma daefiles_sublist namelist name : name ∈ daefiles namelist → name ∈ namelist.
Proof. unfold daefiles. rewrite list_elem_of_filter. tauto. Qed.

(** An unmarked, non-empty name in [self.filename] is never replaced. *)
Lemma pick_name_keeps filename names :
  filename ≠ "" → contains "MACOSX" filename = false →
  pick_name filename names = filename.
Proof.
  intros Hne Hun. induction names as [|name rest IH]; [done|].
  simpl. unfold str_false. rewrite bool_decide_eq_false_2 by done.
  by rewrite Hun.
Qed.

Lemma pick_name_first_unmarked filename names :
  filename ≠ "" → (∀ n, n ∈ names → n ≠ "") →
  Some (pick_name filename names) =
    match List.find (λ n, negb (contains "MACOSX" n)) (filename :: names) with
    | Some n => Some n
    | None => last (filename :: names)
    end.
Proof.
  revert filename. induction names as [|name rest IH]; intros filename Hne Hall.
  - simpl. by destruct (contains "MACOSX" filename).
  - cbn [List.find]. destruct (contains "MACOSX" filename) eqn:Hm; cbn [negb].
    + cbn [pick_name]. unfold str_false. rewrite bool_decide_eq_false_2 by done.
      rewrite Hm. rewrite IH.
      * cbn [List.find]. by rewrite last_cons_cons.
      * apply Hall. left.
      * intros n Hn. apply Hall. by right.
    + by rewrite pick_name_keeps.
Qed.

Lemma in_first_unmarked namelist name :
  first_unmarked_candidate namelist = Some name → name ∈ daefiles namelist.
Proof.
  unfold first_unmarked_candidate.
  destruct (List.find _ _) as [n|] eqn:Hf.
  - intros [= <-]. apply List.find_some in Hf as [Hin _]. by apply list_elem_of_In.
  - intros Hl. apply last_Some in Hl as [l' ->]. set_solver.
Qed.

(** C6, as the code has it: with no member name configured, the
    document is the first candidate (a member whose upper-cased name ends
    with [.DAE]) that does not contain [MACOSX], and the last candidate
    when every candidate contains it; with no candidate at all the
    constructor raises the incomplete-document error. *)
Theorem select_member_first_unmarked (namelist : list string) :
  select_member None namelist =
    match first_unmarked_candidate namelist with
    | Some name => inr name
    | None => inl DaeIncompleteError
    end
  ∧ (first_unmarked_candidate namelist = None ↔ daefiles namelist = []).
Proof.
  assert (Hnone : first_unmarked_candidate namelist = None ↔ daefiles namelist = []).
  { unfold first_unmarked_candidate. split.
    - destruct (List.find _ _); [done|]. apply last_None.
    - by intros ->. }
  split; [|done].
  unfold select_member.
  destruct (daefiles namelist) as [|first rest] eqn:Hd.
  - unfold first_unmarked_candidate. rewrite Hd. done.
  - assert (Hpick : Some (pick_name "" (first :: rest)) = first_unmarked_candidate namelist).
    { cbn [pick_name]. unfold str_false at 1. rewrite bool_decide_eq_true_2 by done.
      unfold first_unmarked_candidate. rewrite Hd.
      apply pick_name_first_unmarked.
      - apply (daefiles_nonempty namelist). rewrite Hd. left.
      - intros n Hn. apply (daefiles_nonempty namelist). rewrite Hd. by right. }
    destruct (first_unmarked_candidate namelist) as [name|] eqn:Hc.
    + assert (pick_name "" (first :: rest) = name) as -> by congruence.
      pose proof (in_first_unmarked _ _ Hc) as Hin.
      unfold str_false. rewrite bool_decide_eq_false_2 by by eapply daefiles_nonempty.
      rewrite bool_decide_eq_true_2 by by apply daefiles_sublist. done.
    + discriminate.
Qed.

(** C6 as stated fails: of two candidates without the marker the code
    reads the first, not the one seen last. *)
Lemma select_member_not_last_seen :
  daefiles ["a.dae"; "b.dae"] = ["a.dae"; "b.dae"]
  ∧ contains "MACOSX" "a.dae" = false
  ∧ contains "MACOSX" "b.dae" = false
  ∧ last_seen_candidate ["a.dae"; "b.dae"] = Some "b.dae"
  ∧ select_member None ["a.dae"; "b.dae"] = inr "a.dae"
  ∧ select_member None ["a.dae"; "b.dae"] ≠ inr "b.dae".
Proof. repeat split; try reflexivity. discriminate. Qed.

End ZipFacts.

(** ** The error mask *)

Section ErrorFacts.
Import Errors.

(** [ignoreErrors(e1, e2, ...)] adds its arguments to the mask. *)
Lemma ignoreErrors_adds maskedErrors (kinds : list dae_kind) :
  ignoreErrors maskedErrors (MKind <$> kinds) = maskedErrors ++ (MKind <$> kinds).
Proof.
  unfold ignoreErrors, pyseq_eq. done.
Qed.

(** A mask that holds the root kind, with only classes before it,
    swallows every error. *)
Lemma root_kind_masks_everything errors (before : list dae_kind) after error :
  (handleError errors ((MKind <$> before) ++ MKind DaeError :: after) error).2 = Swallowed.
Proof.
  unfold handleError. cbn [snd].
  induction before as [|c before IH]; cbn.
  - done.
  - by destruct (issubclass (err_kind error) c).
Qed.

(** With an empty mask every error is raised again. *)
Lemma empty_mask_reraises errors error :
  (handleError errors [] error).2 = Reraised.
Proof. done. Qed.

(** C7, the code at [ignoreErrors(None)]: the call compares the argument
    tuple with the list [[None]], which are never equal, so the mask is not
    cleared: [None] is added to it.  A mask that swallowed every error
    still does, and a mask that was empty now makes [handleError] raise
    [TypeError] in place of the error it was given. *)
Theorem ignoreErrors_None_keeps_mask (maskedErrors : list mask_entry) :
  ignoreErrors maskedErrors [MNone] = maskedErrors ++ [MNone]
  ∧ (∀ errors error,
       (handleError errors (ignoreErrors [MKind DaeError] [MNone]) error).2 = Swallowed)
  ∧ (∀ errors error,
       (handleError errors (ignoreErrors [] [MNone]) error).2 = RaisedTypeError).
Proof. done. Qed.

End ErrorFacts.

(** ** Lookup by identity in an [IndexedList] *)

Section IndexedListFacts.
Import Errors Tree IndexedList.

(** The index after indexing [items] on top of [idx]: for each identity,
    the last of [items] that carries it. *)
Lemma lookup_foldl_addindex (items : list pyobj) (idx : gmap string pyobj) (k : string) :
  foldl _addindex idx items !! k =
    match last (filter (λ o, oid o = k) items) with
    | Some o => Some o
    | None => idx !! k
    end.
Proof.
  revert idx. induction items as [|o items IH] using rev_ind; intros idx; [done|].
  rewrite foldl_app. cbn [foldl]. unfold _addindex at 1.
  rewrite filter_app, filter_cons, filter_nil.
  case_decide as Hk.
  - subst k. rewrite last_snoc. apply lookup_insert_eq.
  - rewrite app_nil_r. rewrite lookup_insert_ne by done. apply IH.
Qed.

(** What the constructor, [append] and [extend] maintain: the index is
    the members indexed in sequence order. *)
Lemma built_index (self : indexed_list) :
  built self → il_index self = foldl _addindex ∅ (il_items self).
Proof.
  induction 1 as [items|self obj _ IH|self newList _ IH]; cbn.
  - done.
  - rewrite foldl_app. cbn. by rewrite IH.
  - rewrite foldl_app. by rewrite IH.
Qed.

(** Last writer wins: the lookup by an identity returns the last member
    that carries it. *)
Lemma getitem_key_last (self : indexed_list) (k : string) :
  built self →
  __getitem__ self (SKey k) =
    match last (filter (λ o, oid o = k) (il_items self)) with
    | Some o => inr o
    | None => inl KeyError
    end.
Proof.
  intros Hb. cbn. rewrite (built_index _ Hb), lookup_foldl_addindex.
  destruct (last _); [done|]. by rewrite lookup_empty.
Qed.

Lemma list_getitem_elem {A} (l : list A) (i : Z) (x : A) :
  list_getitem l i = inr x → x ∈ l.
Proof.
  unfold list_getitem. case_match; [done|].
  destruct (l !! _) eqn:Hl; [|done]. intros [= <-].
  by eapply list_elem_of_lookup_2.
Qed.

Lemma filter_none {A} (P : A → Prop) `{!∀ x, Decision (P x)} (l : list A) :
  (∀ x, x ∈ l → ¬ P x) → filter P l = [].
Proof.
  induction l as [|x l IH]; intros Hall; [done|].
  rewrite filter_cons_False by (apply Hall; left).
  apply IH. intros y Hy. apply Hall. by right.
Qed.

Lemma last_filter_unique (items : list pyobj) (o : pyobj) :
  NoDup (oid <$> items) → o ∈ items →
  last (filter (λ x, oid x = oid o) items) = Some o.
Proof.
  induction items as [|x items IH]; [by intros _ ?%elem_of_nil|].
  rewrite fmap_cons, NoDup_cons. intros [Hx Hnd] Hin.
  rewrite filter_cons. apply elem_of_cons in Hin as [->|Hin].
  - rewrite decide_True by done.
    assert (filter (λ y, oid y = oid x) items = []) as ->; [|done].
    apply filter_none. intros y Hy Heq. apply Hx.
    rewrite <- Heq. by apply list_elem_of_fmap_2.
  - rewrite decide_False.
    + by apply IH.
    + intros Heq. apply Hx. rewrite Heq. by apply list_elem_of_fmap_2.
Qed.

(** C8, as the code has it: in a collection built by the constructor,
    [append] and [extend] whose members carry pairwise different ids,
    [collection[collection[i].id] is collection[i]] at every valid
    position [i]. *)
Theorem lookup_by_id_roundtrip (self : indexed_list) (i : Z) (o : pyobj) :
  built self →
  NoDup (oid <$> il_items self) →
  __getitem__ self (SPos i) = inr o →
  __getitem__ self (SKey (oid o)) = inr o.
Proof.
  intros Hb Hnd Hi. rewrite getitem_key_last by done.
  rewrite last_filter_unique; [done|done|].
  by eapply list_getitem_elem.
Qed.

Lemma lookup_by_id_roundtrip_witness :
  let self := append (__init__ [PyObj 1 "a" sample_node]) (PyObj 2 "b" sample_node) in
  __getitem__ self (SPos 1) = inr (PyObj 2 "b" sample_node)
  ∧ __getitem__ self (SKey "b") = inr (PyObj 2 "b" sample_node).
Proof.
  split; [reflexivity|].
  apply (lookup_by_id_roundtrip _ 1 (PyObj 2 "b" sample_node)).
  - apply built_append, built_init.
  - apply (bool_decide_unpack _). vm_compute. exact I.
  - reflexivity.
Defined.

(** C8 as stated fails: two members with the same id; the lookup by the
    id of the first returns the second, a different object. *)
Lemma lookup_by_id_duplicate :
  let first := PyObj 1 "x" sample_node in
  let second := PyObj 2 "x" sample_node in
  let self := __init__ [first; second] in
  __getitem__ self (SPos 0) = inr first
  ∧ __getitem__ self (SKey (oid first)) = inr second
  ∧ oref second ≠ oref first.
Proof. repeat split. cbn. lia. Qed.

End IndexedListFacts.

(** ** The length and the lost identities of a [LazyIndexedList] *)

Section LazyFacts.
Import Errors Tree LazyIndexedList.
Variable loader_func : xmlnode → exn + pyobj.

(** Materialising never touches the insertion order. *)
Lemma load_item_order self obj_id :
  _order (_load_item loader_func self obj_id).2 = _order self.
Proof.
  unfold _load_item. repeat case_match; done.
Qed.

Lemma get_order self key default :
  _order (get loader_func self key default).2 = _order self.
Proof.
  unfold get. repeat case_match; try done; apply load_item_order.
Qed.

Lemma getitem_order self key :
  _order (__getitem__ loader_func self key).2 = _order self.
Proof.
  destruct key as [k|i]; cbn -[get _load_item].
  - apply get_order.
  - repeat case_match; try done; apply load_item_order.
Qed.

Lemma iter_from_order ids self :
  _order (iter_from loader_func self ids).2 = _order self.
Proof.
  revert self. induction ids as [|obj_id ids IH]; intros self; [done|].
  cbn -[_load_item].
  pose proof (load_item_order self obj_id) as Hl.
  destruct (_load_item loader_func self obj_id) as [[e|v] self']; cbn in *; [done|].
  specialize (IH self').
  destruct (iter_from loader_func self' ids) as [[vs e] self'']; cbn in *. congruence.
Qed.

Lemma access_order self op :
  is_access op → _order (apply_op loader_func self op) = _order self.
Proof.
  destruct op; cbn -[get __getitem__ __iter__]; try done; intros _.
  - apply get_order.
  - apply getitem_order.
  - apply iter_from_order.
Qed.

Lemma add_node_order self node :
  _order (add_node self node) =
    _order self ++ option_list (registered_id (OpAddNode node)).
Proof.
  unfold add_node, registered_id.
  destruct (node_get node "id") as [obj_id|]; cbn; [|by rewrite app_nil_r].
  case_bool_decide; cbn; [by rewrite app_nil_r|done].
Qed.

Lemma append_order self obj :
  _order (append self obj) =
    _order self ++ (if bool_decide (oid obj ∈ _order self) then [] else [oid obj]).
Proof.
  unfold append. cbn [_order]. case_bool_decide; [by rewrite app_nil_r|done].
Qed.

(** One operation leaves the order as it is, when it registers nothing
    or appends an identity already there, or adds the identity it
    registers at the end. *)
Lemma apply_op_order self op :
  (_order (apply_op loader_func self op) = _order self
   ∧ (registered_id op = None
      ∨ ∃ obj, op = OpAppend obj ∧ oid obj ∈ _order self))
  ∨ ∃ x, _order (apply_op loader_func self op) = _order self ++ [x]
         ∧ registered_id op = Some x
         ∧ ∀ obj, op = OpAppend obj → x ∉ _order self.
Proof.
  destruct op as [node|obj|key default|key|].
  - cbn [apply_op]. rewrite add_node_order.
    destruct (registered_id (OpAddNode node)) as [y|]; cbn [option_list].
    + right. exists y. split_and!; [done|done|]. by intros obj ?.
    + left. rewrite app_nil_r. split; [done|by left].
  - cbn [apply_op registered_id]. rewrite append_order.
    case_bool_decide as Hin.
    + left. rewrite app_nil_r. split; [done|]. right. by exists obj.
    + right. exists (oid obj). split_and!; [done|done|]. by intros ? [= <-].
  - left. split; [by apply access_order|by left].
  - left. split; [by apply access_order|by left].
  - left. split; [by apply access_order|by left].
Qed.

Lemma identities_cons op ops :
  identities (op :: ops) = option_list (registered_id op) ++ identities ops.
Proof.
  unfold identities.
  change (omap registered_id (op :: ops))
    with (match registered_id op with
          | Some y => y :: omap registered_id ops
          | None => omap registered_id ops
          end).
  by destruct (registered_id op).
Qed.

Lemma registers_fresh_step seen op rest :
  registers_fresh seen (op :: rest) →
  registers_fresh (option_list (registered_id op) ++ seen) rest
  ∧ (∀ node x, op = OpAddNode node → registered_id op = Some x → x ∉ seen).
Proof.
  destruct op as [node|obj|key default|key|]; cbn [registers_fresh].
  - destruct (registered_id (OpAddNode node)) as [y|]; cbn [option_list app].
    + intros [Hnew Hrest]. split; [done|]. by intros ? x _ [= <-].
    + intros Hrest. split; [done|]. by intros ? x _ ?.
  - intros Hrest. cbn [registered_id option_list app]. split; [done|]. by intros ? x ?.
  - intros Hrest. cbn [registered_id option_list app]. split; [done|]. by intros ? x ?.
  - intros Hrest. cbn [registered_id option_list app]. split; [done|]. by intros ? x ?.
  - intros Hrest. cbn [registered_id option_list app]. split; [done|]. by intros ? x ?.
Qed.

(** The insertion order under operations that register no identity
    twice: it has no duplicates and holds the identities met. *)
Lemma run_order ops : ∀ self seen,
  (∀ x, x ∈ seen ↔ x ∈ _order self) →
  NoDup (_order self) →
  registers_fresh seen ops →
  NoDup (_order (run loader_func ops self))
  ∧ ∀ x, x ∈ _order (run loader_func ops self) ↔ x ∈ _order self ∨ x ∈ identities ops.
Proof.
  induction ops as [|op ops IH]; intros self seen Hseen Hnd Hfresh.
  - split; [exact Hnd|]. intros x. unfold identities. cbn [run foldl].
    change (omap registered_id []) with (@nil string).
    rewrite elem_of_nil. tauto.
  - apply registers_fresh_step in Hfresh as [Hrest Hnew].
    assert (Hrun : run loader_func (op :: ops) self =
                   run loader_func ops (apply_op loader_func self op)) by reflexivity.
    rewrite Hrun, identities_cons. clear Hrun.
    destruct (apply_op_order self op) as [[Ho Hreg]|(y & Ho & Hreg & Happ)];
      revert Ho; generalize (apply_op loader_func self op); intros self' Ho.
    + assert (Hsub : ∀ x, x ∈ option_list (registered_id op) → x ∈ _order self).
      { destruct Hreg as [->|(obj & -> & Hin)]; cbn [option_list registered_id].
        - by intros x ?%elem_of_nil.
        - by intros x ->%list_elem_of_singleton. }
      destruct (IH self' (option_list (registered_id op) ++ seen)) as [IH1 IH2].
      * intros x. rewrite Ho, elem_of_app, Hseen. split; [|by right].
        intros [?|?]; [by apply Hsub|done].
      * by rewrite Ho.
      * exact Hrest.
      * split; [exact IH1|]. intros x. rewrite IH2, Ho, elem_of_app.
        split; [intros [?|?]; auto|].
        intros [?|[?|?]]; auto.
    + rewrite Hreg in *. cbn [option_list] in *.
      assert (Hy : y ∉ _order self).
      { destruct op as [node|obj|key default|key|]; try discriminate Hreg.
        - rewrite <- Hseen. by apply (Hnew node).
        - by apply (Happ obj). }
      destruct (IH self' ([y] ++ seen)) as [IH1 IH2].
      * intros x. rewrite Ho, !elem_of_app, Hseen. tauto.
      * rewrite Ho. apply NoDup_app. split; [exact Hnd|].
        split; [|apply NoDup_singleton].
        by intros x Hx ->%list_elem_of_singleton.
      * exact Hrest.
      * split; [exact IH1|]. intros x. rewrite IH2, Ho, !elem_of_app. tauto.
Qed.

(** C9, as the code has it: after any sequence of [add_node], [append]
    and accesses in which no [add_node] registers an identity already in
    the collection, [len()] is the number of distinct identities
    registered or appended, whatever has been materialised and whether the
    decoder raised. *)
Theorem len_counts_distinct_identities (ops : list operation) :
  registers_fresh [] ops →
  __len__ (run loader_func ops __init__) = length (remove_dups (identities ops)).
Proof.
  intros Hfresh.
  destruct (run_order ops __init__ []) as [Hnd Hel]; try done.
  { cbn. constructor. }
  unfold __len__. apply Permutation_length, NoDup_Permutation.
  - done.
  - apply NoDup_remove_dups.
  - intros x. rewrite Hel, elem_of_remove_dups. cbn. set_solver.
Qed.

Lemma load_item_lost self obj_id :
  lost obj_id self → _load_item loader_func self obj_id = (inr None, self).
Proof. intros [Hp Hl]. unfold _load_item. by rewrite Hl, Hp. Qed.

(** No access brings a lost identity back. *)
Lemma load_item_keeps_lost self obj_id other :
  lost obj_id self → lost obj_id (_load_item loader_func self other).2.
Proof.
  intros [Hp Hl]. unfold _load_item.
  destruct (_loaded self !! other) eqn:Hlo; [done|].
  destruct (_pending_nodes self !! other) as [node|] eqn:Hpo; [|done].
  assert (other ≠ obj_id) by congruence.
  destruct (loader_func node) as [e|obj]; split; cbn;
    rewrite ?lookup_delete_ne, ?lookup_insert_ne by done; done.
Qed.

Lemma get_keeps_lost self obj_id key default :
  lost obj_id self → lost obj_id (get loader_func self key default).2.
Proof.
  intros Hlost. unfold get. destruct (_loaded self !! key); [done|].
  case_bool_decide; [by apply load_item_keeps_lost|done].
Qed.

Lemma getitem_keeps_lost self obj_id key :
  lost obj_id self → lost obj_id (__getitem__ loader_func self key).2.
Proof.
  intros Hlost. destruct key as [k|i]; cbn -[get _load_item].
  - by apply get_keeps_lost.
  - repeat case_match; try done; by apply load_item_keeps_lost.
Qed.

Lemma iter_from_keeps_lost ids self obj_id :
  lost obj_id self → lost obj_id (iter_from loader_func self ids).2.
Proof.
  revert self. induction ids as [|other ids IH]; intros self Hlost; [done|].
  cbn -[_load_item].
  pose proof (load_item_keeps_lost self obj_id other Hlost) as Hl.
  destruct (_load_item loader_func self other) as [[e|v] self']; cbn in *; [done|].
  specialize (IH self' Hl).
  by destruct (iter_from loader_func self' ids) as [[vs e] self''].
Qed.

Lemma accesses_keep_lost ops : ∀ self obj_id,
  Forall is_access ops → lost obj_id self →
  lost obj_id (run loader_func ops self)
  ∧ _order (run loader_func ops self) = _order self.
Proof.
  induction ops as [|op ops IH]; intros self obj_id Hacc Hlost; [done|].
  apply Forall_cons in Hacc as [Hop Hacc].
  change (run loader_func (op :: ops) self)
    with (run loader_func ops (apply_op loader_func self op)).
  pose proof (access_order self op Hop) as Ho.
  assert (Hl : lost obj_id (apply_op loader_func self op)).
  { destruct op; try done; cbn [apply_op].
    - by apply get_keeps_lost.
    - by apply getitem_keeps_lost.
    - by apply iter_from_keeps_lost. }
  destruct (IH _ obj_id Hacc Hl) as [IH1 IH2]. split; [done|congruence].
Qed.

(** The iterator yields [None] at the places of a lost identity, which it
    reaches unless the decoder has raised at an earlier place. *)
Lemma iter_from_lost ids : ∀ self obj_id vs e self' i,
  lost obj_id self →
  iter_from loader_func self ids = (vs, e, self') →
  ids !! i = Some obj_id →
  vs !! i = Some None ∨ (is_Some e ∧ length vs < i).
Proof.
  induction ids as [|other ids IH]; intros self obj_id vs e self' i Hlost Hit Hi;
    [done|].
  cbn -[_load_item] in Hit.
  destruct i as [|i].
  - injection Hi as ->. rewrite load_item_lost in Hit by done.
    destruct (iter_from loader_func self ids) as [[vs' e'] self''].
    injection Hit as <- _ _. by left.
  - pose proof (load_item_keeps_lost self obj_id other Hlost) as Hl.
    destruct (_load_item loader_func self other) as [[ex|v] self1]; cbn in Hl.
    + injection Hit as <- <- _. right. split; [by eexists|cbn; lia].
    + destruct (iter_from loader_func self1 ids) as [[vs' e'] self''] eqn:Hrest.
      injection Hit as <- <- _. cbn in Hi.
      destruct (IH self1 obj_id vs' e' self'' i Hl Hrest Hi) as [Hv|[He Hlen]].
      * by left.
      * right. split; [done|cbn; lia].
Qed.

(** An iteration that does not raise yields one value for each place. *)
Lemma iter_from_length ids : ∀ self vs self',
  iter_from loader_func self ids = (vs, None, self') → length vs = length ids.
Proof.
  induction ids as [|other ids IH]; intros self vs self' Hit.
  - cbn in Hit. by injection Hit as <- _.
  - cbn -[_load_item] in Hit.
    destruct (_load_item loader_func self other) as [[ex|v] self1]; [done|].
    destruct (iter_from loader_func self1 ids) as [[vs' e'] self''] eqn:Hrest.
    injection Hit as <- -> _. cbn. f_equal. by eapply IH.
Qed.

(** Materialising leaves no node pending that was not. *)
Lemma load_item_pending self obj_id k node :
  _pending_nodes (_load_item loader_func self obj_id).2 !! k = Some node →
  _pending_nodes self !! k = Some node.
Proof.
  unfold _load_item.
  destruct (_loaded self !! obj_id); [done|].
  destruct (_pending_nodes self !! obj_id) as [n|] eqn:Hp; [|done].
  destruct (loader_func n); cbn; intros Hk;
    apply lookup_delete_Some in Hk as [_ Hk]; exact Hk.
Qed.

(** The iteration raises only what the decoder raises on a pending node. *)
Lemma iter_from_returns ids : ∀ self,
  (∀ k node, _pending_nodes self !! k = Some node → returned (loader_func node) = true) →
  (iter_from loader_func self ids).1.2 = None.
Proof.
  induction ids as [|other ids IH]; intros self Hdec; [done|].
  cbn -[_load_item].
  assert (Hnext : ∀ k node,
            _pending_nodes (_load_item loader_func self other).2 !! k = Some node →
            returned (loader_func node) = true).
  { intros k node Hk. apply (Hdec k). by eapply load_item_pending. }
  assert (Hret : ∀ ex, (_load_item loader_func self other).1 ≠ inl ex).
  { intros ex. unfold _load_item.
    destruct (_loaded self !! other); [done|].
    destruct (_pending_nodes self !! other) as [n|] eqn:Hp; [|done].
    specialize (Hdec other n Hp). by destruct (loader_func n). }
  destruct (_load_item loader_func self other) as [[ex|v] self1]; cbn in Hnext, Hret.
  - by destruct (Hret ex).
  - specialize (IH self1 Hnext).
    by destruct (iter_from loader_func self1 ids) as [[vs' e'] self''].
Qed.

(** C10: when the decoder raises on a pending identity, the exception
    reaches the caller and the node has left the pending set; from then on,
    whatever accesses follow, a keyed [get] returns the default, a
    subscript by the identity or by one of its positions returns [None],
    none of them calling the decoder or raising, and [len()] is what it
    was.  The iterator yields [None] at each position of the identity, and
    it reaches every position unless the decoder raises on another node
    at an earlier one: an iteration that does not raise yields one value
    for each position of the collection, and the iteration does not raise
    when the decoder accepts the nodes still pending. *)
Theorem failed_decode_loses_identity (self : lazy_list) (obj_id : string)
    (node : xmlnode) (e : exn) (accesses : list operation) :
  _loaded self !! obj_id = None →
  _pending_nodes self !! obj_id = Some node →
  loader_func node = inl e →
  Forall is_access accesses →
  let after := (_load_item loader_func self obj_id).2 in
  let later := run loader_func accesses after in
  (_load_item loader_func self obj_id).1 = inl e
  ∧ _pending_nodes after !! obj_id = None
  ∧ (∀ default, get loader_func later obj_id default = (inr default, later))
  ∧ __getitem__ loader_func later (IndexedList.SKey obj_id) = (inr None, later)
  ∧ (∀ i : Z,
       let pos := if (i <? 0)%Z then (Z.of_nat (__len__ later) + i)%Z else i in
       (0 ≤ pos)%Z → _order later !! Z.to_nat pos = Some obj_id →
       __getitem__ loader_func later (IndexedList.SPos i) = (inr None, later))
  ∧ (∀ vs ex self',
       __iter__ loader_func later = (vs, ex, self') →
       (∀ i, _order later !! i = Some obj_id →
             vs !! i = Some None ∨ (is_Some ex ∧ length vs < i))
       ∧ (ex = None → length vs = __len__ later)
       ∧ ((∀ k n, _pending_nodes later !! k = Some n →
                  returned (loader_func n) = true) → ex = None))
  ∧ __len__ later = __len__ self.
Proof.
  intros Hl Hp He Hacc after later.
  assert (Hafter : (_load_item loader_func self obj_id).1 = inl e
                   ∧ lost obj_id after ∧ _order after = _order self).
  { subst after. unfold _load_item. rewrite Hl, Hp, He. cbn.
    split; [done|]. split; [|done]. split; cbn; [apply lookup_delete_eq|done]. }
  destruct Hafter as (Hr & Hlost & Hord).
  destruct (accesses_keep_lost accesses after obj_id Hacc Hlost) as [Hlater Hord'].
  fold later in Hlater, Hord'.
  split; [done|]. split; [apply Hlost|].
  assert (Hget : ∀ default, get loader_func later obj_id default = (inr default, later)).
  { intros default. unfold get. destruct Hlater as [Hp' Hl']. rewrite Hl', Hp'.
    by rewrite bool_decide_eq_false_2 by by intros [? ?]. }
  split; [done|]. split; [apply Hget|]. split.
  - intros i pos Hpos Hi. cbn -[_load_item]. fold pos.
    assert (Z.to_nat pos < length (_order later)) by by eapply lookup_lt_Some.
    unfold __len__ in *.
    destruct (pos <? 0)%Z eqn:H1; [lia|].
    destruct (Z.of_nat (length (_order later)) <=? pos)%Z eqn:H2; [lia|].
    cbn [orb]. rewrite Hi. by apply load_item_lost.
  - split.
    + intros vs ex self' Hit. unfold __iter__ in Hit. split; [|split].
      * intros i Hi. by eapply iter_from_lost.
      * intros ->. unfold __len__. by eapply iter_from_length.
      * intros Hdec. pose proof (iter_from_returns (_order later) later Hdec) as Hret.
        rewrite Hit in Hret. exact Hret.
    + unfold __len__. congruence.
Qed.

End LazyFacts.

Section LazyExamples.
Import Errors Tree LazyIndexedList.

(** C9 as stated fails: the same identity registered twice counts twice. *)
Lemma len_counts_registrations :
  let first := XmlNode 1 "geometry" [("id", "a")] [] in
  let second := XmlNode 2 "geometry" [("id", "a")] [] in
  let ops := [OpAddNode first; OpAddNode second] in
  let loader_func := λ n : xmlnode, inr (PyObj 7 "a" n) : exn + pyobj in
  __len__ (run loader_func ops __init__) = 2
  ∧ length (remove_dups (identities ops)) = 1.
Proof. intros first second ops loader_func. split; reflexivity. Qed.

Lemma len_counts_distinct_identities_witness :
  let node := XmlNode 1 "geometry" [("id", "a")] [] in
  let obj := PyObj 7 "a" node in
  let loader_func := λ _ : xmlnode, inr obj : exn + pyobj in
  let ops := [OpAddNode node; OpGet "a" None; OpAppend obj;
              OpAppend (PyObj 8 "b" sample_node)] in
  __len__ (run loader_func ops __init__) = 2.
Proof.
  intros node obj loader_func ops.
  change 2 with (length (remove_dups (identities ops))).
  apply (len_counts_distinct_identities loader_func ops).
  cbn. split; [|done]. apply not_elem_of_nil.
Defined.

Lemma failed_decode_loses_identity_witness :
  let first := XmlNode 1 "geometry" [("id", "a")] [] in
  let second := XmlNode 2 "geometry" [("id", "b")] [] in
  let loader_func := λ n : xmlnode,
    if bool_decide (xref n = 1%nat) then inl KeyError
    else inr (PyObj 7 "b" n) : exn + pyobj in
  let self := add_node (add_node __init__ first) second in
  let after := (_load_item loader_func self "a").2 in
  let later := run loader_func [OpGet "a" None] after in
  (_load_item loader_func self "a").1 = inl KeyError
  ∧ get loader_func later "a" None = (inr None, later)
  ∧ __len__ later = 2
  ∧ ∃ vs self', __iter__ loader_func later = (vs, None, self')
                ∧ vs !! 0%nat = Some None ∧ length vs = 2.
Proof.
  intros first second loader_func self after later.
  destruct (failed_decode_loses_identity loader_func self "a" first KeyError
              [OpGet "a" None])
    as (H1 & _ & H3 & _ & _ & H6 & H7).
  - reflexivity.
  - reflexivity.
  - reflexivity.
  - repeat constructor.
  - split; [exact H1|]. split; [exact (H3 None)|]. split; [exact H7|].
    fold after later in H6.
    destruct (__iter__ loader_func later) as [[vs ex] self'] eqn:Hit.
    destruct (H6 vs ex self' eq_refl) as (Hplace & Hlen & Hret).
    assert (Hex : ex = None).
    { apply Hret. intros k n Hk.
      assert (Hp : _pending_nodes later = {["b" := second]})
        by (vm_compute; reflexivity).
      rewrite Hp in Hk. apply lookup_singleton_Some in Hk as [_ <-].
      reflexivity. }
    subst ex. exists vs, self'. split; [reflexivity|].
    split; [|exact (Hlen eq_refl)].
    destruct (Hplace 0%nat eq_refl) as [Hv|[[? Hn] _]]; [exact Hv|discriminate Hn].
Defined.

End LazyExamples.

(** ** The input resolver *)

Section PrimitiveFacts.
Import Errors Primitive.

Lemma total_bindings_insert (m : gmap string (list binding)) sem bucket :
  total_bindings (<[sem := bucket]> m) =
    length bucket + total_bindings (delete sem m).
Proof.
  unfold total_bindings. rewrite <- insert_delete_eq.
  rewrite map_fold_insert_L; [done| |apply lookup_delete_eq].
  intros. lia.
Qed.

Lemma total_bindings_lookup (m : gmap string (list binding)) sem :
  total_bindings m = length (default [] (m !! sem)) + total_bindings (delete sem m).
Proof.
  destruct (m !! sem) as [bucket|] eqn:Hm; cbn.
  - unfold total_bindings. rewrite (map_fold_delete_L _ _ sem bucket m); [done| |done].
    intros. lia.
  - by rewrite delete_id.
Qed.

(** Appending to a bucket adds one binding to the table. *)
Lemma total_bindings_append m sem b :
  total_bindings (bucket_append m sem b) = S (total_bindings m).
Proof.
  unfold bucket_append. rewrite total_bindings_insert, (total_bindings_lookup m sem).
  rewrite length_app. cbn. lia.
Qed.

Lemma bucket_append_lookup m sem b sem' :
  default [] (bucket_append m sem b !! sem') =
    default [] (m !! sem') ++ (if bool_decide (sem = sem') then [b] else []).
Proof.
  unfold bucket_append. case_bool_decide as Heq.
  - subst. by rewrite lookup_insert_eq.
  - rewrite lookup_insert_ne by done. by rewrite app_nil_r.
Qed.

Lemma total_bindings_initial : total_bindings initial_inputs = 0.
Proof. reflexivity. Qed.

Lemma initial_inputs_lookup sem : default [] (initial_inputs !! sem) = [].
Proof.
  unfold initial_inputs.
  destruct (list_to_map _ !! sem) as [bucket|] eqn:Hl; [|done].
  apply elem_of_list_to_map_2 in Hl.
  apply list_elem_of_fmap in Hl as (k & [= _ ->] & _). done.
Qed.

(** The first loop keeps, in order, the inputs whose scope entry is not
    a [dict]. *)
Lemma split_inputs_passthrough localscope inputs :
  (split_inputs localscope inputs).1 =
    filter (λ x, isdict (localscope !! tail_str (source_ref x)) = false) inputs.
Proof.
  induction inputs as [|x inputs IH]; [done|].
  cbn [split_inputs]. destruct (split_inputs localscope inputs) as [new_inputs to_append].
  cbn [fst] in IH. rewrite filter_cons.
  destruct (localscope !! tail_str (source_ref x)) as [[s|d]|] eqn:Hx; cbn [isdict].
  - rewrite decide_True by done. cbn. by rewrite IH.
  - rewrite decide_False by done. by case_bool_decide.
  - rewrite decide_True by done. cbn. by rewrite IH.
Qed.

Lemma split_inputs_aliases localscope inputs :
  (split_inputs localscope inputs).2 = inputs ≫= aliases localscope.
Proof.
  induction inputs as [|x inputs IH]; [done|].
  cbn [split_inputs]. destruct (split_inputs localscope inputs) as [new_inputs to_append].
  cbn [snd] in IH. cbn [mbind list_bind]. fold (mbind (M:=list) (aliases localscope) inputs).
  unfold aliases at 1.
  destruct (localscope !! tail_str (source_ref x)) as [[s|d]|] eqn:Hx; cbn; try done.
  case_bool_decide; cbn; by rewrite IH.
Qed.

Lemma expand_closed localscope inputs :
  expand localscope inputs =
    filter (λ x, isdict (localscope !! tail_str (source_ref x)) = false) inputs
    ++ (inputs ≫= aliases localscope).
Proof.
  unfold expand.
  pose proof (split_inputs_passthrough localscope inputs) as H1.
  pose proof (split_inputs_aliases localscope inputs) as H2.
  destruct (split_inputs localscope inputs) as [a b]. cbn in H1, H2. by subst.
Qed.

(** The first loop does the same with and without the inputs it drops. *)
Lemma expand_without_dropped localscope inputs :
  expand localscope (filter (λ x, ¬ dropped localscope x) inputs) = expand localscope inputs.
Proof.
  rewrite !expand_closed. f_equal.
  - induction inputs as [|x inputs IH]; [done|].
    rewrite filter_cons. destruct (decide (¬ dropped localscope x)) as [Hx|Hx].
    + rewrite !filter_cons.
      destruct (decide (isdict (localscope !! tail_str (source_ref x)) = false));
        by rewrite IH.
    + rewrite IH, filter_cons. rewrite decide_False; [done|].
      intros Hd. apply Hx. intros [Hd' _]. congruence.
  - induction inputs as [|x inputs IH]; [done|].
    rewrite filter_cons. destruct (decide (¬ dropped localscope x)) as [Hx|Hx].
    + cbn [mbind list_bind]. f_equal. exact IH.
    + rewrite IH. cbn [mbind list_bind].
      assert (Ha : aliases localscope x = []); [|by rewrite Ha].
      unfold aliases.
      destruct (localscope !! tail_str (source_ref x)) as [[s|d]|] eqn:Hs;
        [reflexivity| |reflexivity].
      case_bool_decide as Hv; [|reflexivity]. exfalso. apply Hx. intros [_ Hd]. done.
Qed.

Variable maskedErrors : list mask_entry.

(** A run of the second loop that returns a table: every input was
    bound and added to the bucket of its semantic. *)
Lemma resolve_returns localscope new_inputs : ∀ all_inputs errors table errors',
  resolve maskedErrors localscope new_inputs all_inputs errors = (inr table, errors') →
  total_bindings table = total_bindings all_inputs + length new_inputs
  ∧ Forall (admissible localscope) new_inputs
  ∧ ∀ sem, default [] (table !! sem) =
           default [] (all_inputs !! sem)
           ++ omap (bound localscope) (filter (λ x, semantic x = sem) new_inputs).
Proof.
  induction new_inputs as [|x rest IH]; intros all_inputs errors table errors' Hr.
  - cbn in Hr. injection Hr as <- <-. split; [cbn; lia|]. split; [constructor|].
    intros sem. by rewrite app_nil_r.
  - cbn [resolve] in Hr.
    destruct (malformed (source_ref x)) eqn:Hm; [done|].
    destruct (localscope !! tail_str (source_ref x)) as [entry|] eqn:Hs; [|done].
    assert (Hb : bound localscope x = Some (x, entry)) by (unfold bound; by rewrite Hs).
    assert (Hnext : ∃ errors1,
      resolve maskedErrors localscope rest
        (bucket_append all_inputs (semantic x) (x, entry)) errors1 = (inr table, errors')).
    { case_bool_decide; [by eexists|].
      destruct (handleError errors maskedErrors (unsupported_error x)) as [errors1 []];
        [by eexists|done|done]. }
    destruct Hnext as [errors1 Hnext].
    apply IH in Hnext as (Ht & Hadm & Hbuckets).
    split; [rewrite Ht, total_bindings_append; cbn; lia|].
    split; [constructor; [by split; [|rewrite Hb]|done]|].
    intros sem. rewrite Hbuckets, bucket_append_lookup, filter_cons, <- app_assoc.
    f_equal. clear Hr. destruct (decide (semantic x = sem)) as [Hsem|Hsem].
    + rewrite bool_decide_eq_true_2 by done.
      change (omap (bound localscope) (x :: ?l))
        with (match bound localscope x with Some y => y :: omap (bound localscope) l
              | None => omap (bound localscope) l end).
      by rewrite Hb.
    + by rewrite bool_decide_eq_false_2 by done.
Qed.

(** A run of the second loop that returns a table recorded one error for
    each input with an unknown semantic, and nothing else. *)
Lemma resolve_returns_errors localscope new_inputs : ∀ all_inputs errors table errors',
  resolve maskedErrors localscope new_inputs all_inputs errors = (inr table, errors') →
  errors' = errors ++ (unsupported_error <$>
                       filter (λ x, semantic x ∉ _KNOWN_SEMANTICS) new_inputs).
Proof.
  induction new_inputs as [|x rest IH]; intros all_inputs errors table errors' Hr.
  - cbn in Hr. injection Hr as <- <-. by rewrite app_nil_r.
  - cbn [resolve] in Hr.
    destruct (malformed (source_ref x)) eqn:Hm; [done|].
    destruct (localscope !! tail_str (source_ref x)) as [entry|] eqn:Hs; [|done].
    rewrite filter_cons.
    destruct (decide (semantic x ∈ _KNOWN_SEMANTICS)) as [Hk|Hk].
    + rewrite bool_decide_eq_true_2 in Hr by done.
      rewrite decide_False by (intros Hn; by apply Hn).
      by apply IH in Hr.
    + rewrite bool_decide_eq_false_2 in Hr by done.
      rewrite decide_True by done.
      unfold handleError in Hr.
      destruct (any_isinstance _ maskedErrors); [|done|done].
      apply IH in Hr. rewrite Hr, <- app_assoc. reflexivity.
Qed.

(** The second loop on inputs that pass its two checks, under a mask
    that swallows the unsupported-semantic error: it returns a table. *)
Lemma resolve_swallowing localscope new_inputs : ∀ all_inputs errors,
  Forall (admissible localscope) new_inputs →
  any_isinstance DaeUnsupportedError maskedErrors = AnyTrue →
  ∃ table, resolve maskedErrors localscope new_inputs all_inputs errors
           = (inr table,
              errors ++ (unsupported_error <$>
                         filter (λ x, semantic x ∉ _KNOWN_SEMANTICS) new_inputs)).
Proof.
  induction new_inputs as [|x rest IH]; intros all_inputs errors Hadm Hany.
  - exists all_inputs. cbn. by rewrite app_nil_r.
  - apply Forall_cons in Hadm as [[Hm [b Hb]] Hadm]. unfold bound in Hb.
    destruct (localscope !! tail_str (source_ref x)) as [entry|] eqn:Hs; [|done].
    cbn [resolve]. rewrite Hm, Hs, filter_cons.
    destruct (decide (semantic x ∈ _KNOWN_SEMANTICS)) as [Hk|Hk].
    + rewrite bool_decide_eq_true_2 by done.
      rewrite decide_False by (intros Hn; by apply Hn). by apply IH.
    + rewrite bool_decide_eq_false_2 by done. rewrite decide_True by done.
      unfold handleError. cbn [err_kind unsupported_error]. rewrite Hany.
      destruct (IH (bucket_append all_inputs (semantic x) (x, entry))
                  (errors ++ [unsupported_error x]) Hadm Hany) as [table Ht].
      exists table. rewrite Ht, <- app_assoc. reflexivity.
Qed.

(** The same under a mask that does not: the loop stops at the first
    input with an unknown semantic, whose error it has recorded. *)
Lemma resolve_aborting localscope pre y post : ∀ all_inputs errors,
  Forall (admissible localscope) (pre ++ y :: post) →
  Forall (λ x, semantic x ∈ _KNOWN_SEMANTICS) pre →
  semantic y ∉ _KNOWN_SEMANTICS →
  any_isinstance DaeUnsupportedError maskedErrors ≠ AnyTrue →
  resolve maskedErrors localscope (pre ++ y :: post) all_inputs errors
  = (match any_isinstance DaeUnsupportedError maskedErrors with
     | AnyTypeError => inl TypeError
     | _ => inl (DaeExn (unsupported_error y))
     end, errors ++ [unsupported_error y]).
Proof.
  induction pre as [|x pre IH]; intros all_inputs errors Hadm Hpre Hy Hany.
  - cbn [app] in *. apply Forall_cons in Hadm as [[Hm [b Hb]] Hadm]. unfold bound in Hb.
    destruct (localscope !! tail_str (source_ref y)) as [entry|] eqn:Hs; [|done].
    cbn [resolve]. rewrite Hm, Hs. rewrite bool_decide_eq_false_2 by done.
    unfold handleError. cbn [err_kind unsupported_error].
    by destruct (any_isinstance DaeUnsupportedError maskedErrors).
  - cbn [app] in *. apply Forall_cons in Hadm as [[Hm [b Hb]] Hadm]. unfold bound in Hb.
    apply Forall_cons in Hpre as [Hx Hpre].
    destruct (localscope !! tail_str (source_ref x)) as [entry|] eqn:Hs; [|done].
    cbn [resolve]. rewrite Hm, Hs. rewrite bool_decide_eq_true_2 by done.
    by apply IH.
Qed.

(** A list with an element that fails a decidable test splits at the
    first such element. *)
Lemma first_failing {A} (P : A → Prop) `{∀ x, Decision (P x)} (l : list A) x :
  x ∈ l → ¬ P x → ∃ pre y post, l = pre ++ y :: post ∧ Forall P pre ∧ ¬ P y.
Proof.
  induction l as [|a l IH]; intros Hx Hn; [by apply elem_of_nil in Hx|].
  destruct (decide (P a)) as [Ha|Ha].
  - apply elem_of_cons in Hx as [->|Hx]; [done|].
    destruct (IH Hx Hn) as (pre & y & post & -> & Hpre & Hy).
    exists (a :: pre), y, post. split; [done|]. split; [by constructor|done].
  - exists [], a, l. split; [done|]. split; [constructor|done].
Qed.

(** C4, as the code has it: when the resolver returns a table, the list
    the second loop goes through is made of the inputs whose scope entry
    is not a [dict], unchanged and in order, followed by the inputs the
    [VERTEX] inputs that name a [dict] stand for; the table holds one
    binding for each input of that list, in the bucket of its own
    semantic and in no other, the buckets keeping the order of the list;
    an input that names a [dict] under a semantic other than [VERTEX] is
    in neither part: the resolver returns the same table and records the
    same errors with and without it, these errors being one for each
    input of the list with an unrecognised semantic. *)
Theorem resolved_bindings_account_for_inputs (errors : list dae_error)
    (localscope : gmap string scope_entry) (inputs : list raw_input)
    (table : gmap string (list binding)) (errors' : list dae_error) :
  _getInputsFromList maskedErrors errors localscope inputs = (inr table, errors') →
  let kept := filter (λ x, isdict (localscope !! tail_str (source_ref x)) = false) inputs in
  let added := inputs ≫= aliases localscope in
  expand localscope inputs = kept ++ added
  ∧ total_bindings table = length kept + length added
  ∧ (∀ sem, default [] (table !! sem) =
            omap (bound localscope) (filter (λ x, semantic x = sem) (kept ++ added)))
  ∧ (∀ x, x ∈ kept ++ added →
          ∃ b, bound localscope x = Some b
               ∧ b ∈ default [] (table !! semantic x)
               ∧ ∀ sem, b ∈ default [] (table !! sem) → sem = semantic x)
  ∧ (∀ x, x ∈ inputs → isdict (localscope !! tail_str (source_ref x)) = false →
          x ∈ kept)
  ∧ (∀ x, dropped localscope x → (x ∉ kept) ∧ aliases localscope x = [])
  ∧ _getInputsFromList maskedErrors errors localscope
      (filter (λ x, ¬ dropped localscope x) inputs) = (inr table, errors')
  ∧ errors' = errors ++ (unsupported_error <$>
                         filter (λ x, semantic x ∉ _KNOWN_SEMANTICS) (kept ++ added)).
Proof.
  intros Hr kept added.
  pose proof (expand_closed localscope inputs) as Hexp.
  fold kept added in Hexp.
  split; [exact Hexp|].
  pose proof Hr as Hr0. unfold _getInputsFromList in Hr. rewrite Hexp in Hr.
  pose proof (resolve_returns_errors _ _ _ _ _ _ Hr) as Herr.
  apply resolve_returns in Hr as (Ht & Hadm & Hb).
  assert (Hbucket : ∀ sem, default [] (table !! sem) =
            omap (bound localscope) (filter (λ x, semantic x = sem) (kept ++ added))).
  { intros sem. rewrite Hb, initial_inputs_lookup. reflexivity. }
  split. { rewrite Ht, total_bindings_initial, length_app. reflexivity. }
  split; [exact Hbucket|].
  split.
  { intros x Hx. rewrite Forall_forall in Hadm. destruct (Hadm x Hx) as [_ [b Hbx]].
    exists b. split; [exact Hbx|]. split.
    - rewrite Hbucket. apply list_elem_of_omap. exists x. split; [|exact Hbx].
      apply list_elem_of_filter. split; [reflexivity|exact Hx].
    - intros sem Hin. rewrite Hbucket in Hin.
      apply list_elem_of_omap in Hin as (y & Hy & Hby).
      apply list_elem_of_filter in Hy as [Hsem _].
      unfold bound in Hbx, Hby.
      destruct (localscope !! tail_str (source_ref x)); [|done].
      destruct (localscope !! tail_str (source_ref y)); [|done].
      cbn in Hbx, Hby. congruence. }
  split. { intros x Hx Hnd. apply list_elem_of_filter. split; assumption. }
  split.
  { intros x [Hd Hv]. split.
    - intros [Hnd _]%list_elem_of_filter. congruence.
    - unfold aliases.
      destruct (localscope !! tail_str (source_ref x)) as [[s|d]|]; [reflexivity| |reflexivity].
      rewrite bool_decide_eq_false_2 by exact Hv. reflexivity. }
  split; [|exact Herr].
  unfold _getInputsFromList. rewrite expand_without_dropped. exact Hr0.
Qed.

(** C3, as the code has it, for an input with an unrecognised semantic
    in a list whose inputs, once through the first loop, pass the source
    checks.  When the source of the input names a [dict] of the scope the
    first loop drops it: the resolver does what it does without it.
    Otherwise the input reaches the second loop, and: under a mask that
    swallows the unsupported-feature kind the resolver returns the table,
    having recorded one unsupported-semantic error for each input with an
    unrecognised semantic, and the input is in the bucket of its own
    semantic; under any other mask the resolver stops at the first
    input with an unrecognised semantic, whose error it has recorded: it
    raises that error when no mask entry matches, and [TypeError] when
    [isinstance] meets [None] in the mask. *)
Theorem unsupported_semantic_follows_mask (errors : list dae_error)
    (localscope : gmap string scope_entry) (inputs : list raw_input) (x : raw_input) :
  let new_inputs := expand localscope inputs in
  let unknown := λ y : raw_input, semantic y ∉ _KNOWN_SEMANTICS in
  Forall (admissible localscope) new_inputs →
  x ∈ inputs →
  unknown x →
  let r := _getInputsFromList maskedErrors errors localscope inputs in
  (isdict (localscope !! tail_str (source_ref x)) = true →
   dropped localscope x
   ∧ r = _getInputsFromList maskedErrors errors localscope
           (filter (λ z, ¬ dropped localscope z) inputs))
  ∧ (isdict (localscope !! tail_str (source_ref x)) = false →
     x ∈ new_inputs
     ∧ (any_isinstance DaeUnsupportedError maskedErrors = AnyTrue →
        r.2 = errors ++ (unsupported_error <$> filter unknown new_inputs)
        ∧ unsupported_error x ∈ r.2
        ∧ ∃ table b, r.1 = inr table ∧ bound localscope x = Some b
                     ∧ b ∈ default [] (table !! semantic x))
     ∧ (any_isinstance DaeUnsupportedError maskedErrors ≠ AnyTrue →
        ∃ pre y post,
          new_inputs = pre ++ y :: post
          ∧ Forall (λ z, semantic z ∈ _KNOWN_SEMANTICS) pre
          ∧ unknown y
          ∧ r.2 = errors ++ [unsupported_error y]
          ∧ r.1 = match any_isinstance DaeUnsupportedError maskedErrors with
                  | AnyTypeError => inl TypeError
                  | _ => inl (DaeExn (unsupported_error y))
                  end)).
Proof.
  intros new_inputs unknown Hadm Hx Hu r. split.
  { intros Hd. split.
    - split; [exact Hd|]. intros Hv. apply Hu. rewrite Hv.
      apply (bool_decide_unpack _). vm_compute. exact I.
    - subst r. unfold _getInputsFromList. by rewrite expand_without_dropped. }
  intros Hnd.
  assert (Hin : x ∈ new_inputs).
  { subst new_inputs. rewrite expand_closed. apply elem_of_app. left.
    apply list_elem_of_filter. split; assumption. }
  split; [exact Hin|]. split.
  - intros Hany.
    destruct (resolve_swallowing localscope new_inputs initial_inputs errors Hadm Hany)
      as [table Ht].
    assert (Hr : r = (inr table,
                      errors ++ (unsupported_error <$> filter unknown new_inputs)))
      by exact Ht.
    rewrite Hr. cbn [fst snd]. split; [reflexivity|]. split.
    { apply elem_of_app. right. apply list_elem_of_fmap. exists x. split; [reflexivity|].
      apply list_elem_of_filter. split; assumption. }
    apply resolve_returns in Ht as (_ & Hall & Hb).
    rewrite Forall_forall in Hall. destruct (Hall x Hin) as [_ [b Hbx]].
    exists table, b. split; [reflexivity|]. split; [exact Hbx|].
    rewrite Hb, initial_inputs_lookup. cbn [app].
    apply list_elem_of_omap. exists x. split; [|exact Hbx].
    apply list_elem_of_filter. split; [reflexivity|assumption].
  - intros Hany.
    destruct (first_failing (λ z, semantic z ∈ _KNOWN_SEMANTICS) new_inputs x Hin Hu)
      as (pre & y & post & Hsplit & Hpre & Hy).
    exists pre, y, post. split; [exact Hsplit|]. split; [exact Hpre|]. split; [exact Hy|].
    assert (Hr : r = (match any_isinstance DaeUnsupportedError maskedErrors with
                      | AnyTypeError => inl TypeError
                      | _ => inl (DaeExn (unsupported_error y))
                      end, errors ++ [unsupported_error y])).
    { subst r. unfold _getInputsFromList. fold new_inputs.
      rewrite Hsplit in Hadm |- *. by apply resolve_aborting. }
    rewrite Hr. split; reflexivity.
Qed.

End PrimitiveFacts.

Section PrimitiveExamples.
Import Errors Primitive.

(** C3 as stated fails: with nothing masked, an input with the unknown
    semantic [FOO] makes the resolver raise the unsupported-semantic
    error. *)
Lemma unsupported_semantic_aborts_unmasked :
  let input := MkInput 0 "FOO" "#positions" None in
  _getInputsFromList [] [] sample_scope [input]
  = (inl (DaeExn (unsupported_error input)), [unsupported_error input]).
Proof. vm_compute. reflexivity. Qed.

Lemma unsupported_semantic_follows_mask_witness :
  let input := MkInput 0 "FOO" "#positions" None in
  let r := _getInputsFromList [MKind DaeUnsupportedError] [] sample_scope [input] in
  r.2 = [unsupported_error input]
  ∧ unsupported_error input ∈ r.2
  ∧ ∃ table b, r.1 = inr table ∧ bound sample_scope input = Some b
               ∧ b ∈ default [] (table !! "FOO").
Proof.
  intros input r.
  refine (proj1 (proj2 (proj2 (unsupported_semantic_follows_mask
                                 [MKind DaeUnsupportedError] [] sample_scope [input] input
                                 _ _ _) _)) eq_refl).
  - change (expand sample_scope [input]) with [input].
    constructor; [|constructor].
    split; [vm_compute; reflexivity|eexists; vm_compute; reflexivity].
  - left.
  - vm_compute. intros H. repeat (apply elem_of_cons in H as [H|H]; [discriminate H|]).
    by apply elem_of_nil in H.
  - vm_compute. reflexivity.
Defined.

Lemma resolved_bindings_account_for_inputs_witness :
  let inputs := [MkInput 0 "VERTEX" "#bundle" None; MkInput 1 "FOO" "#normals" None;
                 MkInput 2 "NORMAL" "#bundle" None] in
  match (_getInputsFromList [MKind DaeError] [] sample_scope inputs).1 with
  | inr table => total_bindings table = 1 + 2
  | inl _ => False
  end.
Proof.
  intros inputs.
  destruct (_getInputsFromList [MKind DaeError] [] sample_scope inputs)
    as [[e|table] errors'] eqn:Hr; cbn [fst].
  - assert (Hret : returned (_getInputsFromList [MKind DaeError] [] sample_scope inputs).1
                   = true) by (vm_compute; reflexivity).
    rewrite Hr in Hret. discriminate Hret.
  - exact (proj1 (proj2 (resolved_bindings_account_for_inputs [MKind DaeError] []
                           sample_scope inputs table errors' Hr))).
Defined.

(** C4 as stated fails: an input that names the alias under the
    semantic [NORMAL] is neither kept nor expanded by the first loop; the
    resolver returns a table without any binding and records no error. *)
Lemma dict_reference_under_other_semantic_dropped :
  let inputs := [MkInput 0 "NORMAL" "#bundle" None] in
  length inputs = 1
  ∧ expand sample_scope inputs = []
  ∧ match _getInputsFromList [] [] sample_scope inputs with
    | (inr table, errors') => total_bindings table = 0 ∧ errors' = []
    | (inl _, _) => False
    end.
Proof. vm_compute. repeat split; reflexivity. Qed.

End PrimitiveExamples.

(** ** The node graph resolver *)

Section NodeFacts.
Import Errors Tree ElementTree Nodes.
Variable loadNode : IndexedList.indexed_list → xmlnode → load_outcome.
Variable maskedErrors : list mask_entry.

(** What one pass that does not raise leaves: the nodes it deferred, each
    with the message of its deferral; fewer of them than it tried when it
    loaded a node; the collection untouched when it loaded none. *)
Lemma pass_returns todo : ∀ st st',
  pass loadNode maskedErrors st todo = (None, st') →
  ∃ deferred,
    tried_loading st' = tried_loading st ++ deferred
    ∧ (length deferred ≤ length todo)%nat
    ∧ (succeeded st = true → succeeded st' = true)
    ∧ (succeeded st = false → succeeded st' = true →
       (length deferred < length todo)%nat)
    ∧ (succeeded st' = false →
       nodes st' = nodes st
       ∧ Forall (λ p, loadNode (nodes st) p.1 = NotLoaded p.2) deferred)
    ∧ (∀ x, x ∈ todo → never_resolves loadNode x → x ∈ deferred.*1).
Proof.
  induction todo as [|node rest IH]; intros st st' Hp.
  - cbn in Hp. injection Hp as <-. exists []. rewrite app_nil_r.
    split; [done|]. split; [cbn; lia|]. split; [done|].
    split; [intros Hs Hs'; congruence|].
    split; [intros _; split; [done|constructor]|].
    intros x Hx. by apply elem_of_nil in Hx.
  - cbn [pass] in Hp.
    destruct (try_node loadNode maskedErrors st node) as [[e|] st1] eqn:Ht; [done|].
    apply IH in Hp as (deferred & H1 & H2 & H3 & H4 & H5 & H6).
    assert (Hnever : ∀ x, x ∈ node :: rest → never_resolves loadNode x →
                          (∃ m, loadNode (nodes st) node = NotLoaded m) ∨ x ∈ deferred.*1).
    { intros x [->|Hx]%elem_of_cons Hn; [left; apply Hn|right; by apply H6]. }
    unfold try_node in Ht.
    destruct (loadNode (nodes st) node) as [[N|]|msg|ex] eqn:Hl.
    + injection Ht as <-. cbn in *. exists deferred.
      split; [done|]. split; [lia|]. split; [auto|].
      split; [intros _ _; lia|].
      split; [intros Hf; rewrite H3 in Hf; done|].
      intros x Hx Hn. destruct (Hnever x Hx Hn) as [[m Hm]|?]; [done|done].
    + injection Ht as <-. exists deferred.
      split; [done|]. split; [cbn; lia|]. split; [done|].
      split; [intros Hs Hs'; specialize (H4 Hs Hs'); cbn; lia|].
      split; [done|].
      intros x Hx Hn. destruct (Hnever x Hx Hn) as [[m Hm]|?]; [done|done].
    + injection Ht as <-. cbn in *. exists ((node, msg) :: deferred).
      split; [by rewrite H1, <- app_assoc|]. split; [cbn; lia|]. split; [done|].
      split; [intros Hs Hs'; specialize (H4 Hs Hs'); cbn; lia|].
      split.
      * intros Hf. destruct (H5 Hf) as [Hn Hall]. split; [done|].
        constructor; [done|done].
      * intros x [->|Hx]%elem_of_cons Hn; [left|right; by apply H6].
    + destruct (handleError (errors st) maskedErrors ex) as [errors1 []];
        [|done|done].
      injection Ht as <-. cbn in *. exists deferred.
      split; [done|]. split; [lia|]. split; [done|].
      split; [intros Hs Hs'; specialize (H4 Hs Hs'); lia|].
      split; [done|].
      intros x Hx Hn. destruct (Hnever x Hx Hn) as [[m Hm]|?]; [done|done].
Qed.

(** With the failures masked a pass does not raise. *)
Lemma pass_does_not_raise todo : ∀ st,
  failures_masked loadNode maskedErrors →
  (pass loadNode maskedErrors st todo).1 = None.
Proof.
  intros st Hmask. revert st. induction todo as [|node rest IH]; intros st; [done|].
  cbn [pass]. unfold try_node.
  destruct (loadNode (nodes st) node) as [[N|]|msg|ex] eqn:Hl; try apply IH.
  unfold handleError. rewrite (Hmask _ _ _ Hl). apply IH.
Qed.

Lemma retry_without_progress fuel st :
  succeeded st = false → retry loadNode maskedErrors fuel st = (None, st).
Proof.
  intros Hs. destruct fuel; [done|]. cbn [retry]. rewrite Hs.
  by rewrite andb_false_r.
Qed.

(** The [while] loop, when it does not raise: it stops with nothing left
    to try or after a pass that loaded nothing; the nodes it leaves are
    those the last pass deferred, against the collection as it stands; a
    node that never resolves is among them. *)
Lemma retry_returns fuel : ∀ st st',
  (length (tried_loading st) ≤ fuel)%nat →
  (succeeded st = false →
   Forall (λ p, loadNode (nodes st) p.1 = NotLoaded p.2) (tried_loading st)) →
  retry loadNode maskedErrors fuel st = (None, st') →
  (tried_loading st' = [] ∨ succeeded st' = false)
  ∧ (succeeded st' = false →
     Forall (λ p, loadNode (nodes st') p.1 = NotLoaded p.2) (tried_loading st'))
  ∧ (∀ x, x ∈ (tried_loading st).*1 → never_resolves loadNode x →
          x ∈ (tried_loading st').*1).
Proof.
  induction fuel as [|fuel IH]; intros st st' Hlen Hpre Hr.
  - cbn in Hr. injection Hr as <-.
    destruct (tried_loading st) eqn:Htl; [|cbn in Hlen; lia].
    split; [by left|]. split; [by intros _|]. by intros x ?%elem_of_nil.
  - cbn [retry] in Hr.
    destruct (bool_decide (0 < length (tried_loading st))%nat && succeeded st) eqn:Hcond.
    + apply andb_true_iff in Hcond as [_ Hsucc].
      destruct (pass loadNode maskedErrors (MkPass [] false (nodes st) (errors st))
                  (tried_loading st).*1) as [[e|] st1] eqn:Hp; [done|].
      apply pass_returns in Hp as (deferred & H1 & H2 & H3 & H4 & H5 & H6).
      cbn [tried_loading succeeded nodes app] in H1, H2, H3, H4, H5.
      rewrite length_fmap in H2, H4.
      destruct (succeeded st1) eqn:Hs1.
      * specialize (H4 eq_refl eq_refl).
        apply IH in Hr as (R1 & R2 & R3).
        -- split; [done|]. split; [done|].
           intros x Hx Hn. apply R3; [|done]. rewrite H1. by apply H6.
        -- rewrite H1. lia.
        -- intros Hf. congruence.
      * rewrite retry_without_progress in Hr by done. injection Hr as <-.
        destruct (H5 eq_refl) as [Hn Hall].
        split; [by right|]. split.
        -- intros _. rewrite H1, Hn. exact Hall.
        -- intros x Hx Hnev. rewrite H1. by apply H6.
    + injection Hr as <-. split.
      * apply andb_false_iff in Hcond as [Hc|Hc]; [left|by right].
        apply bool_decide_eq_false in Hc.
        destruct (tried_loading st); [done|cbn in Hc; lia].
      * split; [done|done].
Qed.

(** The nodes of one library: the load returns with nothing deferred; a
    broken reference is raised for the first node left in a non-empty retry
    set, after a pass that loaded nothing, when every node left is still
    deferred by the collection as it stands; and a library that holds a
    node that never resolves does not return. *)
Lemma load_library_outcome nodes0 errors0 libnode :
  let r := load_library loadNode maskedErrors nodes0 errors0 libnode in
  (r.1 = None → tried_loading r.2 = [])
  ∧ (failures_masked loadNode maskedErrors →
     ∀ e, r.1 = Some e →
       ∃ node msg rest,
         tried_loading r.2 = (node, msg) :: rest
         ∧ e = DaeExn (MkError DaeBrokenRefError msg)
         ∧ succeeded r.2 = false
         ∧ Forall (λ p, loadNode (nodes r.2) p.1 = NotLoaded p.2) (tried_loading r.2))
  ∧ (∀ x, x ∈ findall "node" (xchildren libnode) → never_resolves loadNode x →
          is_Some r.1).
Proof.
  intros r. subst r. unfold load_library, resolve_nodes.
  destruct (pass loadNode maskedErrors (MkPass [] false nodes0 errors0)
              (findall "node" (xchildren libnode))) as [[e|] st] eqn:Hp.
  { cbn [fst snd]. split; [done|]. split; [|by intros; eexists].
    intros Hmask. pose proof (pass_does_not_raise
      (findall "node" (xchildren libnode)) (MkPass [] false nodes0 errors0) Hmask) as Hn.
    rewrite Hp in Hn. done. }
  apply pass_returns in Hp as (deferred & H1 & H2 & H3 & H4 & H5 & H6).
  cbn [tried_loading succeeded nodes app] in H1, H5.
  destruct (retry loadNode maskedErrors (S (length (tried_loading st))) st)
    as [[e|] st'] eqn:Hr.
  { cbn [fst snd]. split; [done|]. split; [|by intros; eexists].
    intros Hmask. exfalso. clear -Hr Hmask.
    remember (S (length (tried_loading st))) as fuel eqn:Hf. clear Hf.
    revert st Hr. induction fuel as [|fuel IH]; intros st Hr; [done|].
    cbn [retry] in Hr. destruct (_ && _); [|done].
    pose proof (pass_does_not_raise (tried_loading st).*1
                  (MkPass [] false (nodes st) (errors st)) Hmask) as Hn.
    destruct (pass _ _ _ _) as [[e'|] st1]; [done|]. by eapply IH. }
  apply retry_returns in Hr as (R1 & R2 & R3); [|lia|].
  2:{ intros Hf. destruct (H5 Hf) as [Hn Hall]. by rewrite H1, <- Hn in *. }
  destruct (tried_loading st') as [|[node msg] rest] eqn:Htl.
  - cbn [fst snd]. split; [done|]. split; [by intros|].
    intros x Hx Hn. exfalso.
    assert (x ∈ ([] : list (xmlnode * string)).*1) as Hin.
    { apply R3; [|done]. rewrite H1. by apply H6. }
    by apply elem_of_nil in Hin.
  - cbn [fst snd]. split; [done|]. split; [|by intros; eexists].
    intros _ e [= <-]. exists node, msg, rest.
    destruct R1 as [R1|R1]; [done|].
    split; [done|]. split; [done|]. split; [done|]. rewrite Htl. by apply R2.
Qed.

End NodeFacts.

Section NodeExamples.
Import Errors Tree ElementTree Nodes.

Lemma reference_loadNode_ready ns node :
  Forall (λ r, IndexedList.__contains__ ns r = true) (node_refs node) →
  reference_loadNode ns node
  = Loaded (Some (PyObj (xref node) (default "" (node_get node "id")) node)).
Proof.
  intros Hall. unfold reference_loadNode.
  destruct (List.find _ _) as [r|] eqn:Hf; [|done].
  apply List.find_some in Hf as [Hin Hr]. rewrite Forall_forall in Hall.
  rewrite (Hall r) in Hr; [done|]. by apply list_elem_of_In.
Qed.

Lemma reference_loadNode_waits ns ref node_id r refs :
  IndexedList.__contains__ ns r = false →
  reference_loadNode ns (node_element ref node_id (r :: refs))
  = NotLoaded ("Node " +:+ r +:+ " not loaded").
Proof.
  intros Hr. unfold reference_loadNode.
  change (node_refs (node_element ref node_id (r :: refs)))
    with (r :: node_refs (node_element ref node_id refs)).
  cbn [List.find]. by rewrite Hr.
Qed.

Lemma contains_appended ns obj :
  IndexedList.__contains__ (IndexedList.append ns obj) (oid obj) = true.
Proof.
  unfold IndexedList.__contains__, IndexedList.append, IndexedList._addindex.
  cbn [IndexedList.il_index]. rewrite lookup_insert_eq. by apply bool_decide_eq_true_2.
Qed.

(** A library in which node A instantiates node B and is listed before
    it: the first pass defers A and loads B, the second loads A. *)
Lemma forward_reference_resolves (maskedErrors : list mask_entry)
    (errors0 : list dae_error) (ra rb : nat) (a b : string) :
  let A := node_element ra a [b] in
  let B := node_element rb b [] in
  let libnode := XmlNode 0 "library_nodes" [] [A; B] in
  let r := load_library reference_loadNode maskedErrors (IndexedList.__init__ [])
             errors0 libnode in
  r.1 = None
  ∧ IndexedList.il_items (nodes r.2) = [PyObj rb b B; PyObj ra a A]
  ∧ tried_loading r.2 = []
  ∧ errors r.2 = errors0.
Proof.
  intros A B libnode r.
  assert (Hr : r = (None, MkPass [] true
                      (IndexedList.append
                         (IndexedList.append (IndexedList.__init__ []) (PyObj rb b B))
                         (PyObj ra a A))
                      errors0)); [|by rewrite Hr].
  subst r. unfold load_library, resolve_nodes.
  change (findall "node" (xchildren libnode)) with [A; B].
  cbn [pass]. unfold try_node at 1. cbn [nodes].
  rewrite (reference_loadNode_waits _ ra a b []) by done.
  unfold try_node at 1. cbn [nodes].
  rewrite (reference_loadNode_ready _ B) by constructor.
  cbn [tried_loading succeeded nodes errors app length].
  cbn [retry]. cbn [tried_loading succeeded nodes errors length fmap list_fmap fst].
  rewrite bool_decide_eq_true_2 by lia. cbn [andb pass].
  unfold try_node at 1. cbn [nodes].
  change (default "" (node_get B "id")) with b.
  rewrite (reference_loadNode_ready _ A).
  2:{ change (node_refs A) with [b]. constructor; [|constructor].
      apply (contains_appended _ (PyObj rb b B)). }
  cbn [tried_loading succeeded nodes errors length].
  rewrite bool_decide_eq_false_2 by (cbn; lia). cbn [andb].
  reflexivity.
Qed.

Lemma contains_other ns obj key :
  key ≠ oid obj →
  IndexedList.__contains__ (IndexedList.append ns obj) key
  = IndexedList.__contains__ ns key.
Proof.
  intros Hne. unfold IndexedList.__contains__, IndexedList.append, IndexedList._addindex.
  cbn [IndexedList.il_index]. by rewrite lookup_insert_ne.
Qed.

(** A library in which node X instantiates a node that is nowhere: the
    first pass defers X and goes on to load B; the second pass loads
    nothing, and only then is the broken reference raised. *)
Lemma missing_reference_raises_at_fixpoint (maskedErrors : list mask_entry)
    (errors0 : list dae_error) (rx rb : nat) (x b missing : string) :
  missing ≠ b →
  let X := node_element rx x [missing] in
  let B := node_element rb b [] in
  let libnode := XmlNode 0 "library_nodes" [] [X; B] in
  let r := load_library reference_loadNode maskedErrors (IndexedList.__init__ [])
             errors0 libnode in
  r.1 = Some (DaeExn (MkError DaeBrokenRefError ("Node " +:+ missing +:+ " not loaded")))
  ∧ IndexedList.il_items (nodes r.2) = [PyObj rb b B]
  ∧ succeeded r.2 = false.
Proof.
  intros Hne X B libnode r.
  assert (Hr : r = (Some (DaeExn (MkError DaeBrokenRefError
                                    ("Node " +:+ missing +:+ " not loaded"))),
                    MkPass [(X, "Node " +:+ missing +:+ " not loaded")] false
                      (IndexedList.append (IndexedList.__init__ []) (PyObj rb b B))
                      errors0)); [|by rewrite Hr].
  subst r. unfold load_library, resolve_nodes.
  change (findall "node" (xchildren libnode)) with [X; B].
  cbn [pass]. unfold try_node at 1. cbn [nodes].
  rewrite (reference_loadNode_waits _ rx x missing []) by done.
  unfold try_node at 1. cbn [nodes].
  rewrite (reference_loadNode_ready _ B) by constructor.
  cbn [tried_loading succeeded nodes errors app length].
  cbn [retry]. cbn [tried_loading succeeded nodes errors length fmap list_fmap fst].
  rewrite bool_decide_eq_true_2 by lia. cbn [andb pass].
  unfold try_node at 1. cbn [nodes].
  change (default "" (node_get B "id")) with b.
  rewrite (reference_loadNode_waits _ rx x missing []).
  2:{ by rewrite (contains_other _ (PyObj rb b B)). }
  cbn [tried_loading succeeded nodes errors app length].
  rewrite andb_false_r.
  reflexivity.
Qed.

(** C5: the nodes of a library are tried over and over as long as a
    pass loads one.  The load returns with no node left deferred; a library
    that holds a node whose reference never resolves does not return; the
    broken reference is raised for the first node of a non-empty retry set
    after a pass that loaded nothing, every node left being deferred again
    by the collection as it stands, and not before the other nodes of the
    library have been tried; a node listed before the node it references
    is loaded by the second pass. *)
Theorem node_library_retried_to_fixpoint
    (loadNode : IndexedList.indexed_list → xmlnode → load_outcome)
    (maskedErrors : list mask_entry) (nodes0 : IndexedList.indexed_list)
    (errors0 : list dae_error) (libnode : xmlnode) :
  let r := load_library loadNode maskedErrors nodes0 errors0 libnode in
  (r.1 = None → tried_loading r.2 = [])
  ∧ (failures_masked loadNode maskedErrors →
     ∀ e, r.1 = Some e →
       ∃ node msg rest,
         tried_loading r.2 = (node, msg) :: rest
         ∧ e = DaeExn (MkError DaeBrokenRefError msg)
         ∧ succeeded r.2 = false
         ∧ Forall (λ p, loadNode (nodes r.2) p.1 = NotLoaded p.2) (tried_loading r.2))
  ∧ (∀ x, x ∈ findall "node" (xchildren libnode) → never_resolves loadNode x →
          is_Some r.1)
  ∧ (∀ ra rb a b,
       let A := node_element ra a [b] in
       let B := node_element rb b [] in
       let fwd := load_library reference_loadNode maskedErrors (IndexedList.__init__ [])
                    errors0 (XmlNode 0 "library_nodes" [] [A; B]) in
       fwd.1 = None
       ∧ IndexedList.il_items (nodes fwd.2) = [PyObj rb b B; PyObj ra a A])
  ∧ (∀ rx rb x b missing,
       missing ≠ b →
       let X := node_element rx x [missing] in
       let B := node_element rb b [] in
       let brk := load_library reference_loadNode maskedErrors (IndexedList.__init__ [])
                    errors0 (XmlNode 0 "library_nodes" [] [X; B]) in
       brk.1 = Some (DaeExn (MkError DaeBrokenRefError
                               ("Node " +:+ missing +:+ " not loaded")))
       ∧ IndexedList.il_items (nodes brk.2) = [PyObj rb b B]).
Proof.
  intros r.
  destruct (load_library_outcome loadNode maskedErrors nodes0 errors0 libnode)
    as (H1 & H2 & H3).
  split; [exact H1|]. split; [exact H2|]. split; [exact H3|]. split.
  - intros ra rb a b A B fwd.
    destruct (forward_reference_resolves maskedErrors errors0 ra rb a b)
      as (F1 & F2 & _). by split.
  - intros rx rb x b missing Hne X B brk.
    destruct (missing_reference_raises_at_fixpoint maskedErrors errors0 rx rb x b missing Hne)
      as (F1 & F2 & _). by split.
Qed.

Lemma node_library_retried_to_fixpoint_witness :
  let loadNode := λ (_ : IndexedList.indexed_list) (_ : xmlnode), NotLoaded "not loaded" in
  let X := node_element 1 "x" ["y"] in
  let r := load_library loadNode [] (IndexedList.__init__ []) []
             (XmlNode 0 "library_nodes" [] [X]) in
  r.1 = Some (DaeExn (MkError DaeBrokenRefError "not loaded"))
  ∧ is_Some r.1.
Proof.
  intros loadNode X r.
  destruct (node_library_retried_to_fixpoint loadNode [] (IndexedList.__init__ []) []
              (XmlNode 0 "library_nodes" [] [X])) as (_ & H2 & H3 & _).
  split.
  - reflexivity.
  - apply (H3 X).
    + vm_compute. left.
    + intros ns. exists "not loaded". reflexivity.
Defined.

End NodeExamples.

(** ** The element tree under the updates of [save] *)

Section ElementTreeFacts.
Import Tree ElementTree.

Lemma find_head_findall name children :
  find name children = head (findall name children).
Proof.
  unfold find, findall. induction children as [|n rest IH]; [done|].
  cbn [List.find]. rewrite filter_cons. case_bool_decide as Ht.
  - by rewrite decide_True.
  - by rewrite decide_False.
Qed.

Lemma find_tag name children node :
  find name children = Some node → xtag node = name.
Proof.
  unfold find. intros Hf. apply List.find_some in Hf as [_ Hf].
  by apply bool_decide_eq_true in Hf.
Qed.

Lemma findall_insert name i x children :
  findall name (insert i x children) =
    take (length (findall name (take i children))) (findall name children)
    ++ (if bool_decide (xtag x = name) then [x] else [])
    ++ drop (length (findall name (take i children))) (findall name children).
Proof.
  unfold findall, insert.
  rewrite filter_app, filter_cons.
  rewrite <- (take_drop i children) at 3 5.
  rewrite filter_app. rewrite take_app_length, drop_app_length.
  case_bool_decide as Ht; [by rewrite decide_True|by rewrite decide_False].
Qed.

Lemma findall_insert_other name i x children :
  xtag x ≠ name → findall name (insert i x children) = findall name children.
Proof.
  intros Hne. rewrite findall_insert, bool_decide_eq_false_2 by done.
  cbn [app]. apply take_drop.
Qed.

Lemma findall_insert_new name i x children :
  xtag x = name → findall name children = [] →
  findall name (insert i x children) = [x].
Proof.
  intros Ht Hnone. rewrite findall_insert, Hnone, bool_decide_eq_true_2 by done.
  by rewrite take_nil, drop_nil.
Qed.

Lemma findall_remove_found_other name t children :
  t ≠ name → findall t (remove_found name children) = findall t children.
Proof.
  intros Hne. unfold findall. induction children as [|n rest IH]; [done|].
  cbn [remove_found]. case_bool_decide as Ht.
  - rewrite filter_cons, decide_False; [done|congruence].
  - rewrite !filter_cons. by rewrite IH.
Qed.

Lemma findall_remove_found name children :
  findall name (remove_found name children) = tail (findall name children).
Proof.
  unfold findall. induction children as [|n rest IH]; [done|].
  cbn [remove_found]. case_bool_decide as Ht.
  - by rewrite (filter_cons _ n), decide_True.
  - rewrite !filter_cons, !decide_False by done. exact IH.
Qed.

Lemma findall_replace_first_other name t node' children :
  t ≠ name → xtag node' = name →
  findall t (replace_first name node' children) = findall t children.
Proof.
  intros Hne Ht'. unfold findall. induction children as [|n rest IH]; [done|].
  cbn [replace_first]. case_bool_decide as Ht.
  - rewrite !filter_cons, !decide_False; [done|congruence|congruence].
  - rewrite !filter_cons. by rewrite IH.
Qed.

Lemma findall_replace_first name node' children :
  xtag node' = name →
  findall name (replace_first name node' children) =
    match findall name children with
    | [] => []
    | _ :: others => node' :: others
    end.
Proof.
  intros Ht'. unfold findall. induction children as [|n rest IH]; [done|].
  cbn [replace_first]. case_bool_decide as Ht.
  - by rewrite !filter_cons, !decide_True.
  - rewrite !filter_cons, !decide_False by done. exact IH.
Qed.

Lemma findall_nil_find name children :
  find name children = None → findall name children = [].
Proof. rewrite find_head_findall. by destruct (findall name children). Qed.

Lemma elem_in_spec x seq :
  elem_in x seq = true ↔ ∃ n, n ∈ seq ∧ xref n = xref x.
Proof.
  unfold elem_in. rewrite existsb_exists. split.
  - intros (n & Hin & Hn). exists n. split; [by apply list_elem_of_In|].
    by apply bool_decide_eq_true in Hn.
  - intros (n & Hin & Hn). exists n. split; [by apply list_elem_of_In|].
    by apply bool_decide_eq_true.
Qed.

Lemma elem_in_same_ref x y seq : xref x = xref y → elem_in x seq = elem_in y seq.
Proof. intros Hxy. unfold elem_in. by rewrite Hxy. Qed.

Lemma thinned_refl {A} (Q : A → Prop) l : thinned Q l l.
Proof. induction l; by constructor. Qed.

Lemma thinned_trans {A} (Q : A → Prop) l1 l2 l3 :
  thinned Q l1 l2 → thinned Q l2 l3 → thinned Q l1 l3.
Proof.
  intros H12. revert l3. induction H12 as [|x l l' _ IH|x l l' Hq _ IH]; intros l3 H23.
  - done.
  - inversion H23; subst.
    + constructor. by apply IH.
    + by apply thinned_drop; [|apply IH].
  - apply thinned_drop; [done|]. by apply IH.
Qed.

Lemma thinned_elem {A} (Q : A → Prop) l l' x : thinned Q l l' → x ∈ l' → x ∈ l.
Proof.
  induction 1 as [|y l l' _ IH|y l l' _ _ IH]; [done| |].
  - intros [->|Hx]%elem_of_cons; [left|right; by apply IH].
  - intros Hx. right. by apply IH.
Qed.

Lemma thinned_keeps {A} (Q : A → Prop) l l' x :
  thinned Q l l' → x ∈ l → ¬ Q x → x ∈ l'.
Proof.
  induction 1 as [|y l l' _ IH|y l l' Hq _ IH]; [done| |].
  - intros [->|Hx]%elem_of_cons Hn; [left|right; by apply IH].
  - intros [->|Hx]%elem_of_cons Hn; [done|by apply IH].
Qed.

Lemma thinned_filter {A} (Q P : A → Prop) `{!∀ x, Decision (P x)} l l' :
  thinned Q l l' → (∀ x, Q x → ¬ P x) → filter P l' = filter P l.
Proof.
  intros Ht Hqp. induction Ht as [|y l l' _ IH|y l l' Hq _ IH]; [done| |].
  - by rewrite !filter_cons, IH.
  - rewrite (filter_cons_False _ y l); [done|by apply Hqp].
Qed.


(** Removing a child removes a child of the same identity. *)
Lemma remove_thinned (Q : xmlnode → Prop) x children :
  (∀ n, xref n = xref x → Q n) → thinned Q children (remove x children).
Proof.
  intros Hq. induction children as [|n rest IH]; [constructor|].
  cbn [remove]. case_bool_decide as Hn.
  - apply thinned_drop; [by apply Hq|apply thinned_refl].
  - by constructor.
Qed.

(** Whatever the tree library, the second loop of a round removes only
    children that are not nodes of the members. *)
Lemma prune_thinned impl keep children :
  thinned (λ n, elem_in n keep = false) children (prune impl keep children).
Proof.
  destruct impl; cbn [prune].
  - unfold prune_prefetched. induction children as [|n rest IH]; [constructor|].
    rewrite filter_cons. case_decide as Hn.
    + by constructor.
    + apply thinned_drop; [|done]. by destruct (elem_in n keep).
  - generalize (length children) at 1. generalize 0%nat. intros i fuel.
    revert i children. induction fuel as [|fuel IH]; intros i children.
    + apply thinned_refl.
    + cbn [prune_by_position]. destruct (children !! i) as [n|]; [|apply thinned_refl].
      destruct (elem_in n keep) eqn:Hn; [apply IH|].
      eapply thinned_trans; [|apply IH].
      apply remove_thinned. intros m Hm. by rewrite (elem_in_same_ref m n).
Qed.

(** With lxml's iteration nothing but nodes of members is left. *)
Lemma prune_prefetched_exact keep children n :
  n ∈ prune Lxml keep children → elem_in n keep = true.
Proof.
  cbn [prune]. unfold prune_prefetched. rewrite list_elem_of_filter. tauto.
Qed.

Lemma prune_keeps impl keep children x :
  elem_in x keep = true → elem_in x children = true →
  elem_in x (prune impl keep children) = true.
Proof.
  intros Hk Hc. apply elem_in_spec in Hc as (n & Hin & Hn).
  apply elem_in_spec. exists n. split; [|done].
  eapply thinned_keeps; [apply prune_thinned|done|].
  cbv beta. rewrite (elem_in_same_ref n x keep Hn), Hk. done.
Qed.

End ElementTreeFacts.

(** ** [Collada.save] *)

Section SaveFacts.
Import Errors Tree ElementTree Document Unmoved.

(** The first loop over a [LazyIndexedList] does not depend on the
    children it extends; it adopts the members it meets, in order. *)
Lemma adopt_lazy_members loader_func ids : ∀ l seen kids,
  adopt_lazy loader_func ids l seen kids =
    let '(e, l', seen', _) := adopt_lazy loader_func ids l [] [] in
    (e, l', seen ++ seen', foldl adopt kids seen').
Proof.
  induction ids as [|obj_id ids IH]; intros l seen kids.
  - cbn. by rewrite app_nil_r.
  - cbn -[LazyIndexedList._load_item].
    destruct (LazyIndexedList._load_item loader_func l obj_id) as [[e|[o|]] l'].
    + by rewrite app_nil_r.
    + rewrite (IH l' (seen ++ [o]) (adopt kids o)).
      rewrite (IH l' [o]).
      destruct (adopt_lazy loader_func ids l' [] []) as [[[e l''] seen'] kids'].
      cbn. by rewrite <- app_assoc.
    + by rewrite app_nil_r.
Qed.

Lemma adopt_lazy_length loader_func ids : ∀ l l' seen kids,
  adopt_lazy loader_func ids l [] [] = (None, l', seen, kids) →
  length seen = length ids.
Proof.
  induction ids as [|obj_id ids IH]; intros l l' seen kids Ha.
  - cbn in Ha. by injection Ha as _ <- _.
  - cbn -[LazyIndexedList._load_item] in Ha.
    destruct (LazyIndexedList._load_item loader_func l obj_id) as [[e|[o|]] l1];
      [done| |done].
    rewrite adopt_lazy_members in Ha.
    destruct (adopt_lazy loader_func ids l1 [] []) as [[[e l''] seen'] kids'] eqn:Hrest.
    injection Ha as -> _ <- _. apply IH in Hrest. cbn. by rewrite Hrest.
Qed.

(** The iteration on its own meets the members the first loop meets. *)
Lemma iterate_adopt_lazy loader_func ids : ∀ l seen kids,
  iterate loader_func ids l seen =
    let '(e, l', seen', _) := adopt_lazy loader_func ids l seen kids in (e, l', seen').
Proof.
  induction ids as [|obj_id ids IH]; intros l seen kids; [done|].
  cbn -[LazyIndexedList._load_item].
  destruct (LazyIndexedList._load_item loader_func l obj_id) as [[e|[o|]] l'];
    [done|apply IH|done].
Qed.

(** The first loop of a round over a collection whose iteration runs
    to its end. *)
Lemma adopt_all_members arr members kids :
  coll_members arr = Some members →
  ∃ arr', adopt_all arr kids = (None, arr', members, foldl adopt kids members)
          ∧ coll_len arr = length members.
Proof.
  destruct arr as [l|loader_func l]; cbn -[adopt_lazy iterate].
  - intros [= <-]. by eexists.
  - rewrite (iterate_adopt_lazy _ _ l [] []).
    rewrite (adopt_lazy_members _ _ l [] kids).
    destruct (adopt_lazy loader_func (LazyIndexedList._order l) l [] [])
      as [[[e l'] seen] kids'] eqn:Ha.
    destruct e; [done|]. intros [= <-]. eexists. split; [done|].
    unfold LazyIndexedList.__len__. symmetry. by eapply adopt_lazy_length.
Qed.

Lemma adopt_all_raises arr kids :
  coll_members arr = None → ∃ e, (adopt_all arr kids).1.1.1 = Some e.
Proof.
  destruct arr as [l|loader_func l]; cbn -[adopt_lazy iterate]; [done|].
  rewrite (iterate_adopt_lazy _ _ l [] []).
  rewrite (adopt_lazy_members _ _ l [] kids).
  destruct (adopt_lazy loader_func (LazyIndexedList._order l) l [] [])
    as [[[e l'] seen] kids'] eqn:Ha.
  destruct e; [|done]. intros _. by eexists.
Qed.

Lemma adopt_keeps kids o x : elem_in x kids = true → elem_in x (adopt kids o) = true.
Proof.
  intros Hx. unfold adopt. destruct (elem_in (oxmlnode o) kids); [done|].
  apply elem_in_spec in Hx as (n & Hin & Hn). apply elem_in_spec.
  exists n. split; [|done]. apply elem_of_app. by left.
Qed.

Lemma adopt_adopts kids o : elem_in (oxmlnode o) (adopt kids o) = true.
Proof.
  unfold adopt. destruct (elem_in (oxmlnode o) kids) eqn:Ho; [done|].
  apply elem_in_spec. exists (oxmlnode o). split; [|done].
  apply elem_of_app. right. left.
Qed.

Lemma foldl_adopt_keeps members : ∀ kids x,
  elem_in x kids = true → elem_in x (foldl adopt kids members) = true.
Proof.
  induction members as [|o members IH]; intros kids x Hx; [done|].
  cbn [foldl]. by apply IH, adopt_keeps.
Qed.

(** After the first loop every member's node is a child of the
    container. *)
Lemma foldl_adopt_adopts members : ∀ kids o,
  o ∈ members → elem_in (oxmlnode o) (foldl adopt kids members) = true.
Proof.
  induction members as [|m members IH]; intros kids o Hin; [by apply elem_of_nil in Hin|].
  cbn [foldl]. apply elem_of_cons in Hin as [->|Hin].
  - apply foldl_adopt_keeps, adopt_adopts.
  - by apply IH.
Qed.

(** The first loop adds nothing but nodes of members. *)
Lemma foldl_adopt_origin members : ∀ kids n,
  n ∈ foldl adopt kids members → n ∈ kids ∨ n ∈ oxmlnode <$> members.
Proof.
  induction members as [|m members IH]; intros kids n Hn; [by left|].
  cbn [foldl] in Hn. apply IH in Hn as [Hn|Hn].
  - unfold adopt in Hn. destruct (elem_in (oxmlnode m) kids); [by left|].
    apply elem_of_app in Hn as [Hn|Hn%list_elem_of_singleton]; [by left|].
    right. subst. rewrite fmap_cons. left.
  - right. rewrite fmap_cons. by right.
Qed.

(** The first loop adds nothing when the nodes of the members are
    children already. *)
Lemma foldl_adopt_present members kids :
  (∀ o, o ∈ members → elem_in (oxmlnode o) kids = true) →
  foldl adopt kids members = kids.
Proof.
  induction members as [|m members IH]; intros Hall; [done|].
  cbn [foldl]. unfold adopt at 2. rewrite Hall by left.
  apply IH. intros o Ho. apply Hall. by right.
Qed.

Lemma elem_in_nodes members o :
  o ∈ members → elem_in (oxmlnode o) (oxmlnode <$> members) = true.
Proof.
  intros Ho. apply elem_in_spec. exists (oxmlnode o). split; [|done].
  by apply list_elem_of_fmap_2.
Qed.

(** The children of a synchronised container: the node of every member
    is among them; each of them was a child before or is the node of a
    member; with lxml's iteration each of them is the node of a member. *)
Lemma synced_children impl members kids :
  (∀ o, o ∈ members → elem_in (oxmlnode o) (synced impl members kids) = true)
  ∧ (∀ n, n ∈ synced impl members kids → n ∈ kids ∨ n ∈ oxmlnode <$> members)
  ∧ (impl = Lxml →
     ∀ n, n ∈ synced impl members kids → elem_in n (oxmlnode <$> members) = true).
Proof.
  unfold synced. split; [|split].
  - intros o Ho. apply prune_keeps; [by apply elem_in_nodes|by apply foldl_adopt_adopts].
  - intros n Hn. apply foldl_adopt_origin. eapply thinned_elem; [apply prune_thinned|done].
  - intros -> n Hn. by eapply prune_prefetched_exact.
Qed.

Lemma sync_container_frame impl name arr node children fresh t :
  t ≠ name → xtag node = name →
  findall t (root_children (sync_container impl name arr node children fresh))
  = findall t children.
Proof.
  intros Hne Ht. unfold sync_container.
  destruct (adopt_all arr (xchildren node)) as [[[e arr'] members] kids].
  destruct e; cbn [root_children]; by apply findall_replace_first_other.
Qed.

(** A round leaves the elements with other tags where they are. *)
Lemma save_library_frame impl library_loc children fresh arr name t :
  t ≠ name →
  findall t (root_children (save_library impl library_loc children fresh arr name))
  = findall t children.
Proof.
  intros Hne. unfold save_library.
  destruct (find name children) as [node|] eqn:Hf.
  - case_bool_decide; cbn [root_children].
    + by apply findall_remove_found_other.
    + apply sync_container_frame; [done|by eapply find_tag].
  - case_bool_decide; [done|].
    destruct (find name (insert library_loc _ children)) as [node|] eqn:Hf'.
    + rewrite sync_container_frame; [|done|by eapply find_tag].
      by apply findall_insert_other.
    + cbn [root_children]. by apply findall_insert_other.
Qed.

(** A round over a collection whose iteration runs to its end does not
    raise, and synchronises the first container with that name. *)
Lemma save_library_synced impl library_loc children fresh arr name members :
  coll_members arr = Some members →
  let r := save_library impl library_loc children fresh arr name in
  raised r = None
  ∧ container_synced impl name members
      (findall name children) (findall name (root_children r)).
Proof.
  intros Hm r. subst r. unfold save_library.
  destruct (find name children) as [node|] eqn:Hf.
  - pose proof (find_tag _ _ _ Hf) as Ht.
    rewrite find_head_findall in Hf.
    destruct (findall name children) as [|node' others] eqn:Hall; [done|].
    injection Hf as ->.
    destruct (adopt_all_members arr members (xchildren node) Hm) as (arr' & Ha & Hlen).
    case_bool_decide as Hz.
    + cbn [raised root_children]. split; [done|].
      rewrite findall_remove_found, Hall.
      destruct members; [done|]. cbn in Hlen. lia.
    + unfold sync_container. rewrite Ha. cbn [raised root_children]. split; [done|].
      rewrite findall_replace_first, Hall by done.
      destruct members; [|done]. cbn in Hlen. lia.
  - apply findall_nil_find in Hf as Hall. rewrite Hall.
    case_bool_decide as Hz.
    + cbn [raised root_children]. split; [done|]. rewrite Hall.
      destruct (adopt_all_members arr members [] Hm) as (arr' & _ & Hlen).
      destruct members; [done|]. cbn in Hlen. lia.
    + set (new := XmlNode fresh name [] []).
      assert (Hnew : findall name (insert library_loc new children) = [new])
        by by apply findall_insert_new.
      rewrite find_head_findall, Hnew. cbn [head].
      destruct (adopt_all_members arr members (xchildren new) Hm) as (arr' & Ha & Hlen).
      unfold sync_container. rewrite Ha. cbn [raised root_children]. split; [done|].
      rewrite findall_replace_first, Hnew by done.
      destruct members; [cbn in Hlen; lia|]. by exists fresh.
Qed.

Lemma library_arr_other self lib lib' root fresh arr :
  lib' ≠ lib →
  library_arr (set_library_arr (set_tree self root fresh) lib arr) lib'
  = library_arr self lib'.
Proof. intros Hne. destruct lib, lib'; done. Qed.

Lemma library_name_inj lib lib' : library_name lib = library_name lib' → lib = lib'.
Proof. destruct lib, lib'; done. Qed.

(** The loop over [libraries] leaves the elements with other tags, the
    default scene and the seven eager collections as they are, whether it
    raises or not. *)
Lemma save_libraries_frame impl library_loc : ∀ libs self,
  let r := save_libraries impl library_loc self libs in
  (∀ t, (∀ lib, lib ∈ libs → library_name lib ≠ t) →
        findall t (xchildren (xmlroot r.2)) = findall t (xchildren (xmlroot self)))
  ∧ scene r.2 = scene self
  ∧ scenes r.2 = scenes self
  ∧ validator r.2 = validator self
  ∧ animations r.2 = animations self.
Proof.
  induction libs as [|lib rest IH]; intros self r; [done|].
  subst r. cbn [save_libraries].
  set (r1 := save_library impl library_loc (xchildren (xmlroot self)) (next_ref self)
               (library_arr self lib) (library_name lib)).
  set (self' := set_library_arr _ lib (arr_after r1)).
  assert (Hstep : ∀ t, library_name lib ≠ t →
            findall t (xchildren (xmlroot self')) = findall t (xchildren (xmlroot self))).
  { intros t Hne. subst self' r1. cbn [xmlroot set_library_arr set_tree xchildren with_children].
    by apply save_library_frame. }
  destruct (raised r1) as [e|].
  - cbn [snd]. split; [|done]. intros t Hall. apply Hstep, Hall. left.
  - destruct (IH self') as (I1 & I2 & I3 & I4 & I5).
    split; [|by rewrite I2, I3, I4, I5].
    intros t Hall. rewrite I1.
    + apply Hstep, Hall. left.
    + intros lib' Hin. apply Hall. by right.
Qed.

(** The loop over [libraries] when every collection can be iterated to
    its end: it does not raise, and the containers of each library are
    those its round leaves. *)
Lemma save_libraries_synced impl library_loc : ∀ libs self,
  NoDup libs →
  (∀ lib, lib ∈ libs → is_Some (coll_members (library_arr self lib))) →
  let r := save_libraries impl library_loc self libs in
  r.1 = None
  ∧ ∀ lib members, lib ∈ libs →
      coll_members (library_arr self lib) = Some members →
      container_synced impl (library_name lib) members
        (findall (library_name lib) (xchildren (xmlroot self)))
        (findall (library_name lib) (xchildren (xmlroot r.2))).
Proof.
  induction libs as [|lib rest IH]; intros self Hnd Hall r.
  - split; [done|]. by intros lib members ?%elem_of_nil.
  - apply NoDup_cons in Hnd as [Hnotin Hnd].
    subst r. cbn [save_libraries].
    set (r1 := save_library impl library_loc (xchildren (xmlroot self)) (next_ref self)
                 (library_arr self lib) (library_name lib)).
    set (self' := set_library_arr _ lib (arr_after r1)).
    destruct (Hall lib ltac:(left)) as [members Hm].
    destruct (save_library_synced impl library_loc (xchildren (xmlroot self))
                (next_ref self) _ (library_name lib) members Hm) as [Hr1 Hs1].
    fold r1 in Hr1, Hs1. rewrite Hr1.
    assert (Harr : ∀ lib', lib' ∈ rest → library_arr self' lib' = library_arr self lib').
    { intros lib' Hin. subst self'. apply library_arr_other. by intros ->. }
    destruct (IH self' Hnd) as [I1 I2].
    { intros lib' Hin. rewrite Harr by done. apply Hall. by right. }
    split; [exact I1|].
    pose proof (save_libraries_frame impl library_loc rest self') as (F1 & _).
    intros lib' members' [->|Hin]%elem_of_cons Hm'.
    + rewrite F1.
      * rewrite Hm in Hm'. injection Hm' as <-. exact Hs1.
      * intros lib' Hin Heq. apply library_name_inj in Heq as ->. done.
    + specialize (I2 lib' members' Hin). rewrite Harr in I2 by done.
      specialize (I2 Hm').
      replace (findall (library_name lib') (xchildren (xmlroot self)))
        with (findall (library_name lib') (xchildren (xmlroot self'))); [exact I2|].
      subst self' r1. cbn [xmlroot set_library_arr set_tree xchildren with_children].
      apply save_library_frame. intros Heq. apply library_name_inj in Heq as ->. done.
Qed.

Lemma libraries_nodup : NoDup libraries.
Proof. apply (bool_decide_unpack _). vm_compute. exact I. Qed.

(** The statements on [asset] leave the elements with other tags in
    place. *)
Lemma save_asset_frame self t :
  t ≠ "asset" → xtag (assetInfo_xmlnode self) ≠ t →
  findall t (xchildren (xmlroot (save_asset self).1)) = findall t (xchildren (xmlroot self)).
Proof.
  intros Hne Hasset. unfold save_asset.
  cbn [fst xmlroot set_tree xchildren with_children].
  rewrite findall_insert_other by done.
  destruct (find "asset" _); [|done]. by apply findall_remove_found_other.
Qed.

Lemma save_asset_keeps_found self t :
  t ≠ "asset" →
  is_Some (find t (xchildren (xmlroot self))) →
  is_Some (find t (xchildren (xmlroot (save_asset self).1))).
Proof.
  intros Hne Hf. unfold save_asset.
  cbn [fst xmlroot set_tree xchildren with_children].
  change (insert 0 ?x ?l) with (x :: l).
  match goal with |- context [?x :: ?l] => set (rest := l); set (asset := x) end.
  assert (Hrest : find t rest = find t (xchildren (xmlroot self))).
  { subst rest. destruct (find "asset" _); [|done].
    rewrite !find_head_findall. by rewrite findall_remove_found_other. }
  change (find t (asset :: rest))
    with (if bool_decide (xtag asset = t) then Some asset else find t rest).
  case_bool_decide; [by eexists|by rewrite Hrest].
Qed.

Lemma save_asset_fields self :
  let self1 := (save_asset self).1 in
  scene self1 = scene self ∧ scenes self1 = scenes self
  ∧ ∀ lib, library_arr self1 lib = library_arr self lib.
Proof. split; [done|]. split; [done|]. by intros []. Qed.

(** The statements on [scene] leave the elements with other tags in
    place. *)
Lemma save_scene_frame self t :
  t ≠ "scene" →
  findall t (xchildren (xmlroot (save_scene self).2)) = findall t (xchildren (xmlroot self)).
Proof.
  intros Hne. unfold save_scene.
  destruct (find "scene" (xchildren (xmlroot self))) as [scenenode|] eqn:Hf; [|done].
  pose proof (find_tag _ _ _ Hf) as Ht.
  destruct (scene self) as [s|]; [destruct (negb _)|];
    cbn [snd xmlroot set_tree xchildren with_children];
    by apply findall_replace_first_other.
Qed.


(** [save], when every collection can be iterated to its end, leaves
    the containers of each of its nine libraries synchronised with the
    collection. *)
Lemma save_synced impl self lib members :
  xtag (assetInfo_xmlnode self) = "asset" →
  (∀ lib', is_Some (coll_members (library_arr self lib'))) →
  coll_members (library_arr self lib) = Some members →
  container_synced impl (library_name lib) members
    (findall (library_name lib) (xchildren (xmlroot self)))
    (findall (library_name lib) (xchildren (xmlroot (save impl self).2))).
Proof.
  intros Hasset Hall Hm. unfold save.
  assert (Hname : library_name lib ≠ "asset" ∧ library_name lib ≠ "scene")
    by (destruct lib; split; discriminate).
  destruct Hname as [Hna Hns].
  pose proof (save_asset_frame self (library_name lib) Hna) as H1.
  rewrite Hasset in H1. specialize (H1 (λ H, Hna (eq_sym H))).
  destruct (save_asset_fields self) as (_ & _ & Harr).
  destruct (save_asset self) as [self1 library_loc]. cbn [fst] in H1, Harr.
  destruct (save_libraries_synced impl library_loc libraries self1 libraries_nodup)
    as [H2 H3].
  { intros lib' _. rewrite Harr. apply Hall. }
  specialize (H3 lib members). rewrite Harr, H1 in H3.
  assert (Hin : lib ∈ libraries).
  { destruct lib; apply (bool_decide_unpack _); vm_compute; exact I. }
  specialize (H3 Hin Hm).
  destruct (save_libraries impl library_loc self1 libraries) as [[e|] self2];
    cbn [fst snd] in *; [done|].
  pose proof (save_scene_frame self2 (library_name lib) Hns) as H4.
  destruct (save_scene self2) as [[e|] self3]; cbn [snd] in *; rewrite H4; exact H3.
Qed.

End SaveFacts.

(** ** Elements that [append] takes from another place *)

Section TreeMoveFacts.
Import Tree ElementTree.

(** Induction over an element and what is below it. *)
Lemma xmlnode_below_ind (P : xmlnode → Prop) :
  (∀ ref tag attrib children,
     Forall P children → P (XmlNode ref tag attrib children)) →
  ∀ n, P n.
Proof.
  intros Hstep. fix IH 1. intros [ref tag attrib children]. apply Hstep.
  induction children as [|c children IHc]; constructor; [apply IH|exact IHc].
Qed.

Lemma below_children (n : xmlnode) :
  below n = xchildren n ≫= (λ c, xref c :: below c).
Proof.
  destruct n as [ref tag attrib children]. cbn [xchildren below].
  induction children as [|c children IH]; [done|].
  cbn [mbind list_bind]. fold (mbind (M:=list) (λ c, xref c :: below c) children).
  by rewrite <- IH.
Qed.

Lemma below_with_children (n : xmlnode) (kids : list xmlnode) :
  below (with_children n kids) = kids ≫= (λ c, xref c :: below c).
Proof. by rewrite below_children. Qed.

Lemma elem_of_below (r : nat) (n : xmlnode) :
  r ∈ below n ↔ ∃ c, c ∈ xchildren n ∧ (r = xref c ∨ r ∈ below c).
Proof.
  rewrite below_children, list_elem_of_bind. split.
  - intros (c & Hr & Hc). exists c. split; [done|].
    apply elem_of_cons in Hr. tauto.
  - intros (c & Hc & Hr). exists c. split; [|done].
    apply elem_of_cons. tauto.
Qed.

Lemma detach_children (r : nat) (n : xmlnode) :
  detach r n = with_children n
                 (detach r <$> filter (λ c, xref c ≠ r) (xchildren n)).
Proof.
  destruct n as [ref tag attrib children]. unfold with_children.
  cbn [xchildren xref xtag xattrib detach]. f_equal.
  induction children as [|c children IH]; [done|].
  rewrite filter_cons. case_bool_decide as Hc.
  - rewrite decide_False by (intros H; by apply H). exact IH.
  - rewrite decide_True by done. rewrite fmap_cons. by rewrite IH.
Qed.

(** Nothing is taken from an element that does not hold [r]. *)
Lemma detach_absent (r : nat) (n : xmlnode) : r ∉ below n → detach r n = n.
Proof.
  induction n as [ref tag attrib children IH] using xmlnode_below_ind.
  intros Hr. rewrite detach_children. unfold with_children.
  cbn [xchildren xref xtag xattrib]. f_equal.
  assert (Hall : ∀ c, c ∈ children → xref c ≠ r ∧ r ∉ below c).
  { intros c Hc. split.
    - intros <-. apply Hr. apply elem_of_below. exists c. split; [done|by left].
    - intros Hb. apply Hr. apply elem_of_below. exists c. split; [done|by right]. }
  clear Hr. induction children as [|c children IHc]; [done|].
  apply Forall_cons in IH as [IH1 IH2].
  rewrite filter_cons, decide_True by (apply Hall; left).
  rewrite fmap_cons, IH1 by (apply Hall; left). f_equal.
  apply IHc; [exact IH2|]. intros c' Hc'. apply Hall. by right.
Qed.

Lemma detach_tag (r : nat) (n : xmlnode) : xtag (detach r n) = xtag n.
Proof. by destruct n. Qed.

Lemma release_absent (impl : implementation) (x : xmlnode) (children : list xmlnode) :
  (impl = Lxml → Forall (λ c, is_library c = true → xref x ∉ below c) children) →
  release impl x children = children.
Proof.
  destruct impl; [|done]. intros Hall. specialize (Hall eq_refl). cbn [release].
  induction Hall as [|c children Hc _ IH]; [done|].
  rewrite fmap_cons, IH. f_equal.
  destruct (is_library c) eqn:Hl; [|done]. by apply detach_absent, Hc.
Qed.

(** Taking an element away leaves the tags of the children of the root,
    and the children that are no library containers. *)
Lemma release_tags (impl : implementation) (x : xmlnode) (children : list xmlnode) :
  Forall2 (λ c c', xtag c' = xtag c ∧ (is_library c = false → c' = c))
    children (release impl x children).
Proof.
  destruct impl; cbn [release].
  - induction children as [|c children IH]; [constructor|].
    rewrite fmap_cons. constructor; [|exact IH].
    destruct (is_library c); [|done]. split; [apply detach_tag|done].
  - induction children as [|c children IH]; constructor; done.
Qed.

Lemma findall_release (impl : implementation) (x : xmlnode) (t : string)
    (children : list xmlnode) :
  String.prefix "library_" t = false →
  findall t (release impl x children) = findall t children.
Proof.
  intros Ht. pose proof (release_tags impl x children) as Hrel.
  induction Hrel as [|c c' l l' [Htag Hsame] _ IH]; [done|].
  unfold findall in *. rewrite !filter_cons, Htag.
  destruct (decide (xtag c = t)) as [Hc|Hc]; [|exact IH].
  rewrite IH, Hsame; [done|]. unfold is_library. by rewrite Hc.
Qed.

Lemma head_release (impl : implementation) (x a : xmlnode) (children : list xmlnode) :
  is_library a = false → head children = Some a →
  head (release impl x children) = Some a.
Proof.
  intros Ha Hh. pose proof (release_tags impl x children) as Hrel.
  destruct Hrel as [|c c' l l' [Htag Hsame] _]; [done|].
  injection Hh as ->. cbn. by rewrite Hsame.
Qed.

Lemma find_release (impl : implementation) (x : xmlnode) (name : string)
    (children : list xmlnode) :
  find name (release impl x children) = None ↔ find name children = None.
Proof.
  pose proof (release_tags impl x children) as Hrel.
  induction Hrel as [|c c' l l' [Htag Hsame] _ IH]; [done|].
  unfold find in *. cbn [List.find]. rewrite Htag.
  by case_bool_decide.
Qed.

Lemma with_children_again (n : xmlnode) (a b : list xmlnode) :
  with_children (with_children n a) b = with_children n b.
Proof. done. Qed.

Lemma with_children_same (n : xmlnode) : with_children n (xchildren n) = n.
Proof. by destruct n. Qed.

Lemma replace_first_same (name : string) (node : xmlnode) (children : list xmlnode) :
  find name children = Some node → replace_first name node children = children.
Proof.
  unfold find. induction children as [|c children IH]; [done|].
  cbn [List.find replace_first]. case_bool_decide.
  - by intros [= ->].
  - intros Hf. by rewrite IH.
Qed.

Lemma find_replace_first (name : string) (node' : xmlnode) (children : list xmlnode) :
  xtag node' = name → is_Some (find name children) →
  find name (replace_first name node' children) = Some node'.
Proof.
  intros Ht. unfold find. induction children as [|c children IH]; [by intros [? ?]|].
  cbn [List.find replace_first]. case_bool_decide as Hc.
  - intros _. cbn [List.find]. by rewrite bool_decide_eq_true_2.
  - intros Hf. cbn [List.find]. rewrite bool_decide_eq_false_2 by done. by apply IH.
Qed.

Lemma replace_first_twice (name : string) (n1 n2 : xmlnode) (children : list xmlnode) :
  xtag n1 = name →
  replace_first name n2 (replace_first name n1 children) = replace_first name n2 children.
Proof.
  intros Ht. induction children as [|c children IH]; [done|].
  cbn [replace_first]. case_bool_decide as Hc.
  - cbn [replace_first]. by rewrite bool_decide_eq_true_2.
  - cbn [replace_first]. rewrite bool_decide_eq_false_2 by done. by rewrite IH.
Qed.

Lemma elem_of_replace_first (name : string) (node' c : xmlnode) (children : list xmlnode) :
  c ∈ replace_first name node' children → c = node' ∨ c ∈ children.
Proof.
  induction children as [|d children IH]; [by intros ?%elem_of_nil|].
  cbn [replace_first]. case_bool_decide.
  - intros [->|Hc]%elem_of_cons; [by left|]. right. by right.
  - intros [->|Hc]%elem_of_cons; [right; left|].
    destruct (IH Hc) as [?|?]; [by left|]. right. by right.
Qed.

End TreeMoveFacts.

Section RoundInvariant.
Import Errors Tree ElementTree Document.

(** A property of the children of the root that the steps of a round
    preserve is preserved by the round. *)
Variable impl : implementation.
Variable name : string.
Variable library_loc : nat.
Variable P : list xmlnode → Prop.
Hypothesis P_release : ∀ x l, P l → P (release impl x l).
Hypothesis P_replace : ∀ n' l, xtag n' = name → P l → P (replace_first name n' l).
Hypothesis P_insert : ∀ n' l, xtag n' = name → P l → P (insert library_loc n' l).
Hypothesis P_remove : ∀ l, P l → P (remove_found name l).

Lemma adopt_invariant children o : P children → P (adopt impl name children o).
Proof.
  intros HP. unfold adopt. destruct (find name children) as [node|]; [|done].
  destruct (elem_in (oxmlnode o) (xchildren node)); [done|].
  destruct (find name (release impl (oxmlnode o) children)) as [node'|] eqn:Hf.
  - apply P_replace; [|by apply P_release]. cbn. by eapply find_tag.
  - by apply P_release.
Qed.

Lemma foldl_adopt_invariant members : ∀ children,
  P children → P (foldl (adopt impl name) children members).
Proof.
  induction members as [|o members IH]; intros children HP; [done|].
  cbn [foldl]. by apply IH, adopt_invariant.
Qed.

Lemma adopt_lazy_invariant loader_func ids : ∀ l seen children,
  P children → P (adopt_lazy impl name loader_func ids l seen children).2.
Proof.
  induction ids as [|obj_id ids IH]; intros l seen children HP; [done|].
  cbn -[LazyIndexedList._load_item].
  destruct (LazyIndexedList._load_item loader_func l obj_id) as [[e|[o|]] l']; try done.
  by apply IH, adopt_invariant.
Qed.

Lemma adopt_all_invariant arr children :
  P children → P (adopt_all impl name arr children).2.
Proof.
  intros HP. destruct arr as [l|loader_func l]; cbn -[adopt_lazy].
  - by apply foldl_adopt_invariant.
  - pose proof (adopt_lazy_invariant loader_func (LazyIndexedList._order l) l []
                  children HP) as H.
    by destruct (adopt_lazy _ _ _ _ _ _ _) as [[[e l'] seen] children'].
Qed.

Lemma sync_container_invariant arr children fresh :
  P children → P (root_children (sync_container impl name arr children fresh)).
Proof.
  intros HP. unfold sync_container.
  pose proof (adopt_all_invariant arr children HP) as H.
  destruct (adopt_all impl name arr children) as [[[e arr'] members] children'].
  cbn [snd] in H. destruct e; cbn [root_children]; [done|].
  unfold prune_container. destruct (find name children') as [node|] eqn:Hf; [|done].
  apply P_replace; [|done]. cbn. by eapply find_tag.
Qed.

Lemma save_library_invariant children fresh arr :
  P children → P (root_children (save_library impl library_loc children fresh arr name)).
Proof.
  intros HP. unfold save_library.
  destruct (find name children) as [node|] eqn:Hf.
  - case_bool_decide; cbn [root_children].
    + by apply P_remove.
    + by apply sync_container_invariant.
  - case_bool_decide; [done|].
    destruct (find name (insert library_loc _ children)) as [node|] eqn:Hf'.
    + apply sync_container_invariant. by apply P_insert.
    + cbn [root_children]. by apply P_insert.
Qed.

End RoundInvariant.

Section MoveFacts.
Import Errors Tree ElementTree Document.

Lemma library_name_prefix lib : String.prefix "library_" (library_name lib) = true.
Proof. by destruct lib. Qed.

(** A round leaves in place the children of the root that are no
    library containers. *)
Lemma save_library_leaves impl library_loc children fresh arr name t :
  t ≠ name → String.prefix "library_" t = false →
  findall t (root_children (save_library impl library_loc children fresh arr name))
  = findall t children.
Proof.
  intros Hne Ht.
  apply (save_library_invariant impl name library_loc
           (λ l, findall t l = findall t children)); [| | | |done].
  - intros x l <-. by apply findall_release.
  - intros n' l Hn <-. by apply findall_replace_first_other.
  - intros n' l Hn <-. apply findall_insert_other. by rewrite Hn.
  - intros l <-. by apply findall_remove_found_other.
Qed.

Lemma save_library_head impl library_loc children fresh arr name a :
  (1 ≤ library_loc)%nat → xtag a ≠ name → is_library a = false →
  head children = Some a →
  head (root_children (save_library impl library_loc children fresh arr name)) = Some a.
Proof.
  intros Hloc Ht Ha Hh.
  apply (save_library_invariant impl name library_loc (λ l, head l = Some a)); [| | | |done].
  - intros x l Hl. by apply head_release.
  - intros n' l Hn Hl. destruct l as [|c l]; [done|]. injection Hl as ->.
    cbn. by rewrite bool_decide_eq_false_2.
  - intros n' l Hn Hl. destruct l as [|c l]; [done|]. destruct library_loc; [lia|]. done.
  - intros l Hl. destruct l as [|c l]; [done|]. injection Hl as ->.
    cbn. by rewrite bool_decide_eq_false_2.
Qed.

(** The loop over [libraries] leaves the children of the root that are
    no library containers, the default scene and the seven eager
    collections as they are, whether it raises or not. *)
Lemma save_libraries_leaves impl library_loc : ∀ libs self,
  let r := save_libraries impl library_loc self libs in
  (∀ t, String.prefix "library_" t = false →
        findall t (xchildren (xmlroot r.2)) = findall t (xchildren (xmlroot self)))
  ∧ scene r.2 = scene self
  ∧ scenes r.2 = scenes self
  ∧ validator r.2 = validator self
  ∧ animations r.2 = animations self
  ∧ assetInfo_xmlnode r.2 = assetInfo_xmlnode self.
Proof.
  induction libs as [|lib rest IH]; intros self r; [done|].
  subst r. cbn [save_libraries].
  set (r1 := save_library impl library_loc (xchildren (xmlroot self)) (next_ref self)
               (library_arr self lib) (library_name lib)).
  set (self' := set_library_arr _ lib (arr_after r1)).
  assert (Hstep : ∀ t, String.prefix "library_" t = false →
            findall t (xchildren (xmlroot self')) = findall t (xchildren (xmlroot self))).
  { intros t Ht. subst self' r1. cbn [xmlroot set_library_arr set_tree xchildren with_children].
    apply save_library_leaves; [|done]. intros ->.
    by rewrite library_name_prefix in Ht. }
  destruct (raised r1) as [e|].
  - cbn [snd]. split; [|done]. exact Hstep.
  - destruct (IH self') as (I1 & I2 & I3 & I4 & I5 & I6).
    split; [|by rewrite I2, I3, I4, I5, I6].
    intros t Ht. rewrite I1 by done. by apply Hstep.
Qed.

Lemma save_libraries_head impl library_loc a libs : ∀ self,
  (1 ≤ library_loc)%nat → xtag a = "asset" →
  head (xchildren (xmlroot self)) = Some a →
  head (xchildren (xmlroot (save_libraries impl library_loc self libs).2)) = Some a.
Proof.
  induction libs as [|lib rest IH]; intros self Hloc Ht Hh; [done|].
  cbn [save_libraries].
  set (r1 := save_library impl library_loc (xchildren (xmlroot self)) (next_ref self)
               (library_arr self lib) (library_name lib)).
  assert (H1 : head (root_children r1) = Some a).
  { apply save_library_head; [done| | |done].
    - rewrite Ht. destruct lib; discriminate.
    - unfold is_library. by rewrite Ht. }
  destruct (raised r1) as [e|]; [done|]. by apply IH.
Qed.

End MoveFacts.

(** ** [save] in a document where nothing has to be moved *)

Section SettledFacts.
Import Errors Tree ElementTree Document.

Lemma is_library_tag (c d : xmlnode) : xtag c = xtag d → is_library c = is_library d.
Proof. unfold is_library. by intros ->. Qed.

Lemma elem_of_findall (name : string) (c : xmlnode) (children : list xmlnode) :
  c ∈ findall name children ↔ c ∈ children ∧ xtag c = name.
Proof. unfold findall. rewrite list_elem_of_filter. tauto. Qed.

Lemma elem_of_remove_found (name : string) (c : xmlnode) (children : list xmlnode) :
  c ∈ remove_found name children → c ∈ children.
Proof.
  induction children as [|d children IH]; [done|].
  cbn [remove_found]. case_bool_decide.
  - intros Hc. by right.
  - intros [->|Hc]%elem_of_cons; [left|right; by apply IH].
Qed.

Lemma elem_of_insert (i : nat) (x c : xmlnode) (children : list xmlnode) :
  c ∈ insert i x children → c = x ∨ c ∈ children.
Proof.
  unfold insert. intros [Hc|[->|Hc]%elem_of_cons]%elem_of_app.
  - right. by eapply (subseteq_take i children).
  - by left.
  - right. by eapply (subseteq_drop i children).
Qed.

(** An element that is apart sits below no library container once it is
    known not to be a child of its own. *)
Lemma apart_release (name : string) (x node : xmlnode) (children : list xmlnode) :
  apart name (xref x) children →
  find name children = Some node →
  elem_in x (xchildren node) = false →
  Forall (λ c, is_library c = true → xref x ∉ below c) children.
Proof.
  intros [H1 H2] Hf Hx. rewrite find_head_findall in Hf.
  destruct (findall name children) as [|node' others] eqn:Hall; [done|].
  injection Hf as ->. destruct H2 as [Hkids Hothers].
  rewrite Forall_forall in H1, Hkids, Hothers |- *.
  intros c Hc Hlib. destruct (decide (xtag c = name)) as [Ht|Ht].
  - assert (Hin : c ∈ findall name children) by (by apply elem_of_findall).
    rewrite Hall in Hin. apply elem_of_cons in Hin as [->|Hin]; [|by apply Hothers].
    intros (k & Hk & [Hr|Hr])%elem_of_below.
    + assert (elem_in x (xchildren node) = true); [|congruence].
      apply elem_in_spec. by exists k.
    + by apply (Hkids k Hk).
  - by apply H1.
Qed.

Lemma apart_replace (name : string) (r : nat) (node' : xmlnode) (children : list xmlnode) :
  apart name r children → xtag node' = name →
  Forall (λ k, r ∉ below k) (xchildren node') →
  apart name r (replace_first name node' children).
Proof.
  intros [H1 H2] Ht Hkids. split.
  - rewrite Forall_forall in H1 |- *. intros c Hc Hlib Hne.
    apply elem_of_replace_first in Hc as [->|Hc]; [done|]. by apply H1.
  - rewrite findall_replace_first by done.
    destruct (findall name children) as [|node others]; [done|].
    split; [done|apply H2].
Qed.

Lemma apart_insert_new (name : string) (r i : nat) (new : xmlnode)
    (children : list xmlnode) :
  apart name r children → xtag new = name → xchildren new = [] →
  findall name children = [] →
  apart name r (insert i new children).
Proof.
  intros [H1 _] Ht Hk Hnone. split.
  - rewrite Forall_forall in H1 |- *. intros c Hc Hlib Hne.
    apply elem_of_insert in Hc as [->|Hc]; [done|]. by apply H1.
  - rewrite findall_insert_new by done. rewrite Hk. by split.
Qed.

Variable impl : implementation.
Variable name : string.

(** One member: when nothing has to be moved, the container gets the
    node and the rest of the tree stays. *)
Lemma adopt_settled (children : list xmlnode) (node : xmlnode) (o : pyobj) :
  find name children = Some node →
  (impl = Lxml → apart name (xref (oxmlnode o)) children) →
  adopt impl name children o
  = replace_first name (with_children node (Unmoved.adopt (xchildren node) o)) children.
Proof.
  intros Hf Hap. unfold adopt, Unmoved.adopt. rewrite Hf.
  destruct (elem_in (oxmlnode o) (xchildren node)) eqn:Hin.
  - by rewrite with_children_same, replace_first_same.
  - rewrite release_absent; [by rewrite Hf|].
    intros Hl. apply (apart_release name _ node); [by apply Hap|done|done].
Qed.

Lemma foldl_adopt_settled (all members : list pyobj) : ∀ children node,
  find name children = Some node →
  (∀ o, o ∈ members → o ∈ all) →
  (impl = Lxml →
   ∀ o, o ∈ members →
        apart name (xref (oxmlnode o)) children
        ∧ ∀ o', o' ∈ all → xref (oxmlnode o) ∉ below (oxmlnode o')) →
  foldl (adopt impl name) children members
  = replace_first name
      (with_children node (foldl Unmoved.adopt (xchildren node) members)) children.
Proof.
  induction members as [|o members IH]; intros children node Hf Hsub Hap.
  - cbn [foldl]. by rewrite with_children_same, replace_first_same.
  - cbn [foldl].
    rewrite (adopt_settled children node o Hf)
      by (intros Hl; apply (Hap Hl); left).
    set (node1 := with_children node (Unmoved.adopt (xchildren node) o)).
    assert (Ht : xtag node1 = name) by (cbn; by eapply find_tag).
    rewrite (IH _ node1).
    + rewrite replace_first_twice by done. done.
    + apply find_replace_first; [done|by eexists].
    + intros o' Ho'. apply Hsub. by right.
    + intros Hl o' Ho'. destruct (Hap Hl o') as [Hapart Hcross]; [by right|].
      split; [|done]. apply apart_replace; [done|done|].
      subst node1. cbn [xchildren with_children]. unfold Unmoved.adopt.
      assert (Hkids : Forall (λ k, xref (oxmlnode o') ∉ below k) (xchildren node)).
      { destruct Hapart as [_ H2]. rewrite find_head_findall in Hf.
        destruct (findall name children) as [|n others]; [done|].
        injection Hf as ->. apply H2. }
      destruct (elem_in (oxmlnode o) (xchildren node)); [done|].
      apply Forall_app. split; [done|]. constructor; [|constructor].
      apply Hcross, Hsub. left.
Qed.

(** The first loop over a [LazyIndexedList] meets the members that the
    iteration meets, whatever it does to the tree. *)
Lemma adopt_lazy_members_moved loader_func ids : ∀ l seen children,
  adopt_lazy impl name loader_func ids l seen children =
    let '(e, l', seen', _) := Unmoved.adopt_lazy loader_func ids l [] [] in
    (e, l', seen ++ seen', foldl (adopt impl name) children seen').
Proof.
  induction ids as [|obj_id ids IH]; intros l seen children.
  - cbn. by rewrite app_nil_r.
  - cbn -[LazyIndexedList._load_item].
    destruct (LazyIndexedList._load_item loader_func l obj_id) as [[e|[o|]] l'].
    + by rewrite app_nil_r.
    + rewrite (IH l' (seen ++ [o]) (adopt impl name children o)).
      rewrite (adopt_lazy_members loader_func ids l' [o] [oxmlnode o]).
      destruct (Unmoved.adopt_lazy loader_func ids l' [] []) as [[[e l''] seen'] kids'].
      cbn. by rewrite <- app_assoc.
    + by rewrite app_nil_r.
Qed.

Lemma adopt_all_settled (arr : collection) (children : list xmlnode) (node : xmlnode) :
  find name children = Some node →
  let r := Unmoved.adopt_all arr (xchildren node) in
  (impl = Lxml →
   ∀ o, o ∈ r.1.2 →
        apart name (xref (oxmlnode o)) children
        ∧ ∀ o', o' ∈ r.1.2 → xref (oxmlnode o) ∉ below (oxmlnode o')) →
  adopt_all impl name arr children
  = (r.1.1.1, r.1.1.2, r.1.2, replace_first name (with_children node r.2) children).
Proof.
  intros Hf r Hap. subst r. destruct arr as [l|loader_func l].
  - cbn [adopt_all Unmoved.adopt_all fst snd] in *.
    by rewrite (foldl_adopt_settled (IndexedList.il_items l) _ children node).
  - cbn -[adopt_lazy Unmoved.adopt_lazy] in *.
    rewrite adopt_lazy_members_moved.
    rewrite (adopt_lazy_members loader_func _ l [] (xchildren node)) in Hap |- *.
    destruct (Unmoved.adopt_lazy loader_func (LazyIndexedList._order l) l [] [])
      as [[[e l'] seen] kids'].
    cbn [fst snd app] in *.
    by rewrite (foldl_adopt_settled seen _ children node).
Qed.

Lemma sync_container_settled (arr : collection) (children : list xmlnode)
    (node : xmlnode) (fresh : nat) :
  find name children = Some node →
  (impl = Lxml →
   ∀ o, o ∈ (Unmoved.adopt_all arr (xchildren node)).1.2 →
        apart name (xref (oxmlnode o)) children
        ∧ ∀ o', o' ∈ (Unmoved.adopt_all arr (xchildren node)).1.2 →
                xref (oxmlnode o) ∉ below (oxmlnode o')) →
  sync_container impl name arr children fresh
  = Unmoved.sync_container impl name arr node children fresh.
Proof.
  intros Hf Hap. unfold sync_container, Unmoved.sync_container.
  rewrite (adopt_all_settled arr children node Hf Hap).
  destruct (Unmoved.adopt_all arr (xchildren node)) as [[[e arr'] members] kids].
  cbn [fst snd]. destruct e; [done|].
  unfold prune_container.
  rewrite find_replace_first; [|cbn; by eapply find_tag|by eexists].
  rewrite replace_first_twice by (cbn; by eapply find_tag). done.
Qed.

End SettledFacts.

Section SettledRounds.
Import Errors Tree ElementTree Document.
Variable impl : implementation.

(** A round in which nothing has to be moved. *)
Lemma save_library_settled (library_loc : nat) (children : list xmlnode) (fresh : nat)
    (arr : collection) (name : string) (members : list pyobj) :
  coll_members arr = Some members →
  (impl = Lxml →
   ∀ o, o ∈ members →
        apart name (xref (oxmlnode o)) children
        ∧ ∀ o', o' ∈ members → xref (oxmlnode o) ∉ below (oxmlnode o')) →
  save_library impl library_loc children fresh arr name
  = Unmoved.save_library impl library_loc children fresh arr name.
Proof.
  intros Hm Hap. unfold save_library, Unmoved.save_library.
  destruct (find name children) as [node|] eqn:Hf.
  - case_bool_decide; [done|].
    apply sync_container_settled; [done|].
    destruct (adopt_all_members arr members (xchildren node) Hm) as (arr' & -> & _).
    exact Hap.
  - case_bool_decide; [done|].
    set (new := XmlNode fresh name [] []).
    destruct (find name (insert library_loc new children)) as [node|] eqn:Hf'; [|done].
    apply sync_container_settled; [done|].
    destruct (adopt_all_members arr members (xchildren node) Hm) as (arr' & -> & _).
    intros Hl o Ho. destruct (Hap Hl o Ho) as [Hapart Hcross]. split; [|done].
    apply apart_insert_new; [done|done|done|]. by apply findall_nil_find.
Qed.

(** A round leaves apart what is apart, when the nodes of its members
    do not hold the element. *)
Lemma apart_round (library_loc : nat) (children : list xmlnode) (fresh : nat)
    (arr : collection) (name0 name : string) (members0 : list pyobj) (r : nat) :
  coll_members arr = Some members0 →
  apart name r children →
  (∀ o', o' ∈ members0 →
         (r ∉ below (oxmlnode o')) ∧ (name0 ≠ name → xref (oxmlnode o') ≠ r)) →
  apart name r
    (root_children (Unmoved.save_library impl library_loc children fresh arr name0)).
Proof.
  intros Hm [H1 H2] Hcross.
  destruct (save_library_synced impl library_loc children fresh arr name0 members0 Hm)
    as [_ Hsync].
  pose proof (save_library_frame impl library_loc children fresh arr name0) as Hframe.
  set (children' := root_children
                      (Unmoved.save_library impl library_loc children fresh arr name0)) in *.
  assert (Hkid : ∀ kids k,
            Forall (λ k, r ∉ below k) kids → 
            k ∈ Unmoved.synced impl members0 kids → r ∉ below k).
  { intros kids k Hkids Hk.
    destruct (synced_children impl members0 kids) as (_ & S2 & _).
    destruct (S2 k Hk) as [Hin|Hin].
    - rewrite Forall_forall in Hkids. by apply Hkids.
    - apply list_elem_of_fmap in Hin as (o' & -> & Ho'). by apply Hcross. }
  assert (Hkid' : name0 ≠ name → ∀ kids k,
            Forall (λ k, xref k ≠ r) kids → 
            k ∈ Unmoved.synced impl members0 kids → xref k ≠ r).
  { intros Hne kids k Hkids Hk.
    destruct (synced_children impl members0 kids) as (_ & S2 & _).
    destruct (S2 k Hk) as [Hin|Hin].
    - rewrite Forall_forall in Hkids. by apply Hkids.
    - apply list_elem_of_fmap in Hin as (o' & -> & Ho'). by apply Hcross. }
  split.
  - rewrite Forall_forall in H1 |- *. intros c Hc Hlib Hne.
    destruct (decide (xtag c = name0)) as [Ht|Ht].
    + assert (Hne' : name0 ≠ name) by congruence.
      assert (Hin : c ∈ findall name0 children') by (by apply elem_of_findall).
      assert (Hold : ∀ d, d ∈ findall name0 children → r ∉ below d).
      { intros d [Hd Htd]%elem_of_findall. apply H1; [done| |congruence].
        rewrite <- Hlib. apply is_library_tag. congruence. }
      unfold Unmoved.container_synced in Hsync.
      destruct (findall name0 children) as [|node others] eqn:Hall;
        destruct members0 as [|m ms] eqn:Hmem.
      * rewrite Hsync in Hin. by apply elem_of_nil in Hin.
      * destruct Hsync as [ref Hsync]. rewrite Hsync in Hin.
        apply list_elem_of_singleton in Hin as ->.
        intros (k & Hk & Hr)%elem_of_below. cbn [xchildren] in Hk.
        destruct Hr as [Hr|Hr].
        -- by apply (Hkid' Hne' [] k).
        -- by apply (Hkid [] k).
      * rewrite Hsync in Hin. apply Hold. by right.
      * rewrite Hsync in Hin. apply elem_of_cons in Hin as [->|Hin];
          [|apply Hold; by right].
        assert (Hnode : r ∉ below node) by (apply Hold; left).
        intros (k & Hk & Hr)%elem_of_below. cbn [xchildren with_children] in Hk.
        destruct Hr as [Hr|Hr].
        -- apply (Hkid' Hne' (xchildren node) k); [|done|done].
           apply Forall_forall. intros k' Hk' <-. apply Hnode.
           apply elem_of_below. exists k'. split; [done|by left].
        -- apply (Hkid (xchildren node) k); [|done|done].
           apply Forall_forall. intros k' Hk' Hb. apply Hnode.
           apply elem_of_below. exists k'. split; [done|by right].
    + apply H1; [|done|done].
      assert (Hin : c ∈ findall (xtag c) children') by (by apply elem_of_findall).
      rewrite Hframe in Hin by done. by apply elem_of_findall in Hin as [? _].
  - destruct (decide (name = name0)) as [->|Hne].
    + unfold Unmoved.container_synced in Hsync.
      destruct (findall name0 children) as [|node others] eqn:Hall;
        destruct members0 as [|m ms] eqn:Hmem.
      * by rewrite Hsync.
      * destruct Hsync as [ref ->]. cbn [xchildren]. split; [|done].
        apply Forall_forall. intros k Hk. by apply (Hkid [] k).
      * rewrite Hsync. destruct H2 as [_ Hothers].
        destruct others as [|node2 others2]; [done|].
        apply Forall_cons in Hothers as [Hn2 Hothers]. split; [|done].
        apply Forall_forall. intros k Hk Hb. apply Hn2.
        apply elem_of_below. exists k. split; [done|by right].
      * rewrite Hsync. destruct H2 as [Hkids Hothers]. split; [|done].
        cbn [xchildren with_children]. apply Forall_forall. intros k Hk.
        by apply (Hkid (xchildren node) k).
    + by rewrite Hframe.
Qed.

(** The loop over the libraries of a document in which nothing has to
    be moved. *)
Lemma save_libraries_settled (library_loc : nat) : ∀ libs self,
  NoDup libs →
  (∀ lib, lib ∈ libs → is_Some (coll_members (library_arr self lib))) →
  (impl = Lxml →
   ∀ lib o, lib ∈ libs → o ∈ members_of self lib →
     apart (library_name lib) (xref (oxmlnode o)) (xchildren (xmlroot self))
     ∧ ∀ lib' o', lib' ∈ libs → o' ∈ members_of self lib' →
         (xref (oxmlnode o) ∉ below (oxmlnode o'))
         ∧ (lib' ≠ lib → xref (oxmlnode o') ≠ xref (oxmlnode o))) →
  save_libraries impl library_loc self libs
  = Unmoved.save_libraries impl library_loc self libs.
Proof.
  induction libs as [|lib rest IH]; intros self Hnd Hall Hset; [done|].
  apply NoDup_cons in Hnd as [Hnotin Hnd].
  cbn [save_libraries Unmoved.save_libraries].
  destruct (Hall lib ltac:(left)) as [members Hm].
  assert (Hmem : members_of self lib = members) by (unfold members_of; by rewrite Hm).
  rewrite (save_library_settled library_loc (xchildren (xmlroot self)) (next_ref self)
             (library_arr self lib) (library_name lib) members Hm).
  2:{ intros Hl o Ho. destruct (Hset Hl lib o) as [Hap Hcross]; [left|by rewrite Hmem|].
      split; [done|]. intros o' Ho'. apply (Hcross lib o'); [left|by rewrite Hmem]. }
  set (r1 := Unmoved.save_library impl library_loc (xchildren (xmlroot self))
               (next_ref self) (library_arr self lib) (library_name lib)).
  set (self' := set_library_arr _ lib (arr_after r1)).
  destruct (raised r1) as [e|]; [done|].
  assert (Harr : ∀ lib', lib' ∈ rest → library_arr self' lib' = library_arr self lib').
  { intros lib' Hin. subst self'. apply library_arr_other. by intros ->. }
  assert (Hmems : ∀ lib', lib' ∈ rest → members_of self' lib' = members_of self lib').
  { intros lib' Hin. unfold members_of. by rewrite Harr. }
  apply IH; [done| |].
  - intros lib' Hin. rewrite Harr by done. apply Hall. by right.
  - intros Hl lib' o Hin Ho. rewrite Hmems in Ho by done.
    destruct (Hset Hl lib' o) as [Hap Hcross]; [by right|done|].
    split.
    + subst self' r1. cbn [xmlroot set_library_arr set_tree xchildren with_children].
      apply (apart_round library_loc _ _ _ _ _ members); [done|done|].
      intros o' Ho'.
      destruct (Hcross lib o') as [C1 C2]; [left|by rewrite Hmem|].
      split; [done|]. intros Hne. apply C2. intros ->. done.
    + intros lib'' o' Hin' Ho'. rewrite Hmems in Ho' by done.
      apply Hcross; [by right|done].
Qed.

(** The statements on [asset] leave apart what is apart. *)
Lemma apart_asset (self : collada) (name : string) (r : nat) :
  xtag (assetInfo_xmlnode self) = "asset" → name ≠ "asset" →
  apart name r (xchildren (xmlroot self)) →
  apart name r (xchildren (xmlroot (save_asset self).1)).
Proof.
  intros Hasset Hname [H1 H2]. split.
  - unfold save_asset. cbn [fst xmlroot set_tree xchildren with_children].
    change (insert 0 ?x ?l) with (x :: l).
    constructor.
    + intros Hlib. unfold is_library in Hlib. by rewrite Hasset in Hlib.
    + rewrite Forall_forall in H1 |- *. intros c Hc. apply H1.
      destruct (find "asset" _); [|done]. by eapply elem_of_remove_found.
  - rewrite save_asset_frame; [done|done|]. rewrite Hasset. by intros <-.
Qed.

Lemma all_libraries (lib : library) : lib ∈ libraries.
Proof. destruct lib; apply (bool_decide_unpack _); vm_compute; exact I. Qed.

Lemma settled_spec (self : collada) :
  settled self →
  ∀ lib o, o ∈ members_of self lib →
    apart (library_name lib) (xref (oxmlnode o)) (xchildren (xmlroot self))
    ∧ ∀ lib' o', o' ∈ members_of self lib' →
        (xref (oxmlnode o) ∉ below (oxmlnode o'))
        ∧ (lib' ≠ lib → xref (oxmlnode o') ≠ xref (oxmlnode o)).
Proof.
  unfold settled. intros Hs lib o Ho.
  rewrite Forall_forall in Hs. specialize (Hs lib (all_libraries lib)).
  rewrite Forall_forall in Hs. destruct (Hs o Ho) as [Hap Hcross].
  split; [done|]. intros lib' o' Ho'.
  rewrite Forall_forall in Hcross. specialize (Hcross lib' (all_libraries lib')).
  rewrite Forall_forall in Hcross. by apply Hcross.
Qed.

(** [save] on a document in which nothing has to be moved: with the
    standard library's tree always, with lxml when the document is
    settled. *)
Lemma save_settled (self : collada) :
  xtag (assetInfo_xmlnode self) = "asset" →
  (∀ lib, is_Some (coll_members (library_arr self lib))) →
  (impl = Lxml → settled self) →
  save impl self = Unmoved.save impl self.
Proof.
  intros Hasset Hall Hset. unfold save, Unmoved.save.
  destruct (save_asset_fields self) as (_ & _ & Harr).
  pose proof (λ name r, apart_asset self name r Hasset) as Hap.
  destruct (save_asset self) as [self1 library_loc]. cbn [fst] in *.
  rewrite save_libraries_settled; [done|apply libraries_nodup| |].
  - intros lib _. rewrite Harr. apply Hall.
  - intros Hl lib o _ Ho. unfold members_of in Ho. rewrite Harr in Ho.
    destruct (settled_spec self (Hset Hl) lib o Ho) as [H1 H2]. split.
    + apply Hap; [|done]. by destruct lib.
    + intros lib' o' _ Ho'. unfold members_of in Ho'. rewrite Harr in Ho'.
      by apply H2.
Qed.

End SettledRounds.


(** ** Parsing again what [save] wrote *)

Section LoaderFacts.
Import Errors Tree ElementTree Document Unmoved.
Variable maskedErrors : list mask_entry.
Variable qualifies : xmlnode → bool.
Variable decode : xmlnode → (exn + pyobj) * list dae_error.

(** The loop returns exactly when it gets past every node, and then the
    collection has grown by the objects the nodes yield, in order. *)
Lemma load_items_returns nodes : ∀ st,
  Forall (passes maskedErrors qualifies decode) nodes →
  ∃ errors', (load_items maskedErrors qualifies decode) st nodes
             = (None, (foldl IndexedList.append st.1 (omap (loaded qualifies decode) nodes), errors')).
Proof.
  induction nodes as [|node rest IH]; intros st Hall.
  - exists st.2. by destruct st.
  - apply Forall_cons in Hall as [Hp Hall]. cbn [load_items].
    change (omap (loaded qualifies decode) (node :: rest))
      with (match (loaded qualifies decode) node with Some o => o :: omap (loaded qualifies decode) rest
            | None => omap (loaded qualifies decode) rest end).
    unfold load_item, loaded.
    destruct (qualifies node) eqn:Hq; cbn [negb].
    + unfold passes in Hp.
      destruct Hp as [Hp|[[obj Hp]|(ex & Hp & Hm)]]; [congruence| |].
      * rewrite Hp. apply (IH (IndexedList.append st.1 obj, st.2 ++ (decode node).2) Hall).
      * rewrite Hp. unfold handleError. rewrite Hm.
        apply (IH (st.1, (st.2 ++ (decode node).2) ++ [ex]) Hall).
    + apply (IH st Hall).
Qed.


Lemma load_items_app nodes1 nodes2 st :
  (load_items maskedErrors qualifies decode) st (nodes1 ++ nodes2) =
    match (load_items maskedErrors qualifies decode) st nodes1 with
    | (Some e, st') => (Some e, st')
    | (None, st') => (load_items maskedErrors qualifies decode) st' nodes2
    end.
Proof.
  revert st. induction nodes1 as [|node rest IH]; intros st; [done|].
  cbn [app load_items].
  destruct (load_item maskedErrors qualifies decode st node) as [[e|] st']; [done|].
  apply IH.
Qed.

(** The loop over the containers is the loop over their entities. *)
Lemma load_containers_entities childname libnodes : ∀ st,
  (load_containers maskedErrors qualifies decode) childname st libnodes = (load_items maskedErrors qualifies decode) st (entities childname libnodes).
Proof.
  induction libnodes as [|libnode rest IH]; intros st; [done|].
  cbn [load_containers]. unfold entities. cbn [mbind list_bind].
  rewrite load_items_app.
  destruct ((load_items maskedErrors qualifies decode) st (findall childname (xchildren libnode))) as [[e|] st'];
    [done|]. apply IH.
Qed.

Lemma il_items_foldl_append coll objs :
  IndexedList.il_items (foldl IndexedList.append coll objs)
  = IndexedList.il_items coll ++ objs.
Proof.
  revert coll. induction objs as [|o objs IH]; intros coll; cbn [foldl].
  - by rewrite app_nil_r.
  - rewrite IH. cbn. by rewrite <- app_assoc.
Qed.








End LoaderFacts.

Section NodeRoundTrip.
Import Errors Tree ElementTree Nodes.
Variable loadNode : IndexedList.indexed_list → xmlnode → load_outcome.
Variable maskedErrors : list mask_entry.
Variable keep : list xmlnode.

(** The decoder wraps the node it decodes. *)
Hypothesis Hwrap : ∀ ns n o, loadNode ns n = Loaded (Some o) → oxmlnode o = n.










Lemma thinned_length {A} (Q : A → Prop) (l l' : list A) :
  thinned Q l l' → (length l' ≤ length l)%nat.
Proof. induction 1; cbn; lia. Qed.







End NodeRoundTrip.

Section SavedNodes.
Import Errors Tree ElementTree Nodes Document Unmoved.
Variable loadNode : IndexedList.indexed_list → xmlnode → load_outcome.
Variable maskedErrors : list mask_entry.


End SavedNodes.

Section SaveTheorem.
Import Errors Tree ElementTree Nodes Document.

(** [library_loc] is one past the last [asset] element of the root,
    whenever the root has one. *)
Lemma library_location_after_asset children : ∀ i loc,
  (∃ a, a ∈ children ∧ xtag a = "asset") →
  ∃ k a, children !! k = Some a ∧ xtag a = "asset"
         ∧ library_location i loc children = S (i + k)
         ∧ ∀ j b, children !! j = Some b → xtag b = "asset" → (j ≤ k)%nat.
Proof.
  induction children as [|n rest IH]; intros i loc (a & Ha & Hta).
  - by apply elem_of_nil in Ha.
  - cbn [library_location].
    assert (Hdec : (∃ b, b ∈ rest ∧ xtag b = "asset")
                   ∨ ¬ ∃ b, b ∈ rest ∧ xtag b = "asset").
    { destruct (decide (Exists (λ b, xtag b = "asset") rest)) as [He|He];
        rewrite Exists_exists in He; [by left|by right]. }
    destruct Hdec as [Hrest|Hrest].
    + destruct (IH (S i) (if bool_decide (xtag n = "asset") then S i else loc) Hrest)
        as (k & b & Hk & Hb & -> & Hmax).
      exists (S k), b. split; [done|]. split; [done|]. split; [lia|].
      intros [|j] c Hj Hc; [lia|]. specialize (Hmax j c Hj Hc). lia.
    + assert (Hn : xtag n = "asset").
      { apply elem_of_cons in Ha as [->|Ha]; [done|]. exfalso. apply Hrest. by exists a. }
      rewrite bool_decide_eq_true_2 by done.
      exists 0%nat, n. split; [done|]. split; [done|].
      assert (Hloc : ∀ l j v, (∀ b, b ∈ l → xtag b ≠ "asset") →
                              library_location j v l = v).
      { clear. induction l as [|m l IHl]; intros j v Hno; [done|].
        cbn [library_location]. rewrite bool_decide_eq_false_2 by (apply Hno; left).
        apply IHl. intros b Hb. apply Hno. by right. }
      split.
      * rewrite Hloc; [lia|]. intros b Hb Htb. apply Hrest. by exists b.
      * intros [|j] c Hj Hc; [lia|]. exfalso. apply Hrest. exists c.
        split; [|done]. by eapply list_elem_of_lookup_2.
Qed.




(** What [container_synced] says of the tree: with members, a container
    in step with them; without, and with at most one container before,
    none. *)
Lemma container_synced_found impl name members before after :
  Unmoved.container_synced impl name members before after →
  (members ≠ [] →
   ∃ container, head after = Some container
                ∧ library_in_sync impl members (head before) container)
  ∧ (members = [] → (length before ≤ 1)%nat → head after = None).
Proof.
  unfold Unmoved.container_synced, library_in_sync.
  destruct before as [|node others]; destruct members as [|m members'] eqn:Hmem.
  - intros ->. split; [done|done].
  - intros [ref ->]. split; [|done]. intros _. eexists. split; [done|].
    cbn [xchildren head]. rewrite <- Hmem.
    destruct (synced_children impl members []) as (S1 & S2 & S3). subst members.
    split; [exact S1|]. split; [|exact S3].
    intros n Hn. destruct (S2 n Hn) as [H0|H0]; [by apply elem_of_nil in H0|by left].
  - intros ->. split; [done|]. intros _ Hlen. destruct others; [done|cbn in Hlen; lia].
  - intros ->. split; [|done]. intros _. eexists. split; [done|].
    cbn [xchildren with_children head]. rewrite <- Hmem.
    destruct (synced_children impl members (xchildren node)) as (S1 & S2 & S3).
    subst members. split; [exact S1|]. split; [|exact S3].
    intros n Hn. destruct (S2 n Hn) as [H0|H0]; [right; by exists node|by left].
Qed.






End SaveTheorem.

Section SaveSceneFacts.
Import Errors Tree ElementTree Document.

Lemma head_replace_first (name : string) (node' a : xmlnode) (children : list xmlnode) :
  xtag a ≠ name → head children = Some a →
  head (replace_first name node' children) = Some a.
Proof.
  intros Ht Hh. destruct children as [|c children]; [done|].
  injection Hh as ->. cbn. by rewrite bool_decide_eq_false_2.
Qed.

(** C2, as the code has it: with a default scene whose id is not in
    [scenes], in a tree that holds a [scene] element, [save] runs the
    statements on the asset element and the loop over the libraries,
    clears the [scene] element and then raises the broken-reference error,
    before the new reference is appended.  The tree it leaves is the tree
    as the loop over the libraries left it with the first [scene] element
    cleared, without children or attributes: the asset element is the
    first child of the root and, in a document whose collections can be
    iterated to their end and in which nothing has to be moved, the
    library containers are in step with the collections. *)
Theorem save_broken_default_scene_clears_reference
    (impl : implementation) (self : collada) (s : pyobj) :
  scene self = Some s →
  IndexedList.__contains__ (scenes self) (oid s) = false →
  is_Some (find "scene" (xchildren (xmlroot self))) →
  libraries_saved impl self →
  let r := save impl self in
  let before := xchildren (xmlroot self) in
  let after := xchildren (xmlroot r.2) in
  let mid := (save_libraries impl (save_asset self).2 (save_asset self).1 libraries).2 in
  r.1 = Some (DaeExn (MkError DaeBrokenRefError
                        ("Default scene " +:+ oid s +:+ " not found")))
  ∧ (∃ scenenode,
       find "scene" after = Some scenenode
       ∧ xchildren scenenode = [] ∧ xattrib scenenode = [])
  ∧ (∃ old, find "scene" (xchildren (xmlroot mid)) = Some old
            ∧ after = replace_first "scene" (clear old) (xchildren (xmlroot mid)))
  ∧ (xtag (assetInfo_xmlnode self) = "asset" →
     head after = Some (assetInfo_xmlnode self)
     ∧ ((∀ lib, is_Some (coll_members (library_arr self lib))) →
        (impl = Lxml → settled self) →
        ∀ lib members,
          coll_members (library_arr self lib) = Some members →
          (members ≠ [] →
           ∃ container,
             find (library_name lib) after = Some container
             ∧ library_in_sync impl members (find (library_name lib) before) container)
          ∧ (members = [] →
             (length (findall (library_name lib) before) ≤ 1)%nat →
             find (library_name lib) after = None))).
Proof.
  intros Hs Hnot Hfound Hlibs r before after mid.
  assert (Hrun : r.1 = Some (DaeExn (MkError DaeBrokenRefError
                               ("Default scene " +:+ oid s +:+ " not found")))
                 ∧ ∃ old, find "scene" (xchildren (xmlroot mid)) = Some old
                          ∧ after = replace_first "scene" (clear old)
                                      (xchildren (xmlroot mid))).
  { subst r after mid. unfold save. unfold libraries_saved in Hlibs.
    pose proof (save_asset_keeps_found self "scene" ltac:(done) Hfound) as Hfound1.
    destruct (save_asset_fields self) as (Hs1 & Hss1 & _).
    destruct (save_asset self) as [self1 library_loc]. cbn [fst snd] in *.
    pose proof (save_libraries_leaves impl library_loc libraries self1)
      as (F1 & F2 & F3 & _).
    destruct (save_libraries impl library_loc self1 libraries) as [[e|] self2];
      [done|]. cbn [fst snd] in *.
    assert (Hfound2 : is_Some (find "scene" (xchildren (xmlroot self2)))).
    { rewrite find_head_findall, F1 by reflexivity. by rewrite <- find_head_findall. }
    destruct Hfound2 as [scenenode Hsn].
    unfold save_scene. rewrite Hsn, F2, Hs1, Hs, F3, Hss1, Hnot. cbn [negb fst snd].
    split; [done|]. by exists scenenode. }
  destruct Hrun as [Hraise (old & Hold & Hafter)].
  split; [exact Hraise|]. split; [|split; [by exists old|]].
  - exists (clear old). rewrite Hafter. split; [|done].
    apply find_replace_first; [|by eexists]. cbn. by eapply find_tag.
  - intros Hasset. split.
    + rewrite Hafter. subst mid.
      assert (Hloc : (1 ≤ (save_asset self).2)%nat).
      { unfold save_asset. cbn [snd]. change (insert 0 ?x ?l) with (x :: l).
        match goal with |- context [library_location 0 0 (?x :: ?l)] =>
          destruct (library_location_after_asset (x :: l) 0 0) as (k & a & _ & _ & -> & _)
        end; [|lia].
        exists (assetInfo_xmlnode self). split; [left|done]. }
      pose proof (save_libraries_head impl (save_asset self).2 (assetInfo_xmlnode self)
                    libraries (save_asset self).1 Hloc Hasset eq_refl) as Hhead.
      apply head_replace_first; [|exact Hhead]. rewrite Hasset. discriminate.
    + intros Hall Hset lib members Hm.
      assert (Hsave : save impl self = Unmoved.save impl self) by by apply save_settled.
      pose proof (save_synced impl self lib members Hasset Hall Hm) as Hsync.
      rewrite <- Hsave in Hsync. fold r in Hsync. fold after in Hsync.
      apply container_synced_found in Hsync as [H1 H2].
      rewrite !find_head_findall. split; [exact H1|exact H2].
Qed.

End SaveSceneFacts.

Section SaveExamples.
Import Errors Tree ElementTree Document.

(** C2 as stated fails: the broken reference is raised after the scene
    element has lost the reference it held. *)
Lemma save_broken_default_scene_mutates_tree :
  let r := save Lxml stray_scene_collada in
  IndexedList.__contains__ (scenes stray_scene_collada) (oid stray_scene) = false
  ∧ find "scene" (xchildren (xmlroot stray_scene_collada))
    = Some (XmlNode 10 "scene" [] [old_scene_reference])
  ∧ r.1 = Some (DaeExn (MkError DaeBrokenRefError "Default scene stray not found"))
  ∧ find "scene" (xchildren (xmlroot r.2)) = Some (XmlNode 10 "scene" [] [])
  ∧ xmlroot r.2 ≠ xmlroot stray_scene_collada.
Proof.
  cbv zeta. split; [vm_compute; reflexivity|]. split; [vm_compute; reflexivity|].
  split; [vm_compute; reflexivity|]. split; [vm_compute; reflexivity|].
  vm_compute. discriminate.
Qed.

Lemma save_broken_default_scene_clears_reference_witness :
  let r := save XmlEtree stray_scene_collada in
  r.1 = Some (DaeExn (MkError DaeBrokenRefError
                        ("Default scene " +:+ oid stray_scene +:+ " not found")))
  ∧ (∃ scenenode,
       find "scene" (xchildren (xmlroot r.2)) = Some scenenode
       ∧ xchildren scenenode = [] ∧ xattrib scenenode = [])
  ∧ head (xchildren (xmlroot r.2)) = Some (assetInfo_xmlnode stray_scene_collada).
Proof.
  destruct (save_broken_default_scene_clears_reference XmlEtree stray_scene_collada
              stray_scene) as (H1 & H2 & _ & H4).
  - reflexivity.
  - vm_compute. reflexivity.
  - eexists. vm_compute. reflexivity.
  - vm_compute. reflexivity.
  - split; [exact H1|]. split; [exact H2|]. exact (proj1 (H4 eq_refl)).
Defined.

End SaveExamples.

Section SaveLibraryExamples.
Import Errors Tree ElementTree Document.


(** Why a document has to be [settled] with lxml: the node of an object
    that is in two collections is appended to the container of the first
    and then taken from it by the [append] to the container of the
    second; the standard library's tree leaves it in both. *)
Lemma shared_node_is_moved :
  let moved := xchildren (xmlroot (save Lxml shared_collada).2) in
  let copied := xchildren (xmlroot (save XmlEtree shared_collada).2) in
  ¬ settled shared_collada
  ∧ find "library_lights" moved = Some (XmlNode 6 "library_lights" [] [])
  ∧ find "library_cameras" moved
    = Some (XmlNode 1 "library_cameras" [] [oxmlnode sample_light])
  ∧ find "library_lights" copied
    = Some (XmlNode 6 "library_lights" [] [oxmlnode sample_light])
  ∧ find "library_cameras" copied
    = Some (XmlNode 1 "library_cameras" [] [oxmlnode sample_light]).
Proof.
  cbv zeta. split; [|repeat split; vm_compute; reflexivity].
  apply (bool_decide_eq_false_1 (settled shared_collada)). vm_compute. reflexivity.
Qed.


End SaveLibraryExamples.

(** ** The mask cannot shrink *)

Section MaskFacts.
Import Errors.

Lemma any_isinstance_app k (masks more : list mask_entry) :
  any_isinstance k masks ≠ AnyFalse →
  any_isinstance k (masks ++ more) = any_isinstance k masks.
Proof.
  induction masks as [|[c|] masks IH]; cbn; [done| |done].
  destruct (issubclass k c); [done|]. apply IH.
Qed.

(** X1: [ignoreErrors] never takes an entry out of the mask, whatever its
    arguments: the mask after the call is the mask before it followed by
    the arguments.  An error that [handleError] swallowed before the call
    is swallowed after it, and a mask on which [handleError] raised
    [TypeError] still makes it do so. *)
Theorem mask_only_grows (maskedErrors args : list mask_entry) :
  ignoreErrors maskedErrors args = maskedErrors ++ args
  ∧ ∀ errors error,
      (handleError errors maskedErrors error).2 ≠ Reraised →
      (handleError errors (ignoreErrors maskedErrors args) error).2
      = (handleError errors maskedErrors error).2.
Proof.
  assert (Hgrow : ignoreErrors maskedErrors args = maskedErrors ++ args) by done.
  split; [exact Hgrow|].
  intros errors error. rewrite Hgrow. unfold handleError. cbn [snd].
  intros Hm. rewrite any_isinstance_app; [done|].
  intros Hf. by rewrite Hf in Hm.
Qed.

End MaskFacts.

(** ** The member named by the caller *)

Section ZipMemberFacts.
Import Errors Zip.

(** X2: whatever the constructor reads from a zip archive is a member of
    the archive with a non-empty name.  A member name given by the caller
    is taken as it is, and never replaced by a candidate: the constructor
    raises the incomplete-document error when that name is empty or not in
    the archive.  With no name given the member read ends with [.DAE] once
    upper-cased, and the error means that the archive holds no such
    member. *)
Theorem select_member_sound (zip_filename : option string) (namelist : list string) :
  match select_member zip_filename namelist with
  | inr name =>
      name ∈ namelist ∧ name ≠ ""
      ∧ match zip_filename with
        | Some z => name = z
        | None => endswith (upper name) ".DAE" = true
        end
  | inl kind =>
      kind = DaeIncompleteError
      ∧ match zip_filename with
        | Some z => z = "" ∨ z ∉ namelist
        | None => daefiles namelist = []
        end
  end.
Proof.
  unfold select_member.
  set (filename := match zip_filename with
                   | Some z => z
                   | None => pick_name "" (daefiles namelist)
                   end).
  assert (Hcand : zip_filename = None → daefiles namelist ≠ [] →
                  filename ∈ daefiles namelist).
  { intros Hz Hd. subst filename. rewrite Hz.
    destruct (daefiles namelist) as [|first rest] eqn:Hdae; [done|].
    rewrite <- Hdae at 2. apply in_first_unmarked.
    unfold first_unmarked_candidate. rewrite Hdae.
    cbn [pick_name]. unfold str_false at 1. rewrite bool_decide_eq_true_2 by done.
    symmetry. apply pick_name_first_unmarked.
    - apply (daefiles_nonempty namelist). rewrite Hdae. left.
    - intros n Hn. apply (daefiles_nonempty namelist). rewrite Hdae. by right. }
  unfold str_false.
  destruct (decide (filename = "")) as [He|He].
  - rewrite bool_decide_eq_true_2 by done. cbn [orb]. split; [done|].
    destruct zip_filename as [z|]; [by left|].
    destruct (decide (daefiles namelist = [])) as [Hdae|Hdae]; [done|].
    exfalso. apply (daefiles_nonempty namelist filename); [|done].
    by apply Hcand.
  - rewrite bool_decide_eq_false_2 by done. cbn [orb].
    destruct (decide (filename ∈ namelist)) as [Hin|Hin].
    + rewrite bool_decide_eq_true_2 by done. cbn [negb].
      split; [done|]. split; [done|].
      destruct zip_filename as [z|]; [done|].
      assert (Hd : filename ∈ daefiles namelist).
      { apply Hcand; [done|]. intros Hnil. subst filename. by rewrite Hnil in He. }
      unfold daefiles in Hd. apply list_elem_of_filter in Hd. tauto.
    + rewrite bool_decide_eq_false_2 by done. cbn [negb]. split; [done|].
      destruct zip_filename as [z|]; [by right|].
      destruct (decide (daefiles namelist = [])) as [Hdae|Hdae]; [done|].
      exfalso. apply Hin. apply daefiles_sublist. by apply Hcand.
Qed.

End ZipMemberFacts.

(** ** [checkSource] *)

Section CheckSourceFacts.
Import Errors Util.

(** X3: [checkSource] accepts a source exactly when it has more rows than
    [maxindex] and as many components as are asked for.  The names of the
    components are not compared: a source that is accepted comes back with
    the names asked for in place of its own, its id and data unchanged.
    Every rejection is a malformed-document error. *)
Theorem checkSource_accepts_by_arity {row : Type} (source : data_source row)
    (components : list string) (maxindex : Z) :
  let fits := (maxindex < Z.of_nat (length (ds_data source)))%Z
              ∧ length (ds_components source) = length components in
  match checkSource source components maxindex with
  | inr source' =>
      fits ∧ source' = MkDataSource (ds_id source) (ds_data source) components
  | inl e => ¬ fits ∧ ∃ msg, e = DaeExn (MkError DaeMalformedError msg)
  end.
Proof.
  intros fits. unfold checkSource.
  destruct (Z.leb_spec (Z.of_nat (length (ds_data source))) maxindex) as [Hle|Hlt].
  - split; [|by eexists]. intros [? _]. lia.
  - destruct (decide (length (ds_components source) = length components)) as [Hlen|Hlen].
    + rewrite (bool_decide_eq_true_2 _ Hlen). cbn [ds_components].
      rewrite bool_decide_eq_false_2 by (intros H; by apply H).
      done.
    + rewrite (bool_decide_eq_false_2 _ Hlen).
      rewrite bool_decide_eq_true_2 by (intros H; apply Hlen; by rewrite H).
      split; [|by eexists]. by intros [_ ?].
Qed.

End CheckSourceFacts.

(** ** [_correctValInNode] *)

Section CorrectValFacts.
Import Util.








End CorrectValFacts.

(** ** The updating methods of an [IndexedList] *)

Section IndexedListUpdateFacts.
Import Errors Tree IndexedList IndexedListUpdate.

Lemma list_getitem_in_range {A} (l : list A) (i : Z) :
  (- Z.of_nat (length l) ≤ i < Z.of_nat (length l))%Z →
  ∃ x, list_getitem l i = inr x
       ∧ l !! Z.to_nat (if (i <? 0)%Z then Z.of_nat (length l) + i else i)%Z = Some x.
Proof.
  intros Hr. unfold list_getitem.
  set (j := (if (i <? 0)%Z then Z.of_nat (length l) + i else i)%Z).
  assert (Hj : (0 ≤ j < Z.of_nat (length l))%Z).
  { subst j. destruct (Z.ltb_spec i 0); lia. }
  destruct (Z.ltb_spec j 0) as [?|_]; [lia|].
  destruct (Z.leb_spec (Z.of_nat (length l)) j) as [?|_]; [lia|]. cbn [orb].
  destruct (l !! Z.to_nat j) as [x|] eqn:Hl; [by exists x|].
  apply lookup_ge_None in Hl. lia.
Qed.

Lemma list_getitem_out_of_range {A} (l : list A) (i : Z) :
  ¬ (- Z.of_nat (length l) ≤ i < Z.of_nat (length l))%Z →
  list_getitem l i = inl IndexError.
Proof.
  intros Hr. unfold list_getitem.
  set (j := (if (i <? 0)%Z then Z.of_nat (length l) + i else i)%Z).
  assert (Hj : ¬ (0 ≤ j < Z.of_nat (length l))%Z).
  { subst j. destruct (Z.ltb_spec i 0); lia. }
  destruct (Z.ltb_spec j 0) as [?|?]; [done|].
  destruct (Z.leb_spec (Z.of_nat (length l)) j) as [?|?]; [done|lia].
Qed.

Lemma list_getitem_returns {A} (l : list A) (i : Z) (x : A) :
  list_getitem l i = inr x →
  (- Z.of_nat (length l) ≤ i < Z.of_nat (length l))%Z
  ∧ l !! Z.to_nat (if (i <? 0)%Z then Z.of_nat (length l) + i else i)%Z = Some x.
Proof.
  intros Hg.
  destruct (decide (- Z.of_nat (length l) ≤ i < Z.of_nat (length l))%Z) as [Hr|Hr].
  - split; [done|]. destruct (list_getitem_in_range l i Hr) as (y & Hy & Hl).
    congruence.
  - rewrite list_getitem_out_of_range in Hg by done. done.
Qed.

(** [list.index] finds a place that holds an object with the identity
    asked for. *)
Lemma list_index_Some (l : list pyobj) (o : pyobj) (n : nat) :
  list_index l (VObj o) = Some n →
  ∃ member, l !! n = Some member ∧ oref member = oref o.
Proof.
  revert n. induction l as [|x l IH]; intros n; [done|].
  cbn [list_index member_eq]. case_bool_decide as Hx.
  - intros [= <-]. by exists x.
  - destruct (list_index l (VObj o)) as [m|]; [|done].
    intros [= <-]. by apply IH.
Qed.

Lemma list_index_member (l : list pyobj) (o : pyobj) :
  o ∈ l → is_Some (list_index l (VObj o)).
Proof.
  induction l as [|x l IH]; [by intros ?%elem_of_nil|].
  intros Ho. cbn [list_index member_eq]. case_bool_decide as Hx; [done|].
  apply elem_of_cons in Ho as [->|Ho]; [done|].
  destruct (IH Ho) as [m ->]. done.
Qed.

(** Neither an integer nor a string is a member. *)
Lemma list_index_not_object (l : list pyobj) (v : pyval) :
  (∀ o, v ≠ VObj o) → list_index l v = None.
Proof.
  intros Hv. induction l as [|x l IH]; [done|].
  cbn [list_index]. rewrite IH. by destruct v as [i|s|o]; [| |destruct (Hv o)].
Qed.

Lemma same_identity_same_member (l : list pyobj) (o o' : pyobj) :
  NoDup (oref <$> l) → o ∈ l → o' ∈ l → oref o = oref o' → o = o'.
Proof.
  intros Hnd [i Hi]%list_elem_of_lookup [j Hj]%list_elem_of_lookup Href.
  assert (i = j) as ->; [|congruence].
  eapply NoDup_lookup; [exact Hnd| |].
  - by rewrite list_lookup_fmap, Hi.
  - by rewrite list_lookup_fmap, Hj, Href.
Qed.

(** What the shared opening finds for a subscript that [self[ind]]
    accepts. *)
Lemma locate_member (self : indexed_list) (ind : subscript) (obj : pyobj) :
  agrees self →
  __getitem__ self ind = inr obj →
  ∃ n, locate self ind = inr (obj, n) ∧ il_items self !! n = Some obj.
Proof.
  intros (Hid & Href & Hidx) Hget. destruct ind as [k|i]; cbn in Hget |- *.
  - destruct (il_index self !! k) as [o|] eqn:Hk; [|done]. injection Hget as ->.
    apply Hidx in Hk as [Hin _].
    destruct (list_index_member _ _ Hin) as [n Hn]. rewrite Hn.
    exists n. split; [done|].
    destruct (list_index_Some _ _ _ Hn) as (member & Hm & Hr).
    rewrite Hm. f_equal. eapply same_identity_same_member; [done| |done|done].
    by eapply list_elem_of_lookup_2.
  - rewrite Hget. apply list_getitem_returns in Hget as [_ Hl].
    eexists. split; [done|]. exact Hl.
Qed.

Lemma locate_raises (self : indexed_list) (ind : subscript) (e : exn) :
  agrees self →
  __getitem__ self ind = inl e →
  locate self ind = inl (Raised KeyError).
Proof.
  intros _ Hget. destruct ind as [k|i]; cbn in Hget |- *.
  - by destruct (il_index self !! k).
  - by destruct (list_getitem (il_items self) i).
Qed.

Lemma agrees_without (l1 l2 : list pyobj) (obj : pyobj) (idx : gmap string pyobj) :
  agrees (MkIndexedList (l1 ++ obj :: l2) idx) →
  agrees (MkIndexedList (l1 ++ l2) (_delindex idx obj)).
Proof.
  intros (Hid & Href & Hidx). unfold agrees. cbn [il_items il_index] in *.
  rewrite fmap_app, fmap_cons in Hid. rewrite fmap_app, fmap_cons in Href.
  apply NoDup_app in Hid as (Hid1 & Hid12 & Hid2).
  apply NoDup_cons in Hid2 as [Hido Hid2].
  apply NoDup_app in Href as (Href1 & Href12 & Href2).
  apply NoDup_cons in Href2 as [_ Href2].
  split; [|split].
  - rewrite fmap_app. apply NoDup_app. split; [done|]. split; [|done].
    intros x Hx Hx'. apply (Hid12 x Hx). by right.
  - rewrite fmap_app. apply NoDup_app. split; [done|]. split; [|done].
    intros x Hx Hx'. apply (Href12 x Hx). by right.
  - intros k o. unfold _delindex. split.
    + intros Hk. apply lookup_delete_Some in Hk as [Hne Hk].
      apply Hidx in Hk as [Hin Hoid]. split; [|done].
      apply elem_of_app in Hin as [Hin|Hin]; [apply elem_of_app; by left|].
      apply elem_of_cons in Hin as [->|Hin]; [done|].
      apply elem_of_app. by right.
    + intros [Hin Hoid]. apply lookup_delete_Some. split.
      * intros Heq. subst k.
        apply elem_of_app in Hin as [Hin|Hin].
        -- apply (Hid12 (oid o)); [by apply list_elem_of_fmap_2|]. rewrite <- Heq. left.
        -- apply Hido. rewrite Heq. by apply list_elem_of_fmap_2.
      * apply Hidx. split; [|done].
        apply elem_of_app in Hin as [Hin|Hin]; apply elem_of_app; [by left|].
        right. by right.
Qed.

Lemma agrees_with (l1 l2 : list pyobj) (new_obj : pyobj) (idx : gmap string pyobj) :
  agrees (MkIndexedList (l1 ++ l2) idx) →
  oid new_obj ∉ oid <$> l1 ++ l2 →
  oref new_obj ∉ oref <$> l1 ++ l2 →
  agrees (MkIndexedList (l1 ++ new_obj :: l2) (_addindex idx new_obj)).
Proof.
  intros (Hid & Href & Hidx) Hfid Hfref. unfold agrees. cbn [il_items il_index] in *.
  assert (Hperm : l1 ++ new_obj :: l2 ≡ₚ new_obj :: (l1 ++ l2))
    by (symmetry; apply Permutation_middle).
  split; [|split].
  - rewrite Hperm, fmap_cons. by apply NoDup_cons.
  - rewrite Hperm, fmap_cons. by apply NoDup_cons.
  - intros k o. unfold _addindex. rewrite Hperm, elem_of_cons.
    destruct (decide (oid new_obj = k)) as [<-|Hne].
    + rewrite lookup_insert_eq. split.
      * intros [= <-]. split; [by left|done].
      * intros [[->|Hin] Hoid]; [done|].
        exfalso. apply Hfid. rewrite <- Hoid. by apply list_elem_of_fmap_2.
    + rewrite lookup_insert_ne by done. rewrite Hidx. split.
      * intros [Hin Hoid]. split; [by right|done].
      * intros [[->|Hin] Hoid]; [done|]. done.
Qed.

Lemma lookup_middle_split {A} (l : list A) (n : nat) (x : A) :
  l !! n = Some x →
  l = take n l ++ x :: drop (S n) l ∧ delete n l = take n l ++ drop (S n) l
  ∧ drop n l = x :: drop (S n) l.
Proof.
  intros Hl. split; [|split].
  - by rewrite take_drop_middle.
  - apply delete_take_drop.
  - by apply drop_S.
Qed.

(** X5: on a collection whose index and list agree, [pop(ind)] returns
    [self[ind]] whenever that subscript is accepted, takes that member out
    of the list and its id out of the index, and leaves a collection whose
    index and list agree again; [del self[ind]] leaves the same
    collection.  When [self[ind]] raises, [pop(ind)] raises [KeyError] and
    changes nothing. *)
Theorem pop_returns_subscripted_member (self : indexed_list) (ind : subscript) :
  agrees self →
  match __getitem__ self ind with
  | inr obj =>
      ∃ l1 l2 self',
        il_items self = l1 ++ obj :: l2
        ∧ self' = MkIndexedList (l1 ++ l2) (delete (oid obj) (il_index self))
        ∧ pop self ind = (inr obj, self')
        ∧ __delitem__ self ind = (None, self')
        ∧ agrees self'
        ∧ __contains__ self' (oid obj) = false
        ∧ __len__ self = S (__len__ self')
  | inl _ =>
      pop self ind = (inl (Raised KeyError), self)
      ∧ __delitem__ self ind = (Some (Raised KeyError), self)
  end.
Proof.
  intros Hag. destruct (__getitem__ self ind) as [e|obj] eqn:Hget.
  - unfold pop, __delitem__. by rewrite (locate_raises _ _ _ Hag Hget).
  - destruct (locate_member _ _ _ Hag Hget) as (n & Hloc & Hn).
    destruct (lookup_middle_split _ _ _ Hn) as (Hsplit & Hdel & _).
    exists (take n (il_items self)), (drop (S n) (il_items self)).
    eexists. split; [exact Hsplit|]. split; [reflexivity|].
    unfold pop, __delitem__. rewrite Hloc, Hn, Hdel. unfold _delindex.
    split; [done|]. split; [done|].
    assert (Hag' : agrees (MkIndexedList (take n (il_items self) ++ drop (S n) (il_items self))
                             (_delindex (il_index self) obj))).
    { apply agrees_without. rewrite <- Hsplit. by destruct self. }
    split; [exact Hag'|]. split.
    + unfold __contains__. cbn [il_index]. rewrite lookup_delete_eq.
      apply bool_decide_eq_false_2. by intros [? ?].
    + unfold __len__. cbn [il_items]. rewrite Hsplit at 1.
      rewrite !length_app. cbn [length]. lia.
Qed.

Lemma agrees_two (first second : pyobj) :
  oid first ≠ oid second → oref first ≠ oref second →
  agrees (__init__ [first; second]).
Proof.
  intros Hid Href. split; [|split].
  - cbn. apply NoDup_cons. split; [|apply NoDup_singleton].
    by intros ?%list_elem_of_singleton.
  - cbn. apply NoDup_cons. split; [|apply NoDup_singleton].
    by intros ?%list_elem_of_singleton.
  - intros k o. cbn [il_items il_index __init__ foldl]. unfold _addindex.
    rewrite !lookup_insert_Some, lookup_empty, !elem_of_cons, elem_of_nil.
    split.
    + intros [[<- <-]|[Hne [[<- <-]|[_ ?]]]]; [by split; [right; left|]|by split; [left|]|done].
    + intros [[->|[->|[]]] <-]; [right; split; [done|by left]|by left].
Qed.

Lemma pop_returns_subscripted_member_witness :
  let first := PyObj 1 "a" sample_node in
  let second := PyObj 2 "b" sample_node in
  let self := __init__ [first; second] in
  match __getitem__ self (SPos (-1)) with
  | inr obj =>
      ∃ l1 l2 self',
        il_items self = l1 ++ obj :: l2
        ∧ self' = MkIndexedList (l1 ++ l2) (delete (oid obj) (il_index self))
        ∧ pop self (SPos (-1)) = (inr obj, self')
        ∧ __delitem__ self (SPos (-1)) = (None, self')
        ∧ agrees self'
        ∧ __contains__ self' (oid obj) = false
        ∧ __len__ self = S (__len__ self')
  | inl _ =>
      pop self (SPos (-1)) = (inl (Raised KeyError), self)
      ∧ __delitem__ self (SPos (-1)) = (Some (Raised KeyError), self)
  end.
Proof.
  intros first second self.
  apply (pop_returns_subscripted_member self (SPos (-1))).
  apply agrees_two; cbn; [discriminate|lia].
Defined.

(** X6: an integer subscript outside the list makes [del self[i]],
    [pop(i)], [insert(i, x)] and [self[i] = x] raise [KeyError], not
    [IndexError], and change nothing: the [IndexError] of the list is
    caught and the integer is looked up in the index, which has no such
    key.  So [pop()] on an empty collection raises [KeyError], and
    [insert] can put nothing behind the last member, nor anything into an
    empty collection. *)
Theorem position_outside_raises_KeyError (self : indexed_list) (i : Z) (new_obj : pyobj) :
  ¬ in_range self i →
  __delitem__ self (SPos i) = (Some (Raised KeyError), self)
  ∧ pop self (SPos i) = (inl (Raised KeyError), self)
  ∧ insert self (SPos i) new_obj = (Some (Raised KeyError), self)
  ∧ __setitem__ self (SPos i) new_obj = (Some (Raised KeyError), self).
Proof.
  intros Hr. unfold __delitem__, pop, insert, __setitem__, locate.
  by rewrite (list_getitem_out_of_range _ _ Hr).
Qed.

Lemma position_outside_raises_KeyError_witness :
  let self := __init__ [] in
  let new_obj := PyObj 1 "a" sample_node in
  __delitem__ self (SPos 0) = (Some (Raised KeyError), self)
  ∧ pop self (SPos 0) = (inl (Raised KeyError), self)
  ∧ insert self (SPos 0) new_obj = (Some (Raised KeyError), self)
  ∧ __setitem__ self (SPos 0) new_obj = (Some (Raised KeyError), self).
Proof.
  intros self new_obj.
  apply (position_outside_raises_KeyError self 0 new_obj).
  unfold in_range. cbn. lia.
Defined.

(** X7: on a collection whose index and list agree, [insert(ind, x)]
    with a subscript that [self[ind]] accepts puts [x], an object with an
    id and an identity new to the collection, right in front of
    [self[ind]]; the other members keep their order, [x] is found by its
    id, and the index and the list agree again. *)
Theorem insert_goes_before_subscripted_member (self : indexed_list) (ind : subscript)
    (obj new_obj : pyobj) :
  agrees self →
  __getitem__ self ind = inr obj →
  oid new_obj ∉ oid <$> il_items self →
  oref new_obj ∉ oref <$> il_items self →
  ∃ l1 l2 self',
    il_items self = l1 ++ obj :: l2
    ∧ insert self ind new_obj = (None, self')
    ∧ il_items self' = l1 ++ new_obj :: obj :: l2
    ∧ __getitem__ self' (SKey (oid new_obj)) = inr new_obj
    ∧ agrees self'.
Proof.
  intros Hag Hget Hfid Hfref.
  destruct (locate_member _ _ _ Hag Hget) as (n & Hloc & Hn).
  destruct (lookup_middle_split _ _ _ Hn) as (Hsplit & _ & Hdrop).
  exists (take n (il_items self)), (drop (S n) (il_items self)).
  eexists. split; [exact Hsplit|].
  unfold insert. rewrite Hloc. split; [reflexivity|]. cbn [il_items il_index].
  rewrite Hdrop. split; [done|]. split.
  - cbn [__getitem__ il_index]. unfold _addindex. by rewrite lookup_insert_eq.
  - apply (agrees_with (take n (il_items self)) (obj :: drop (S n) (il_items self))).
    + rewrite <- Hsplit. by destruct self.
    + by rewrite <- Hsplit.
    + by rewrite <- Hsplit.
Qed.

Lemma insert_goes_before_subscripted_member_witness :
  let first := PyObj 1 "a" sample_node in
  let second := PyObj 2 "b" sample_node in
  let new_obj := PyObj 3 "c" sample_node in
  let self := __init__ [first; second] in
  ∃ l1 l2 self',
    il_items self = l1 ++ second :: l2
    ∧ insert self (SKey "b") new_obj = (None, self')
    ∧ il_items self' = l1 ++ new_obj :: second :: l2
    ∧ __getitem__ self' (SKey (oid new_obj)) = inr new_obj
    ∧ agrees self'.
Proof.
  intros first second new_obj self.
  apply (insert_goes_before_subscripted_member self (SKey "b") second new_obj).
  - apply agrees_two; cbn; [discriminate|lia].
  - reflexivity.
  - apply (bool_decide_unpack _). vm_compute. exact I.
  - apply (bool_decide_unpack _). vm_compute. exact I.
Defined.

(** X8: [self[ind] = x] never stores [x]: every call raises, and the
    list part is the same afterwards.  When [self[ind]] is accepted, the
    exception is the [TypeError] of the last statement, which comes after
    the index has been rewritten: the id of the member addressed is gone
    from the index and the id of [x] leads to [x], which is not in the
    list. *)
Theorem setitem_always_raises (self : indexed_list) (ind : subscript) (new_obj : pyobj) :
  is_Some (__setitem__ self ind new_obj).1
  ∧ il_items (__setitem__ self ind new_obj).2 = il_items self
  ∧ ∀ obj, agrees self → __getitem__ self ind = inr obj →
      __setitem__ self ind new_obj
      = (Some (Raised TypeError),
         MkIndexedList (il_items self)
           (<[oid new_obj := new_obj]> (delete (oid obj) (il_index self)))).
Proof.
  split; [|split].
  - unfold __setitem__. by destruct (locate self ind) as [e|[obj n]].
  - unfold __setitem__. by destruct (locate self ind) as [e|[obj n]].
  - intros obj Hag Hget. unfold __setitem__.
    destruct (locate_member _ _ _ Hag Hget) as (n & -> & _). done.
Qed.

(** X9: [remove] never takes a member out: every call raises, and the
    list part is the same afterwards.  Called with a member, or with the
    id of a member, of a collection whose index and list agree, it raises
    the [ValueError] of its last statement, which hands [list.remove] a
    position where an object is expected; the id of the member has been
    deleted from the index by then, so the member is still in the list
    and no longer found by its id. *)
Theorem remove_always_raises (self : indexed_list) (ind_or_obj : pyval) :
  is_Some (remove self ind_or_obj).1
  ∧ il_items (remove self ind_or_obj).2 = il_items self
  ∧ ∀ obj, agrees self → obj ∈ il_items self →
      ind_or_obj = VObj obj ∨ ind_or_obj = VStr (oid obj) →
      remove self ind_or_obj
      = (Some ValueError,
         MkIndexedList (il_items self) (delete (oid obj) (il_index self)))
      ∧ get (remove self ind_or_obj).2 (oid obj) None = None.
Proof.
  assert (Hint : ∀ l n, list_remove l (VInt n) = None).
  { intros l n. unfold list_remove. by rewrite list_index_not_object. }
  split; [|split].
  - unfold remove. repeat case_match; by rewrite ?Hint in *.
  - unfold remove. repeat case_match; by rewrite ?Hint in *.
  - intros obj (Hid & Href & Hidx) Hin Hv.
    assert (Hfound : ∃ n, list_index (il_items self) (VObj obj) = Some n
                          ∧ il_items self !! n = Some obj).
    { destruct (list_index_member _ _ Hin) as [n Hn]. exists n. split; [done|].
      destruct (list_index_Some _ _ _ Hn) as (member & Hm & Hr).
      rewrite Hm. f_equal. eapply same_identity_same_member; [done| |done|done].
      by eapply list_elem_of_lookup_2. }
    destruct Hfound as (n & Hn & Hl).
    assert (Hrem : remove self ind_or_obj
                   = (Some ValueError,
                      MkIndexedList (il_items self) (delete (oid obj) (il_index self)))).
    { unfold remove. destruct Hv as [->| ->].
      - rewrite Hn, Hl, Hint. done.
      - assert (il_index self !! oid obj = Some obj) as -> by by apply Hidx.
        rewrite Hn, Hint. done. }
    split; [exact Hrem|]. rewrite Hrem. unfold get. cbn [snd il_index].
    by rewrite lookup_delete_eq.
Qed.

End IndexedListUpdateFacts.

(** ** Materialising a [LazyIndexedList] *)

Section LazyLoadingFacts.
Import Errors Tree LazyIndexedList LazyLoading.
Variable loader_func : xmlnode → exn + pyobj.

(** One key of [_load_all] whose node, if it is still to be decoded,
    decodes. *)
Lemma load_item_decodes (self : lazy_list) (k : string) :
  (∀ node, _pending_nodes self !! k = Some node → _loaded self !! k = None →
           is_Some (decoded loader_func node)) →
  ∃ v self',
    _load_item loader_func self k = (inr v, self')
    ∧ _order self' = _order self
    ∧ (∀ k', _loaded self' !! k' =
             if decide (k' = k)
             then match _loaded self !! k with
                  | Some o => Some o
                  | None => _pending_nodes self !! k ≫= decoded loader_func
                  end
             else _loaded self !! k')
    ∧ (∀ k', _pending_nodes self' !! k' =
             if decide (k' = k ∧ _loaded self !! k = None) then None
             else _pending_nodes self !! k').
Proof.
  intros Hdec. unfold _load_item.
  destruct (_loaded self !! k) as [o|] eqn:Hl.
  - eexists _, _. split; [done|]. split; [done|]. split.
    + intros k'. case_decide; by subst.
    + intros k'. rewrite decide_False; [done|]. by intros [_ ?].
  - destruct (_pending_nodes self !! k) as [node|] eqn:Hp.
    + destruct (Hdec node eq_refl eq_refl) as [obj Hobj]. unfold decoded in Hobj.
      destruct (loader_func node) as [e|obj'] eqn:Hload; [done|]. injection Hobj as ->.
      eexists _, _. split; [done|]. split; [done|]. cbn. split.
      * intros k'. case_decide as Hk.
        -- subst. rewrite lookup_insert_eq. unfold decoded. by rewrite Hload.
        -- by rewrite lookup_insert_ne.
      * intros k'. case_decide as Hk.
        -- destruct Hk as [-> _]. apply lookup_delete_eq.
        -- rewrite lookup_delete_ne; [done|]. intros <-. by apply Hk.
    + eexists _, _. split; [done|]. split; [done|]. split.
      * intros k'. case_decide; by subst.
      * intros k'. case_decide as Hk; [|done]. destruct Hk as [-> _]. done.
Qed.

Lemma load_all_decodes (keys : list string) : ∀ self,
  NoDup keys →
  (∀ k node, k ∈ keys → _pending_nodes self !! k = Some node → _loaded self !! k = None →
             is_Some (decoded loader_func node)) →
  ∃ self',
    _load_all loader_func self keys = (None, self')
    ∧ _order self' = _order self
    ∧ (∀ k, _loaded self' !! k =
            if decide (k ∈ keys)
            then match _loaded self !! k with
                 | Some o => Some o
                 | None => _pending_nodes self !! k ≫= decoded loader_func
                 end
            else _loaded self !! k)
    ∧ (∀ k, _pending_nodes self' !! k =
            if decide (k ∈ keys ∧ _loaded self !! k = None) then None
            else _pending_nodes self !! k).
Proof.
  induction keys as [|k keys IH]; intros self Hnd Hdec.
  - exists self. split; [done|]. split; [done|]. split.
    + intros k. rewrite decide_False; [done|]. apply not_elem_of_nil.
    + intros k. rewrite decide_False; [done|]. intros [?%elem_of_nil _]. done.
  - apply NoDup_cons in Hnd as [Hk Hnd].
    destruct (load_item_decodes self k) as (v & self1 & Hstep & Ho1 & Hl1 & Hp1).
    { intros node. apply Hdec. left. }
    cbn [_load_all]. rewrite Hstep.
    destruct (IH self1 Hnd) as (self2 & Hall & Ho2 & Hl2 & Hp2).
    { intros k' node Hk' Hp Hl. assert (k' ≠ k) by (by intros ->).
      rewrite Hp1 in Hp. rewrite decide_False in Hp by (by intros [? _]).
      rewrite Hl1 in Hl. rewrite decide_False in Hl by done.
      apply (Hdec k'); [by right|done|done]. }
    exists self2. split; [done|]. split; [congruence|]. split.
    + intros k'. rewrite Hl2. destruct (decide (k' = k)) as [->|Hne].
      * rewrite (decide_False (P := k ∈ keys)) by done.
        rewrite (decide_True (P := k ∈ k :: keys)) by left.
        rewrite Hl1. by rewrite decide_True.
      * rewrite Hl1, Hp1. rewrite (decide_False (P := k' = k)) by done.
        rewrite (decide_False (P := k' = k ∧ _)) by (by intros [? _]).
        destruct (decide (k' ∈ keys)) as [Hin|Hin].
        -- by rewrite (decide_True (P := k' ∈ k :: keys)) by by right.
        -- rewrite (decide_False (P := k' ∈ k :: keys)); [done|].
           by intros [?|?]%elem_of_cons.
    + intros k'. rewrite Hp2. destruct (decide (k' = k)) as [->|Hne].
      * rewrite (decide_False (P := k ∈ keys ∧ _)) by (by intros [? _]).
        rewrite Hp1. destruct (_loaded self !! k) as [o|] eqn:Hl.
        -- rewrite !decide_False; [done|by intros [_ ?]|by intros [_ ?]].
        -- rewrite !decide_True; [done|by split; [left|]|done].
      * rewrite Hl1, Hp1. rewrite (decide_False (P := k' = k)) by done.
        rewrite (decide_False (P := k' = k ∧ _)) by (by intros [? _]).
        destruct (decide (k' ∈ keys ∧ _loaded self !! k' = None)) as [[Hin Hl]|Hn].
        -- by rewrite decide_True by (by split; [right|]).
        -- rewrite decide_False; [done|]. intros [[?|?]%elem_of_cons ?]; [done|].
           by apply Hn.
Qed.

(** X10: when every node still to be decoded decodes, [_load_all]
    returns; it leaves the order of the collection as it was, every
    identity that was loaded with the object it had, every other pending
    identity loaded with the object its node decodes to, and nothing
    pending but the nodes that an appended object of the same identity
    shadows, which it does not decode. *)
Theorem load_all_materialises (self : lazy_list) (keys : list string) :
  pending_keys self keys →
  (∀ k node, _pending_nodes self !! k = Some node → _loaded self !! k = None →
             is_Some (decoded loader_func node)) →
  ∃ self',
    _load_all loader_func self keys = (None, self')
    ∧ _order self' = _order self
    ∧ (∀ k, _loaded self' !! k =
            match _loaded self !! k with
            | Some o => Some o
            | None => _pending_nodes self !! k ≫= decoded loader_func
            end)
    ∧ (∀ k, _pending_nodes self' !! k =
            match _loaded self !! k with
            | Some _ => _pending_nodes self !! k
            | None => None
            end).
Proof.
  intros [Hnd Hkeys] Hdec.
  destruct (load_all_decodes keys self Hnd) as (self' & Hall & Ho & Hl & Hp).
  { intros k node _. apply Hdec. }
  exists self'. split; [done|]. split; [done|]. split.
  - intros k. rewrite Hl. case_decide as Hk; [done|].
    destruct (_loaded self !! k); [done|].
    destruct (_pending_nodes self !! k) eqn:Hpk; [|done].
    exfalso. apply Hk, Hkeys. by rewrite Hpk.
  - intros k. rewrite Hp. destruct (_loaded self !! k) as [o|] eqn:Hlk.
    + rewrite decide_False; [done|]. by intros [_ ?].
    + case_decide as Hk; [done|].
      destruct (_pending_nodes self !! k) eqn:Hpk; [|done].
      exfalso. apply Hk. split; [|done]. apply Hkeys. by rewrite Hpk.
Qed.

Lemma load_all_app (keys1 keys2 : list string) : ∀ self,
  _load_all loader_func self (keys1 ++ keys2) =
    match _load_all loader_func self keys1 with
    | (Some e, self') => (Some e, self')
    | (None, self') => _load_all loader_func self' keys2
    end.
Proof.
  induction keys1 as [|k keys1 IH]; intros self; [done|].
  cbn [app _load_all].
  destruct (_load_item loader_func self k) as [[e|v] self']; [done|]. apply IH.
Qed.

(** X11: [_load_all] stops at the first key whose node the decoder
    rejects and lets the exception through.  The keys before it have been
    materialised: one that was pending and not loaded is loaded with the
    object decoded from its node and no longer pending, one that was
    loaded keeps its object; the key itself is lost, neither pending nor
    loaded; the keys after it are as they were, and so is the order of
    the collection. *)
Theorem load_all_stops_at_first_failure (self : lazy_list) (before after : list string)
    (k : string) (node : xmlnode) (e : exn) :
  NoDup (before ++ k :: after) →
  (∀ k' node', k' ∈ before → _pending_nodes self !! k' = Some node' →
               _loaded self !! k' = None → is_Some (decoded loader_func node')) →
  _loaded self !! k = None →
  _pending_nodes self !! k = Some node →
  loader_func node = inl e →
  ∃ self',
    _load_all loader_func self (before ++ k :: after) = (Some e, self')
    ∧ lost k self'
    ∧ _order self' = _order self
    ∧ (∀ k', k' ∈ before →
             _loaded self' !! k' = match _loaded self !! k' with
                                   | Some o => Some o
                                   | None => _pending_nodes self !! k' ≫= decoded loader_func
                                   end
             ∧ (_loaded self !! k' = None → _pending_nodes self' !! k' = None))
    ∧ (∀ k', k' ∈ after →
             _pending_nodes self' !! k' = _pending_nodes self !! k'
             ∧ _loaded self' !! k' = _loaded self !! k').
Proof.
  intros Hnd Hdec Hl Hp He.
  apply NoDup_app in Hnd as (Hnd1 & Hdisj & Hnd2).
  apply NoDup_cons in Hnd2 as [Hk _].
  destruct (load_all_decodes before self Hnd1 Hdec) as (self1 & Hall & Ho1 & Hl1 & Hp1).
  assert (Hkb : k ∉ before) by (intros Hin; apply (Hdisj k Hin); left).
  assert (Hl1k : _loaded self1 !! k = None) by (rewrite Hl1, decide_False; done).
  assert (Hp1k : _pending_nodes self1 !! k = Some node).
  { rewrite Hp1, decide_False; [done|]. by intros [? _]. }
  rewrite load_all_app, Hall. cbn [_load_all]. unfold _load_item.
  rewrite Hl1k, Hp1k, He.
  eexists. split; [reflexivity|]. cbn. split; [|split; [|split]].
  - split; cbn; [apply lookup_delete_eq|done].
  - done.
  - intros k' Hin. assert (k' ≠ k) by (by intros ->). split.
    + rewrite Hl1. by rewrite decide_True.
    + intros Hlk. rewrite lookup_delete_ne by done. rewrite Hp1.
      by rewrite decide_True.
  - intros k' Hin. assert (k' ≠ k) by (by intros ->).
    assert (k' ∉ before) by (intros Hb; apply (Hdisj k' Hb); by right).
    rewrite lookup_delete_ne by done. rewrite Hp1, Hl1.
    rewrite !decide_False; [done|done|by intros [? _]].
Qed.

(** X12: a node is decoded at most once.  After [get] has returned the
    object of an identity of the collection, every later [get],
    [self[key]] and [_load_item] for that identity returns the same object
    and leaves the collection as it is, whatever the decoder would do and
    whatever default is given. *)
Theorem decoded_at_most_once (self self' : lazy_list) (key : string)
    (default : option pyobj) (obj : pyobj) :
  __contains__ self key = true →
  get loader_func self key default = (inr (Some obj), self') →
  ∀ (loader_func' : xmlnode → exn + pyobj) (default' : option pyobj),
    get loader_func' self' key default' = (inr (Some obj), self')
    ∧ __getitem__ loader_func' self' (IndexedList.SKey key) = (inr (Some obj), self')
    ∧ _load_item loader_func' self' key = (inr (Some obj), self').
Proof.
  intros Hin Hget.
  assert (Hl : _loaded self' !! key = Some obj).
  { unfold get in Hget. destruct (_loaded self !! key) as [o|] eqn:Hlk.
    - by injection Hget as <- <-.
    - unfold __contains__ in Hin. rewrite Hlk in Hin.
      rewrite (bool_decide_eq_false_2 (is_Some None)) in Hin by by intros [? ?].
      cbn [orb] in Hin. rewrite Hin in Hget.
      unfold _load_item in Hget. rewrite Hlk in Hget.
      destruct (_pending_nodes self !! key) as [node|]; [|done].
      destruct (loader_func node) as [e|o]; [done|].
      injection Hget as <- <-. cbn. apply lookup_insert_eq. }
  intros loader_func' default'. cbn [__getitem__]. unfold get, _load_item.
  by rewrite Hl.
Qed.

(** X13: an integer subscript of a [LazyIndexedList] outside
    [-len, len) raises [IndexError] and decodes nothing; a negative one
    within it counts from the end; one within [0, len) materialises the
    identity at that place of the insertion order. *)
Theorem lazy_subscript_bounds (self : lazy_list) (i : Z) :
  let n := Z.of_nat (__len__ self) in
  (¬ (- n ≤ i < n)%Z →
   __getitem__ loader_func self (IndexedList.SPos i) = (inl IndexError, self))
  ∧ ((- n ≤ i < 0)%Z →
     __getitem__ loader_func self (IndexedList.SPos i)
     = __getitem__ loader_func self (IndexedList.SPos (n + i)))
  ∧ ((0 ≤ i < n)%Z →
     ∃ obj_id, _order self !! Z.to_nat i = Some obj_id
               ∧ __getitem__ loader_func self (IndexedList.SPos i)
                 = _load_item loader_func self obj_id).
Proof.
  intros n. subst n. unfold __len__. cbn [__getitem__]. unfold __len__.
  set (n := Z.of_nat (length (_order self))). lazy zeta.
  split; [|split].
  - intros Hr. destruct (decide (i < 0)%Z) as [Hi|Hi].
    + assert (H0 : (i <? 0)%Z = true) by lia.
      assert (H1 : (n + i <? 0)%Z = true) by lia.
      rewrite !H0. lazy beta iota. rewrite ?H1. reflexivity.
    + assert (H0 : (i <? 0)%Z = false) by lia.
      assert (H1 : (n <=? i)%Z = true) by lia.
      rewrite !H0. lazy beta iota. rewrite ?H0, ?H1. reflexivity.
  - intros Hr.
    assert (H0 : (i <? 0)%Z = true) by lia.
    assert (H1 : (n + i <? 0)%Z = false) by lia.
    rewrite !H0. lazy beta iota. rewrite ?H1. lazy beta iota. rewrite ?H1.
    reflexivity.
  - intros Hr.
    assert (H0 : (i <? 0)%Z = false) by lia.
    assert (H1 : (n <=? i)%Z = false) by lia.
    rewrite !H0. lazy beta iota. rewrite ?H0, ?H1. cbn [orb].
    destruct (_order self !! Z.to_nat i) as [obj_id|] eqn:Ho.
    + by exists obj_id.
    + apply lookup_ge_None in Ho. lia.
Qed.

(** What an access keeps: the objects that pass the containment test
    still pass it, and every loaded object passes it. *)
Lemma load_item_contained (self : lazy_list) (k : string) :
  let self' := (_load_item loader_func self k).2 in
  _loaded_objects self ⊆ _loaded_objects self'
  ∧ (loaded_are_contained self → loaded_are_contained self').
Proof.
  unfold _load_item, loaded_are_contained, contains_object.
  destruct (_loaded self !! k) as [o|]; [done|].
  destruct (_pending_nodes self !! k) as [node|]; [|done].
  destruct (loader_func node) as [e|obj]; cbn; [done|].
  split; [set_solver|]. intros Hinv k' o.
  destruct (decide (k' = k)) as [->|Hne].
  - rewrite lookup_insert_eq. intros [= <-]. apply bool_decide_eq_true_2. set_solver.
  - rewrite lookup_insert_ne by done. intros Hk.
    specialize (Hinv _ _ Hk). apply bool_decide_eq_true_1 in Hinv.
    apply bool_decide_eq_true_2. set_solver.
Qed.

Lemma iter_from_contained (ids : list string) : ∀ self,
  let self' := (iter_from loader_func self ids).2 in
  _loaded_objects self ⊆ _loaded_objects self'
  ∧ (loaded_are_contained self → loaded_are_contained self').
Proof.
  induction ids as [|k ids IH]; intros self; [done|].
  cbn [iter_from].
  pose proof (load_item_contained self k) as [H1 H2].
  destruct (_load_item loader_func self k) as [[e|v] self1]; cbn [snd] in *; [done|].
  specialize (IH self1). destruct (iter_from loader_func self1 ids) as [[vs e] self2].
  cbn [snd] in *. destruct IH as [H3 H4]. split; [set_solver|auto].
Qed.

Lemma apply_op_contained (self : lazy_list) (op : operation) :
  let self' := apply_op loader_func self op in
  _loaded_objects self ⊆ _loaded_objects self'
  ∧ (loaded_are_contained self → loaded_are_contained self').
Proof.
  destruct op as [node|obj|key default|[k|i]|]; cbn [apply_op].
  - unfold add_node. destruct (node_get node "id") as [obj_id|]; [|done].
    case_bool_decide; done.
  - unfold append, loaded_are_contained, contains_object. cbn.
    split; [set_solver|]. intros Hinv k' o.
    destruct (decide (k' = oid obj)) as [->|Hne].
    + rewrite lookup_insert_eq. intros [= <-]. apply bool_decide_eq_true_2. set_solver.
    + rewrite lookup_insert_ne by done. intros Hk.
      specialize (Hinv _ _ Hk). apply bool_decide_eq_true_1 in Hinv.
      apply bool_decide_eq_true_2. set_solver.
  - unfold get. destruct (_loaded self !! key); [done|].
    case_bool_decide; [apply load_item_contained|done].
  - cbn [__getitem__]. unfold get. destruct (_loaded self !! k); [done|].
    case_bool_decide; [apply load_item_contained|done].
  - cbn [__getitem__]. destruct (_ || _); [done|].
    destruct (_order self !! _); [apply load_item_contained|done].
  - apply iter_from_contained.
Qed.

Lemma run_contained (ops : list operation) : ∀ self,
  let self' := run loader_func ops self in
  _loaded_objects self ⊆ _loaded_objects self'
  ∧ (loaded_are_contained self → loaded_are_contained self').
Proof.
  induction ops as [|op ops IH]; intros self; [done|].
  unfold run. cbn [foldl].
  pose proof (apply_op_contained self op) as [H1 H2].
  destruct (IH (apply_op loader_func self op)) as [H3 H4].
  unfold run in H3, H4. split; [set_solver|auto].
Qed.

(** X14: the containment test for objects, [item in self], is kept up
    by every operation: after any run of registrations, appends and
    accesses on a new collection, each object the collection has loaded
    passes it, and an object that passes it goes on passing it through
    whatever operations follow. *)
Theorem loaded_objects_stay_contained (ops more : list operation) :
  let self := run loader_func ops __init__ in
  loaded_are_contained self
  ∧ ∀ item, contains_object self item = true →
            contains_object (run loader_func more self) item = true.
Proof.
  intros self. split.
  - apply run_contained. intros k o. cbn [__init__ _loaded]. by rewrite lookup_empty.
  - intros item Hin. unfold contains_object in *.
    apply bool_decide_eq_true_1 in Hin. apply bool_decide_eq_true_2.
    by apply (run_contained more self).
Qed.

End LazyLoadingFacts.

Section LazyLoadingExamples.
Import Errors Tree LazyIndexedList LazyLoading.

Lemma decoded_at_most_once_witness :
  let node := XmlNode 1 "geometry" [("id", "a")] [] in
  let obj := PyObj 7 "a" node in
  let loader := λ _ : xmlnode, inr obj : exn + pyobj in
  let failing := λ _ : xmlnode, inl KeyError : exn + pyobj in
  let self := add_node __init__ node in
  let self' := (get loader self "a" None).2 in
  get failing self' "a" None = (inr (Some obj), self')
  ∧ __getitem__ failing self' (IndexedList.SKey "a") = (inr (Some obj), self')
  ∧ _load_item failing self' "a" = (inr (Some obj), self').
Proof.
  intros node obj loader failing self self'.
  apply (decoded_at_most_once loader self self' "a" None obj).
  - vm_compute. reflexivity.
  - vm_compute. reflexivity.
Defined.

Lemma pending_keys_registered (node : xmlnode) (obj_id : string) :
  node_get node "id" = Some obj_id → obj_id ≠ "" →
  pending_keys (add_node __init__ node) [obj_id]
  ∧ _pending_nodes (add_node __init__ node) = {[obj_id := node]}
  ∧ _loaded (add_node __init__ node) = ∅.
Proof.
  intros Hid Hne. unfold add_node. rewrite Hid.
  rewrite bool_decide_eq_false_2 by done. cbn.
  split; [|done]. split; [apply NoDup_singleton|].
  intros k. rewrite list_elem_of_singleton. cbn.
  rewrite lookup_insert_is_Some, lookup_empty. split.
  - intros ->. by left.
  - intros [->|[_ [? ?]]]; done.
Qed.

Lemma load_all_materialises_witness :
  let node := XmlNode 1 "geometry" [("id", "a")] [] in
  let obj := PyObj 7 "a" node in
  let loader := λ _ : xmlnode, inr obj : exn + pyobj in
  let self := add_node __init__ node in
  ∃ self',
    _load_all loader self ["a"] = (None, self')
    ∧ _order self' = _order self
    ∧ (∀ k, _loaded self' !! k =
            match _loaded self !! k with
            | Some o => Some o
            | None => _pending_nodes self !! k ≫= decoded loader
            end)
    ∧ (∀ k, _pending_nodes self' !! k =
            match _loaded self !! k with
            | Some _ => _pending_nodes self !! k
            | None => None
            end).
Proof.
  intros node obj loader self.
  apply (load_all_materialises loader self ["a"]).
  - apply (pending_keys_registered node "a"); [reflexivity|discriminate].
  - intros k n _ _. by exists obj.
Defined.

Lemma load_all_stops_at_first_failure_witness :
  let na := XmlNode 1 "geometry" [("id", "a")] [] in
  let nb := XmlNode 2 "geometry" [("id", "b")] [] in
  let nc := XmlNode 3 "geometry" [("id", "c")] [] in
  let e := DaeExn (MkError DaeMalformedError "no mesh") in
  let loader := λ n : xmlnode,
    if bool_decide (xref n = 2%nat) then inl e
    else inr (PyObj (10 + xref n) "" n) : exn + pyobj in
  let self := add_node (add_node (add_node __init__ na) nb) nc in
  ∃ self',
    _load_all loader self (["a"] ++ "b" :: ["c"]) = (Some e, self')
    ∧ lost "b" self'
    ∧ _order self' = _order self
    ∧ (∀ k', k' ∈ ["a"] →
             _loaded self' !! k' = match _loaded self !! k' with
                                   | Some o => Some o
                                   | None => _pending_nodes self !! k' ≫= decoded loader
                                   end
             ∧ (_loaded self !! k' = None → _pending_nodes self' !! k' = None))
    ∧ (∀ k', k' ∈ ["c"] →
             _pending_nodes self' !! k' = _pending_nodes self !! k'
             ∧ _loaded self' !! k' = _loaded self !! k').
Proof.
  intros na nb nc e loader self.
  apply (load_all_stops_at_first_failure loader self ["a"] ["c"] "b" nb e).
  - apply (bool_decide_unpack _). vm_compute. exact I.
  - intros k' node' ->%list_elem_of_singleton Hp _.
    vm_compute in Hp. injection Hp as <-. by eexists.
  - reflexivity.
  - vm_compute. reflexivity.
  - reflexivity.
Defined.

End LazyLoadingExamples.

(** ** The library loaders under a mask, and in the lazy mode *)

Section LibraryLoadFacts.
Import Errors Tree ElementTree Document Loading.
Variable maskedErrors : list mask_entry.
Variable qualifies : xmlnode → bool.
Variable decode : xmlnode → (exn + pyobj) * list dae_error.

Lemma omap_cons_match {A B} (f : A → option B) (x : A) (l : list A) :
  omap f (x :: l) = match f x with
                    | Some y => y :: omap f l
                    | None => omap f l
                    end.
Proof. done. Qed.

Lemma load_items_full_mask (before : list dae_kind) (after : list mask_entry)
    (nodes : list xmlnode) : ∀ st,
  maskedErrors = (MKind <$> before) ++ MKind DaeError :: after →
  (∀ n e, (decode n).1 = inl e → ∃ ex, e = DaeExn ex) →
  load_items maskedErrors qualifies decode st nodes
  = (None, (foldl IndexedList.append st.1 (omap (loaded qualifies decode) nodes),
            st.2 ++ (nodes ≫= recorded qualifies decode))).
Proof.
  intros st Hmask Hdae. revert st.
  induction nodes as [|node rest IH]; intros st.
  - cbn. rewrite app_nil_r. by destruct st.
  - cbn [load_items mbind list_bind]. rewrite !omap_cons_match.
    unfold load_item, loaded, recorded at 1.
    destruct (qualifies node); cbn [negb]; [|apply IH].
    destruct (decode node).1 as [e|obj] eqn:Hd.
    + destruct (Hdae _ _ Hd) as [ex ->].
      pose proof (root_kind_masks_everything (st.2 ++ (decode node).2) before after ex)
        as Hsw.
      rewrite <- Hmask in Hsw. unfold handleError in Hsw |- *. cbn [snd] in Hsw.
      destruct (any_isinstance (err_kind ex) maskedErrors); [|done|done].
      rewrite IH. cbn [fst snd foldl]. by rewrite <- !app_assoc.
    + rewrite IH. cbn [fst snd foldl]. by rewrite app_nil_r, <- !app_assoc.
Qed.

(** X15: under a mask that holds the root kind [DaeError] behind
    classes only, a uniform library loader whose decoder raises nothing
    but [DaeError]s does not raise.  It adds to the collection the objects
    of the nodes that decode, in document order.  Each qualifying node
    yields an object or fails with an error, never both, and leaves in
    [errors], in document order, what the decoder has recorded while it
    decoded the node, followed by the error it failed with: a node that
    yields an object can leave errors too, and an error that the decoder
    has already passed to [handleError] is recorded a second time. *)
Theorem library_load_under_full_mask (before : list dae_kind) (after : list mask_entry)
    (libname childname : string) (root : xmlnode)
    (st : IndexedList.indexed_list * list dae_error) :
  maskedErrors = (MKind <$> before) ++ MKind DaeError :: after →
  (∀ n e, (decode n).1 = inl e → ∃ ex, e = DaeExn ex) →
  let nodes := entities childname (findall libname (xchildren root)) in
  _loadLibrary maskedErrors qualifies decode libname childname root st
  = (None, (foldl IndexedList.append st.1 (omap (loaded qualifies decode) nodes),
            st.2 ++ (nodes ≫= recorded qualifies decode)))
  ∧ length (omap (loaded qualifies decode) nodes)
    + length (omap (failure qualifies decode) nodes)
    = length (filter (λ n, qualifies n = true) nodes)
  ∧ (∀ n, n ∈ nodes →
          recorded qualifies decode n
          = if qualifies n
            then (decode n).2 ++ match failure qualifies decode n with
                                 | Some ex => [ex]
                                 | None => []
                                 end
            else [])
  ∧ (∀ n, n ∈ nodes → is_Some (loaded qualifies decode n) →
          failure qualifies decode n = None).
Proof.
  intros Hmask Hdae nodes. split; [|split; [|split]].
  - unfold _loadLibrary. rewrite load_containers_entities.
    by apply (load_items_full_mask before after).
  - induction nodes as [|node rest IH]; [done|].
    rewrite !omap_cons_match, filter_cons. unfold loaded at 1, failure at 1.
    destruct (qualifies node).
    + rewrite decide_True by done. destruct (decode node).1 as [e|obj] eqn:Hd.
      * destruct (Hdae _ _ Hd) as [ex ->]. cbn [length]. lia.
      * cbn [length]. lia.
    + rewrite decide_False by done. exact IH.
  - intros n _. unfold recorded, failure. destruct (qualifies n); [|done].
    by destruct (decode n).1 as [[]|].
  - intros n _. unfold loaded, failure. destruct (qualifies n); [|by intros [? ?]].
    destruct (decode n).1; [by intros [? ?]|done].
Qed.


End LibraryLoadFacts.

Section LazyLibraryFacts.
Import Errors Tree ElementTree Document Loading LazyIndexedList.
Variable maskedErrors : list mask_entry.
Variable qualifies : xmlnode → bool.
Variable decode : xmlnode → (exn + pyobj) * list dae_error.

Lemma add_node_node_id (self : lazy_list) (node : xmlnode) :
  add_node self node =
    match node_id node with
    | Some obj_id =>
        MkLazyList (<[obj_id := node]> (_pending_nodes self)) (_loaded self)
                   (_loaded_objects self) (_order self ++ [obj_id])
    | None => self
    end.
Proof.
  unfold add_node, node_id. destruct (node_get node "id"); [|done].
  by case_bool_decide.
Qed.

Lemma register_items_filter (nodes : list xmlnode) : ∀ l,
  register_items qualifies l nodes
  = foldl add_node l (filter (λ n, qualifies n = true) nodes).
Proof.
  induction nodes as [|node rest IH]; intros l; [done|].
  unfold register_items in *. cbn [foldl]. rewrite filter_cons.
  destruct (qualifies node).
  - rewrite decide_True by done. apply IH.
  - rewrite decide_False by done. apply IH.
Qed.

Lemma register_containers_entities (childname : string) (libnodes : list xmlnode) : ∀ l,
  register_containers qualifies childname l libnodes
  = foldl add_node l (filter (λ n, qualifies n = true) (entities childname libnodes)).
Proof.
  induction libnodes as [|libnode rest IH]; intros l; [done|].
  unfold register_containers in *. cbn [foldl]. rewrite IH.
  unfold entities. cbn [mbind list_bind]. rewrite filter_app, foldl_app.
  by rewrite register_items_filter.
Qed.

(** Registering nodes with pairwise different identities. *)
Lemma foldl_add_node_keeps (nodes : list xmlnode) : ∀ l k,
  k ∉ omap node_id nodes →
  _pending_nodes (foldl add_node l nodes) !! k = _pending_nodes l !! k.
Proof.
  induction nodes as [|node rest IH]; intros l k Hk; [done|].
  cbn [foldl]. rewrite omap_cons_match in Hk. rewrite add_node_node_id.
  destruct (node_id node) as [obj_id|].
  - apply not_elem_of_cons in Hk as [Hne Hk]. rewrite IH by done.
    cbn. by rewrite lookup_insert_ne.
  - by apply IH.
Qed.

Lemma foldl_add_node_registers (nodes : list xmlnode) : ∀ l,
  NoDup (omap node_id nodes) →
  let l' := foldl add_node l nodes in
  _order l' = _order l ++ omap node_id nodes
  ∧ _loaded l' = _loaded l
  ∧ ∀ n obj_id, n ∈ nodes → node_id n = Some obj_id →
                _pending_nodes l' !! obj_id = Some n.
Proof.
  induction nodes as [|node rest IH]; intros l Hnd l'.
  - subst l'. cbn. rewrite app_nil_r. split; [done|]. split; [done|].
    by intros n obj_id ?%elem_of_nil.
  - subst l'. cbn [foldl]. rewrite omap_cons_match in Hnd |- *.
    rewrite add_node_node_id.
    destruct (node_id node) as [k|] eqn:Hk.
    + apply NoDup_cons in Hnd as [Hfresh Hnd].
      destruct (IH (MkLazyList (<[k := node]> (_pending_nodes l)) (_loaded l)
                      (_loaded_objects l) (_order l ++ [k])) Hnd) as (I1 & I2 & I3).
      split; [rewrite I1; cbn; by rewrite <- app_assoc|]. split; [done|].
      intros n obj_id [->|Hin]%elem_of_cons Hn.
      * assert (obj_id = k) as -> by congruence.
        rewrite foldl_add_node_keeps by done. cbn. apply lookup_insert_eq.
      * by apply I3.
    + destruct (IH l Hnd) as (I1 & I2 & I3). split; [done|]. split; [done|].
      intros n obj_id [->|Hin]%elem_of_cons Hn; [congruence|]. by apply I3.
Qed.

(** Iterating over identities whose nodes are pending and decode. *)
Lemma iter_from_pending (nodes : list xmlnode) : ∀ self,
  NoDup (omap node_id nodes) →
  Forall (λ n, ∃ obj_id obj,
            node_id n = Some obj_id ∧ loader_of decode n = inr obj
            ∧ _pending_nodes self !! obj_id = Some n
            ∧ _loaded self !! obj_id = None) nodes →
  ∃ self',
    iter_from (loader_of decode) self (omap node_id nodes)
    = (Some <$> omap (LazyLoading.decoded (loader_of decode)) nodes, None, self').
Proof.
  induction nodes as [|node rest IH]; intros self Hnd Hall.
  - by exists self.
  - apply Forall_cons in Hall as [(k & obj & Hk & Hd & Hp & Hl) Hall].
    rewrite !omap_cons_match in *. rewrite Hk in *.
    apply NoDup_cons in Hnd as [Hfresh Hnd].
    unfold LazyLoading.decoded at 1. rewrite Hd.
    cbn [iter_from fmap list_fmap]. unfold _load_item. rewrite Hl, Hp, Hd.
    cbn [_pending_nodes _loaded _loaded_objects _order].
    destruct (IH (MkLazyList (delete k (_pending_nodes self)) (<[k := obj]> (_loaded self))
                    ({[oref obj]} ∪ _loaded_objects self) (_order self)) Hnd)
      as [self' Hit]; [|rewrite Hit; by exists self'].
    rewrite Forall_forall in Hall |- *. cbn.
    intros n Hin. destruct (Hall n Hin) as (k' & obj' & Hk' & Hd' & Hp' & Hl').
    assert (k' ≠ k).
    { intros ->. apply Hfresh. apply list_elem_of_omap. by exists n. }
    exists k', obj'. split; [done|]. split; [done|].
    by rewrite lookup_delete_ne, lookup_insert_ne.
Qed.

(** X17: the lazy mode agrees with the eager one on a library whose
    qualifying nodes carry pairwise different, non-empty ids and all
    decode, whatever the decoder records in [errors] meanwhile.  The lazy loader decodes nothing and registers these nodes:
    the length of its collection is their number.  Iterating over the
    collection then yields, in document order, the objects the eager
    loader puts in its collection. *)
Theorem lazy_library_matches_eager (libname childname : string) (root : xmlnode)
    (errors : list dae_error) :
  let nodes := filter (λ n, qualifies n = true)
                 (entities childname (findall libname (xchildren root))) in
  Forall (λ n, is_Some (node_id n) ∧ is_Some (LazyLoading.decoded (loader_of decode) n)) nodes →
  NoDup (omap node_id nodes) →
  let l := _loadLazyLibrary qualifies libname childname root in
  ∃ objs coll errors' l',
    objs = omap (LazyLoading.decoded (loader_of decode)) nodes
    ∧ _loadLibrary maskedErrors qualifies decode libname childname root
        (IndexedList.__init__ [], errors) = (None, (coll, errors'))
    ∧ IndexedList.il_items coll = objs
    ∧ __len__ l = length objs
    ∧ __iter__ (loader_of decode) l = (Some <$> objs, None, l').
Proof.
  intros nodes Hall Hnd l. subst l. unfold _loadLazyLibrary.
  rewrite register_containers_entities. fold nodes.
  destruct (foldl_add_node_registers nodes __init__ Hnd) as (Ho & Hl & Hp).
  set (l := foldl add_node __init__ nodes) in *.
  assert (Hids : length (omap node_id nodes) = length nodes
                 ∧ length (omap (LazyLoading.decoded (loader_of decode)) nodes) = length nodes).
  { clear -Hall. induction Hall as [|n ns [[k Hk] [o Hd]] _ IH]; [done|].
    rewrite !omap_cons_match, Hk, Hd. cbn. lia. }
  destruct (iter_from_pending nodes l Hnd) as [l' Hit].
  { rewrite Forall_forall in Hall |- *. intros n Hin.
    destruct (Hall n Hin) as [[k Hk] [o Hd]]. exists k, o.
    split; [done|]. split.
    - unfold LazyLoading.decoded in Hd. by destruct (loader_of decode n) as [|o']; simplify_eq.
    - split; [by apply Hp|]. by rewrite Hl. }
  set (all := entities childname (findall libname (xchildren root))) in *.
  assert (Hpass : Forall (passes maskedErrors qualifies decode) all).
  { rewrite Forall_forall in Hall |- *. intros n Hin. unfold passes.
    destruct (qualifies n) eqn:Hq; [|by left]. right. left.
    destruct (Hall n) as [_ [o Hd]]; [by apply list_elem_of_filter|].
    unfold LazyLoading.decoded, loader_of in Hd.
    destruct (decode n).1 as [|o']; [done|]. by eexists. }
  destruct (load_items_returns maskedErrors qualifies decode all
              (IndexedList.__init__ [], errors) Hpass) as [errors' Hload].
  exists (omap (LazyLoading.decoded (loader_of decode)) nodes). eexists _, errors', l'.
  split; [done|]. split.
  { unfold _loadLibrary. rewrite load_containers_entities. exact Hload. }
  split.
  { rewrite il_items_foldl_append. cbn [fst IndexedList.il_items IndexedList.__init__ app].
    subst nodes. clear. induction all as [|n all IH]; [done|].
    rewrite omap_cons_match, filter_cons. unfold loaded at 1.
    destruct (qualifies n).
    - rewrite decide_True by done. rewrite omap_cons_match.
      unfold LazyLoading.decoded at 1, loader_of at 1.
      destruct (decode n).1; by rewrite IH.
    - by rewrite decide_False by done. }
  split.
  { unfold __len__. rewrite Ho. cbn. lia. }
  unfold __iter__. rewrite Ho. exact Hit.
Qed.

End LazyLibraryFacts.

(** ** The default scene through [save] and [_loadDefaultScene] *)

Section DefaultSceneFacts.
Import Errors Tree ElementTree Document Loading.







(** X19: a document whose tree has no [scene] element cannot be saved:
    once the loop over the libraries has run to its end, [save] raises
    [AttributeError], whether a default scene is set or not. *)
Theorem save_without_scene_element_raises (impl : implementation) (self : collada) :
  xtag (assetInfo_xmlnode self) ≠ "scene" →
  find "scene" (xchildren (xmlroot self)) = None →
  libraries_saved impl self →
  (save impl self).1 = Some AttributeError.
Proof.
  intros Htag Hnone Hlibs. unfold libraries_saved in Hlibs. unfold save.
  pose proof (save_asset_frame self "scene") as Hasset.
  destruct (save_asset self) as [self1 library_loc]. cbn [fst snd] in *.
  pose proof (save_libraries_leaves impl library_loc libraries self1) as (L1 & _).
  destruct (save_libraries impl library_loc self1 libraries) as [[e|] self2];
    cbn [fst snd] in *; [done|].
  assert (Hf : find "scene" (xchildren (xmlroot self2)) = None).
  { rewrite find_head_findall, L1 by reflexivity.
    rewrite Hasset by done. by rewrite (findall_nil_find _ _ Hnone). }
  unfold save_scene. by rewrite Hf.
Qed.

Lemma save_libraries_without_validator (impl : implementation) (library_loc : nat)
    (libs : list library) : ∀ self,
  save_libraries impl library_loc (without_validator self) libs
  = ((save_libraries impl library_loc self libs).1,
     without_validator (save_libraries impl library_loc self libs).2).
Proof.
  induction libs as [|lib rest IH]; intros self; [done|].
  cbn [save_libraries].
  assert (Harr : library_arr (without_validator self) lib = library_arr self lib)
    by (by destruct lib).
  rewrite Harr. cbn [xmlroot next_ref without_validator].
  set (r := save_library impl library_loc (xchildren (xmlroot self)) (next_ref self)
              (library_arr self lib) (library_name lib)).
  destruct (raised r) as [e|]; [done|].
  apply (IH (set_library_arr
               (set_tree self (with_children (xmlroot self) (root_children r))
                  (round_next_ref r)) lib (arr_after r))).
Qed.

(** X20: the validator is asked last, about the tree [save] has
    finished rewriting.  With a validator, [save] leaves the tree that it
    leaves without one, and raises what it raises without one; when that
    is nothing, it raises the validation error exactly when the validator
    rejects that tree. *)
Theorem save_validates_last (impl : implementation) (self : collada) :
  let plain := save impl (without_validator self) in
  xmlroot (save impl self).2 = xmlroot plain.2
  ∧ (save impl self).1 =
      match plain.1, validator self with
      | Some e, _ => Some e
      | None, None => None
      | None, Some validate =>
          match validate (xmlroot plain.2) with
          | None => None
          | Some diagnostic =>
              Some (DaeExn (MkError DaeSaveValidationError
                      ("Validation error when saving: " +:+ diagnostic)))
          end
      end.
Proof.
  intros plain. subst plain. unfold save.
  change (save_asset (without_validator self))
    with (without_validator (save_asset self).1, (save_asset self).2).
  destruct (save_asset self) as [self1 library_loc] eqn:Ha. cbn [fst snd].
  assert (Hv1 : validator self1 = validator self).
  { apply (f_equal fst) in Ha. cbn in Ha. by subst self1. }
  rewrite save_libraries_without_validator.
  pose proof (save_libraries_leaves impl library_loc libraries self1) as (_ & _ & _ & L4 & _).
  destruct (save_libraries impl library_loc self1 libraries) as [[e|] self2];
    cbn [fst snd] in *; [done|].
  assert (Hscene : save_scene (without_validator self2)
                   = ((save_scene self2).1, without_validator (save_scene self2).2)).
  { unfold save_scene. cbn [xmlroot without_validator scene scenes next_ref].
    destruct (find "scene" _); [|done]. destruct (scene self2); [|done].
    by destruct (negb _). }
  rewrite Hscene.
  assert (Hv3 : validator (save_scene self2).2 = validator self2).
  { unfold save_scene. destruct (find "scene" _); [|done].
    destruct (scene self2); [|done]. by destruct (negb _). }
  destruct (save_scene self2) as [[e|] self3]; cbn [fst snd] in *; [done|].
  split; [done|]. unfold save_validate. cbn [validator without_validator].
  rewrite Hv3, L4, Hv1. by destruct (validator self).
Qed.

End DefaultSceneFacts.

(** ** [save] twice; the asset element *)

Section SaveAgainFacts.
Import Errors Tree ElementTree Document Loading.

Lemma save_library_eager (impl : implementation) (library_loc : nat)
    (children : list xmlnode) (fresh : nat) (l : IndexedList.indexed_list) (name : string) :
  arr_after (save_library impl library_loc children fresh (Eager l) name) = Eager l.
Proof.
  unfold save_library, sync_container, adopt_all.
  repeat (case_match; cbn [arr_after]; try done).
Qed.

Lemma save_libraries_eager (impl : implementation) (library_loc : nat)
    (libs : list library) : ∀ self,
  all_eager self →
  let r := save_libraries impl library_loc self libs in
  (∀ lib, library_arr r.2 lib = library_arr self lib)
  ∧ assetInfo_xmlnode r.2 = assetInfo_xmlnode self.
Proof.
  induction libs as [|lib rest IH]; intros self Heager r; [done|].
  subst r. cbn [save_libraries].
  destruct (Heager lib) as [l Hl]. rewrite Hl.
  set (r1 := save_library impl library_loc (xchildren (xmlroot self)) (next_ref self)
               (Eager l) (library_name lib)).
  assert (Hafter : arr_after r1 = Eager l) by apply save_library_eager.
  rewrite Hafter.
  set (self' := set_library_arr _ lib (Eager l)).
  assert (Hstep : (∀ lib', library_arr self' lib' = library_arr self lib')
                  ∧ assetInfo_xmlnode self' = assetInfo_xmlnode self).
  { split; [|done]. intros lib'. subst self'.
    destruct (decide (lib' = lib)) as [->|Hne]; [|by apply library_arr_other].
    rewrite Hl. by destruct lib. }
  destruct Hstep as [S1 S2].
  destruct (raised r1) as [e|]; [done|].
  destruct (IH self') as [I1 I2].
  { intros lib'. rewrite S1. apply Heager. }
  split; [|congruence]. intros lib'. by rewrite I1, S1.
Qed.

Lemma save_eager (impl : implementation) (self : collada) :
  all_eager self →
  (∀ lib, library_arr (save impl self).2 lib = library_arr self lib)
  ∧ assetInfo_xmlnode (save impl self).2 = assetInfo_xmlnode self.
Proof.
  intros Heager. unfold save.
  destruct (save_asset_fields self) as (_ & _ & Harr).
  assert (Hasset : assetInfo_xmlnode (save_asset self).1 = assetInfo_xmlnode self) by done.
  destruct (save_asset self) as [self1 library_loc]. cbn [fst] in *.
  destruct (save_libraries_eager impl library_loc libraries self1) as [L1 L2].
  { intros lib. rewrite Harr. apply Heager. }
  destruct (save_libraries impl library_loc self1 libraries) as [[e|] self2];
    cbn [fst snd] in *.
  { split; [|congruence]. intros lib. by rewrite L1. }
  assert (Hscene : (∀ lib, library_arr (save_scene self2).2 lib = library_arr self2 lib)
                   ∧ assetInfo_xmlnode (save_scene self2).2 = assetInfo_xmlnode self2).
  { unfold save_scene. destruct (find "scene" _); [|done].
    destruct (scene self2); [destruct (negb _)|]; split; try done; by intros []. }
  destruct Hscene as [S1 S2].
  destruct (save_scene self2) as [[e|] self3]; cbn [fst snd] in *;
    (split; [|congruence]); intros lib; by rewrite S1, L1.
Qed.

Lemma filter_all {A} (P : A → Prop) `{!∀ x, Decision (P x)} (l : list A) :
  (∀ x, x ∈ l → P x) → filter P l = l.
Proof.
  induction l as [|x l IH]; intros Hall; [done|].
  rewrite filter_cons, decide_True by (apply Hall; left).
  f_equal. apply IH. intros y Hy. apply Hall. by right.
Qed.

(** A container that is in step with the members is left as it is by
    another round. *)
Lemma synced_again (members : list pyobj) (kids : list xmlnode) :
  Unmoved.synced Lxml members (Unmoved.synced Lxml members kids)
  = Unmoved.synced Lxml members kids.
Proof.
  destruct (synced_children Lxml members kids) as (H1 & _ & H3).
  set (K := Unmoved.synced Lxml members kids) in *.
  unfold Unmoved.synced at 1. rewrite foldl_adopt_present by exact H1.
  cbn [prune]. unfold prune_prefetched. apply filter_all. by apply H3.
Qed.

(** The loop over the libraries leaves apart what is apart, when the
    nodes of the members do not hold the element. *)
Lemma apart_rounds (impl : implementation) (library_loc : nat) (name : string) (r : nat) :
  ∀ libs self,
  NoDup libs →
  (∀ lib, lib ∈ libs → is_Some (coll_members (library_arr self lib))) →
  (∀ lib o', lib ∈ libs → o' ∈ members_of self lib →
     (r ∉ below (oxmlnode o')) ∧ (library_name lib ≠ name → xref (oxmlnode o') ≠ r)) →
  apart name r (xchildren (xmlroot self)) →
  apart name r
    (xchildren (xmlroot (Unmoved.save_libraries impl library_loc self libs).2)).
Proof.
  induction libs as [|lib rest IH]; intros self Hnd Hall Hcross Hap; [done|].
  apply NoDup_cons in Hnd as [Hnotin Hnd].
  cbn [Unmoved.save_libraries].
  destruct (Hall lib ltac:(left)) as [members Hm].
  assert (Hmem : members_of self lib = members) by (unfold members_of; by rewrite Hm).
  set (r1 := Unmoved.save_library impl library_loc (xchildren (xmlroot self))
               (next_ref self) (library_arr self lib) (library_name lib)).
  set (self' := set_library_arr _ lib (arr_after r1)).
  assert (Hap' : apart name r (xchildren (xmlroot self'))).
  { subst self' r1. cbn [xmlroot set_library_arr set_tree xchildren with_children].
    apply (apart_round impl library_loc _ _ _ _ _ members); [done|done|].
    intros o' Ho'. apply (Hcross lib o'); [left|by rewrite Hmem]. }
  destruct (raised r1) as [e|]; [exact Hap'|].
  assert (Harr : ∀ lib', lib' ∈ rest → library_arr self' lib' = library_arr self lib').
  { intros lib' Hin. subst self'. apply library_arr_other. by intros ->. }
  apply IH; [done| | |done].
  - intros lib' Hin. rewrite Harr by done. apply Hall. by right.
  - intros lib' o' Hin Ho'. unfold members_of in Ho'. rewrite Harr in Ho' by done.
    apply Hcross; [by right|done].
Qed.

(** The statements on [scene] leave apart what is apart. *)
Lemma apart_scene (self : collada) (name : string) (r : nat) :
  name ≠ "scene" →
  apart name r (xchildren (xmlroot self)) →
  apart name r (xchildren (xmlroot (save_scene self).2)).
Proof.
  intros Hname Hap.
  assert (Hput : ∀ node', xtag node' = "scene" →
            apart name r (replace_first "scene" node' (xchildren (xmlroot self)))).
  { intros node' Ht. destruct Hap as [H1 H2]. split.
    - rewrite Forall_forall in H1 |- *. intros c Hc Hlib Hne.
      apply elem_of_replace_first in Hc as [->|Hc]; [|by apply H1].
      unfold is_library in Hlib. by rewrite Ht in Hlib.
    - by rewrite findall_replace_first_other. }
  unfold save_scene.
  destruct (find "scene" (xchildren (xmlroot self))) as [scenenode|] eqn:Hf; [|done].
  pose proof (find_tag _ _ _ Hf) as Ht.
  destruct (scene self) as [s|]; [destruct (negb _)|];
    cbn [snd xmlroot set_tree xchildren with_children]; by apply Hput.
Qed.

(** A settled document whose collections are [IndexedList]s is settled
    after [save]. *)
Lemma settled_saved (impl : implementation) (self : collada) :
  xtag (assetInfo_xmlnode self) = "asset" →
  all_eager self →
  settled self →
  settled (save impl self).2.
Proof.
  intros Hasset Heager Hset.
  assert (Hall : ∀ lib, is_Some (coll_members (library_arr self lib))).
  { intros lib. destruct (Heager lib) as [l ->]. by eexists. }
  destruct (save_eager impl self Heager) as [E1 _].
  assert (Hmems : ∀ lib, members_of (save impl self).2 lib = members_of self lib).
  { intros lib. unfold members_of. by rewrite E1. }
  rewrite (save_settled impl self Hasset Hall (λ _, Hset)) in Hmems |- *.
  pose proof (settled_spec self Hset) as Hspec.
  unfold settled. apply Forall_forall. intros lib _.
  apply Forall_forall. intros o Ho. rewrite Hmems in Ho.
  destruct (Hspec lib o Ho) as [Hap Hcross]. split.
  - assert (Hna : library_name lib ≠ "asset" ∧ library_name lib ≠ "scene")
      by (destruct lib; split; discriminate).
    destruct Hna as [Hna Hns].
    pose proof (apart_asset self _ _ Hasset Hna Hap) as Hap1.
    destruct (save_asset_fields self) as (_ & _ & Harr).
    unfold Unmoved.save.
    destruct (save_asset self) as [self1 library_loc]. cbn [fst] in *.
    assert (Hap2 : apart (library_name lib) (xref (oxmlnode o))
                     (xchildren (xmlroot
                        (Unmoved.save_libraries impl library_loc self1 libraries).2))).
    { apply apart_rounds; [apply libraries_nodup| | |exact Hap1].
      - intros lib' _. rewrite Harr. apply Hall.
      - intros lib' o' _ Ho'. unfold members_of in Ho'. rewrite Harr in Ho'.
        destruct (Hcross lib' o' Ho') as [C1 C2]. split; [done|].
        intros Hne. apply C2. intros ->. done. }
    destruct (Unmoved.save_libraries impl library_loc self1 libraries) as [[e|] self2];
      cbn [snd] in *; [exact Hap2|].
    pose proof (apart_scene self2 _ _ Hns Hap2) as Hap3.
    by destruct (save_scene self2) as [[e|] self3].
  - apply Forall_forall. intros lib' _. apply Forall_forall. intros o' Ho'.
    rewrite Hmems in Ho'. by apply Hcross.
Qed.

Lemma saved_again_keeps_libraries (self once twice : collada) (lib : library) :
  once = (save Lxml self).2 →
  twice = (save Lxml once).2 →
  xtag (assetInfo_xmlnode self) = "asset" →
  all_eager self →
  settled self →
  (length (findall (library_name lib) (xchildren (xmlroot self))) ≤ 1)%nat →
  findall (library_name lib) (xchildren (xmlroot twice))
  = findall (library_name lib) (xchildren (xmlroot once)).
Proof.
  intros Honce Htwice Hasset Heager Hset Hone.
  destruct (save_eager Lxml self Heager) as [E1 E2]. rewrite <- Honce in E1, E2.
  assert (Hmem : ∀ s, all_eager s → ∀ lib', is_Some (coll_members (library_arr s lib'))).
  { intros s Hs lib'. destruct (Hs lib') as [l ->]. by eexists. }
  destruct (Hmem self Heager lib) as [members Hm].
  pose proof (save_synced Lxml self lib members Hasset (Hmem self Heager) Hm) as H1.
  rewrite <- (save_settled Lxml self Hasset (Hmem self Heager) (λ _, Hset)) in H1.
  rewrite <- Honce in H1.
  assert (Heager' : all_eager once) by (intros lib'; rewrite E1; apply Heager).
  assert (Hm' : coll_members (library_arr once lib) = Some members) by (by rewrite E1).
  assert (Hasset' : xtag (assetInfo_xmlnode once) = "asset") by (by rewrite E2).
  assert (Hset' : settled once) by (rewrite Honce; by apply settled_saved).
  pose proof (save_synced Lxml once lib members Hasset' (Hmem once Heager') Hm') as H2.
  rewrite <- (save_settled Lxml once Hasset' (Hmem once Heager') (λ _, Hset')) in H2.
  rewrite <- Htwice in H2. clear Honce Htwice Hset Hset'.
  revert Hone H1 H2.
  generalize (findall (library_name lib) (xchildren (xmlroot self))).
  generalize (findall (library_name lib) (xchildren (xmlroot once))).
  generalize (findall (library_name lib) (xchildren (xmlroot twice))).
  intros after2 after1 before Hone H1 H2.
  unfold Unmoved.container_synced in H1, H2.
  destruct before as [|node others], members as [|m ms].
  - subst after1. exact H2.
  - destruct H1 as [ref ->]. rewrite H2. unfold with_children.
    cbn [xchildren xref xtag xattrib]. rewrite (synced_again (m :: ms) []).
    reflexivity.
  - destruct others; [|cbn [length] in Hone; lia]. subst after1. exact H2.
  - subst after1. rewrite H2. unfold with_children.
    cbn [xchildren xref xtag xattrib].
    rewrite (synced_again (m :: ms) (xchildren node)). reflexivity.
Qed.

(** X21: with lxml, saving again changes no library container.  On a
    document whose collections are [IndexedList]s, whose asset element is
    tagged [asset], in which no [append] has to take an element from
    another place ([settled]: no node is shared by two collections or
    sits below another library container) and whose tree holds at most
    one container of a library, the containers of that library after a
    second [save] are those after the first, children included. *)
Theorem save_again_keeps_libraries (self : collada) (lib : library) :
  xtag (assetInfo_xmlnode self) = "asset" →
  all_eager self →
  settled self →
  (length (findall (library_name lib) (xchildren (xmlroot self))) ≤ 1)%nat →
  let once := (save Lxml self).2 in
  let twice := (save Lxml once).2 in
  findall (library_name lib) (xchildren (xmlroot twice))
  = findall (library_name lib) (xchildren (xmlroot once)).
Proof.
  intros Hasset Heager Hset Hone once twice.
  by apply (saved_again_keeps_libraries self once twice lib).
Qed.

(** X22: [save] leaves the asset element of [assetInfo], when it is
    tagged [asset], as the first child of the root, whether it goes on to
    raise or not; it stands in for the first [asset] element of the tree,
    and the other [asset] elements stay. *)
Theorem save_puts_asset_first (impl : implementation) (self : collada) :
  xtag (assetInfo_xmlnode self) = "asset" →
  let after := xchildren (xmlroot (save impl self).2) in
  head after = Some (assetInfo_xmlnode self)
  ∧ findall "asset" after
    = assetInfo_xmlnode self :: tail (findall "asset" (xchildren (xmlroot self))).
Proof.
  intros Hasset after. subst after. unfold save.
  assert (Hloc : (1 ≤ (save_asset self).2)%nat).
  { unfold save_asset. cbn [snd]. change (insert 0 ?x ?l) with (x :: l).
    match goal with |- context [library_location 0 0 (?x :: ?l)] =>
      destruct (library_location_after_asset (x :: l) 0 0) as (k & a & _ & _ & -> & _)
    end; [|lia].
    exists (assetInfo_xmlnode self). split; [left|done]. }
  assert (Hhead : head (xchildren (xmlroot (save_asset self).1))
                  = Some (assetInfo_xmlnode self)) by done.
  assert (Hall : findall "asset" (xchildren (xmlroot (save_asset self).1))
                 = assetInfo_xmlnode self
                   :: tail (findall "asset" (xchildren (xmlroot self)))).
  { unfold save_asset. cbn [fst xmlroot set_tree xchildren with_children].
    change (insert 0 ?x ?l) with (x :: l).
    unfold findall at 1. rewrite filter_cons, decide_True by done. f_equal.
    destruct (find "asset" (xchildren (xmlroot self))) eqn:Hf.
    - apply findall_remove_found.
    - fold (findall "asset" (xchildren (xmlroot self))).
      by rewrite (findall_nil_find _ _ Hf). }
  destruct (save_asset self) as [self1 library_loc]. cbn [fst snd] in *.
  pose proof (save_libraries_head impl library_loc _ libraries self1 Hloc Hasset Hhead) as H2.
  pose proof (save_libraries_leaves impl library_loc libraries self1) as (L1 & _).
  specialize (L1 "asset" eq_refl). rewrite Hall in L1.
  destruct (save_libraries impl library_loc self1 libraries) as [[e|] self2];
    cbn [fst snd] in *; [done|].
  assert (H3 : head (xchildren (xmlroot (save_scene self2).2))
               = Some (assetInfo_xmlnode self)).
  { unfold save_scene. destruct (find "scene" _); [|done].
    destruct (scene self2); [destruct (negb _)|];
      cbn [snd xmlroot set_tree xchildren with_children];
      (apply head_replace_first; [rewrite Hasset; discriminate|exact H2]). }
  pose proof (save_scene_frame self2 "asset") as H4.
  destruct (save_scene self2) as [[e|] self3]; cbn [fst snd] in *;
    (split; [done|]); rewrite H4 by discriminate; exact L1.
Qed.

End SaveAgainFacts.

(** ** More on the input resolver *)

Section ResolverFacts.
Import Errors Primitive.
Variable maskedErrors : list mask_entry.

(** The second loop over inputs that pass the checks and carry known
    semantics does not consult the error policy. *)
Lemma resolve_known_prefix localscope (good rest : list raw_input) : ∀ all_inputs errors,
  Forall (λ x, admissible localscope x ∧ semantic x ∈ _KNOWN_SEMANTICS) good →
  ∃ all_inputs',
    resolve maskedErrors localscope (good ++ rest) all_inputs errors
    = resolve maskedErrors localscope rest all_inputs' errors.
Proof.
  induction good as [|x good IH]; intros all_inputs errors Hgood.
  - by exists all_inputs.
  - apply Forall_cons in Hgood as [[[Hm [entry Hb]] Hk] Hgood].
    cbn [app resolve]. rewrite Hm. unfold bound in Hb.
    destruct (localscope !! tail_str (source_ref x)) as [entry'|]; [|done].
    rewrite bool_decide_eq_true_2 by done. by apply IH.
Qed.

(** X23: an input that names no [dict] of the scope and whose source
    reference is ill-formed, or names a key the scope lacks, makes the
    resolver raise whatever the mask holds, when the inputs before it
    that name no [dict] pass the two checks and carry known semantics:
    the malformed-document error for a reference that is ill-formed, the
    broken-reference error for a key that the scope lacks.  These two
    errors do not go through [handleError]: they are not added to
    [errors], and [ignoreErrors] cannot silence them.  (An input that
    names a [dict] under [source[1:]] is expanded or dropped by the first
    loop, which checks nothing.) *)
Theorem source_errors_bypass_policy (errors : list dae_error)
    (localscope : gmap string scope_entry)
    (before : list raw_input) (bad : raw_input) (after : list raw_input) :
  Forall (λ x, isdict (localscope !! tail_str (source_ref x)) = false →
               admissible localscope x ∧ semantic x ∈ _KNOWN_SEMANTICS) before →
  isdict (localscope !! tail_str (source_ref bad)) = false →
  ¬ admissible localscope bad →
  ∃ kind msg,
    _getInputsFromList maskedErrors errors localscope (before ++ bad :: after)
    = (inl (DaeExn (MkError kind msg)), errors)
    ∧ kind = (if malformed (source_ref bad) then DaeMalformedError else DaeBrokenRefError).
Proof.
  intros Hbefore Hnd Hbad. unfold _getInputsFromList.
  rewrite expand_closed, filter_app, filter_cons, decide_True by exact Hnd.
  rewrite <- !app_assoc. cbn [app].
  set (good := filter (λ x, isdict (localscope !! tail_str (source_ref x)) = false) before).
  assert (Hgood : Forall (λ x, admissible localscope x ∧ semantic x ∈ _KNOWN_SEMANTICS) good).
  { apply Forall_forall. intros x [Hx Hin]%list_elem_of_filter.
    rewrite Forall_forall in Hbefore. by apply Hbefore. }
  destruct (resolve_known_prefix localscope good
              (bad :: filter (λ x, isdict (localscope !! tail_str (source_ref x)) = false)
                        after ++ ((before ++ bad :: after) ≫= aliases localscope))
              initial_inputs errors Hgood)
    as [all_inputs' ->].
  cbn [resolve]. destruct (malformed (source_ref bad)) eqn:Hm; [by eexists _, _|].
  destruct (localscope !! tail_str (source_ref bad)) as [entry|] eqn:Hs; [|by eexists _, _].
  exfalso. apply Hbad. split; [done|]. unfold bound. rewrite Hs. by eexists.
Qed.

Lemma initial_inputs_keys (sem : string) :
  is_Some (initial_inputs !! sem) ↔ sem ∈ _KNOWN_SEMANTICS.
Proof.
  unfold initial_inputs. split.
  - intros [bucket Hb]. apply elem_of_list_to_map_2 in Hb.
    apply list_elem_of_fmap in Hb as (k & [= -> _] & Hk). exact Hk.
  - intros Hk. exists []. apply elem_of_list_to_map_1.
    + rewrite <- list_fmap_compose.
      apply (bool_decide_unpack _). vm_compute. exact I.
    + apply list_elem_of_fmap. by exists sem.
Qed.

Lemma resolve_keys localscope (new_inputs : list raw_input) :
  ∀ all_inputs errors table errors',
  resolve maskedErrors localscope new_inputs all_inputs errors = (inr table, errors') →
  ∀ sem, is_Some (table !! sem)
         ↔ is_Some (all_inputs !! sem) ∨ ∃ x, x ∈ new_inputs ∧ semantic x = sem.
Proof.
  induction new_inputs as [|x rest IH]; intros all_inputs errors table errors' Hr sem.
  - cbn in Hr. injection Hr as <- <-. split; [by left|].
    intros [?|(x & Hx & _)]; [done|]. by apply elem_of_nil in Hx.
  - cbn [resolve] in Hr.
    destruct (malformed (source_ref x)); [done|].
    destruct (localscope !! tail_str (source_ref x)) as [entry|]; [|done].
    assert (Hnext : ∃ errors1,
      resolve maskedErrors localscope rest
        (bucket_append all_inputs (semantic x) (x, entry)) errors1 = (inr table, errors')).
    { case_bool_decide; [by eexists|].
      destruct (handleError errors maskedErrors (unsupported_error x)) as [errors1 []];
        [by eexists|done|done]. }
    destruct Hnext as [errors1 Hnext]. rewrite (IH _ _ _ _ Hnext sem).
    unfold bucket_append. rewrite lookup_insert_is_Some. split.
    + intros [[Hsem|[_ ?]]|(y & Hy & Hsem)].
      * right. exists x. split; [left|done].
      * by left.
      * right. exists y. split; [by right|done].
    + intros [?|(y & [->|Hy]%elem_of_cons & Hsem)].
      * left. destruct (decide (semantic x = sem)); [by left|by right].
      * left. by left.
      * right. by exists y.
Qed.

(** X24: the table the resolver returns has a bucket for each of the
    eight known semantics, used or not; its other buckets are those of the
    unrecognised semantics that occur among the inputs after the expansion
    of the [VERTEX] aliases. *)
Theorem resolved_table_keys (errors : list dae_error)
    (localscope : gmap string scope_entry) (inputs : list raw_input)
    (table : gmap string (list binding)) (errors' : list dae_error) :
  _getInputsFromList maskedErrors errors localscope inputs = (inr table, errors') →
  ∀ sem, is_Some (table !! sem)
         ↔ sem ∈ _KNOWN_SEMANTICS
           ∨ ∃ x, x ∈ expand localscope inputs ∧ semantic x = sem.
Proof.
  intros Hr sem. unfold _getInputsFromList in Hr.
  rewrite (resolve_keys _ _ _ _ _ _ Hr sem). by rewrite initial_inputs_keys.
Qed.

(** What the first loop appends for a [VERTEX] input that names a
    [dict]. *)
Lemma split_inputs_dereferences localscope (inputs : list raw_input) (x : raw_input)
    (d : list (string * source)) (y : raw_input) :
  x ∈ inputs → semantic x = "VERTEX" →
  localscope !! tail_str (source_ref x) = Some (Bundle d) →
  y ∈ dereference (offset x) (set x) d →
  y ∈ (split_inputs localscope inputs).2.
Proof.
  intros Hx Hsem Hd Hy. induction inputs as [|z inputs IH]; [by apply elem_of_nil in Hx|].
  cbn [split_inputs].
  destruct (split_inputs localscope inputs) as [new_inputs to_append]. cbn [snd] in IH.
  apply elem_of_cons in Hx as [<-|Hx].
  - rewrite Hd, bool_decide_eq_true_2 by done. cbn [snd]. apply elem_of_app. by left.
  - specialize (IH Hx).
    destruct (localscope !! tail_str (source_ref z)) as [[s|d']|]; cbn [snd]; [done| |done].
    case_bool_decide; cbn [snd]; [|done]. apply elem_of_app. by right.
Qed.

(** X25: a [VERTEX] input that names a [dict] of the scope stands for
    the sources of that [dict].  When the resolver returns a table, each
    entry of the [dict] has its binding in it: under [VERTEX] for the
    [POSITION] entry, under the semantic of the entry for any other, with
    the offset and the set of the input, a reference made of [#] and the
    id of the source, and the scope entry found under that id. *)
Theorem vertex_alias_binds_its_sources (errors : list dae_error)
    (localscope : gmap string scope_entry) (inputs : list raw_input)
    (table : gmap string (list binding)) (errors' : list dae_error)
    (x : raw_input) (d : list (string * source)) (sem : string) (s : source) :
  _getInputsFromList maskedErrors errors localscope inputs = (inr table, errors') →
  x ∈ inputs →
  semantic x = "VERTEX" →
  localscope !! tail_str (source_ref x) = Some (Bundle d) →
  (sem, s) ∈ d →
  let sem' := if bool_decide (sem = "POSITION") then "VERTEX" else sem in
  let y := MkInput (offset x) sem' ("#" +:+ src_id s) (set x) in
  ∃ entry, localscope !! src_id s = Some entry
           ∧ (y, entry) ∈ default [] (table !! sem').
Proof.
  intros Hr Hx Hsem Hd Hs sem' y.
  assert (Hy : y ∈ expand localscope inputs).
  { unfold expand.
    pose proof (split_inputs_dereferences localscope inputs x d y Hx Hsem Hd) as Hin.
    destruct (split_inputs localscope inputs) as [new_inputs to_append].
    apply elem_of_app. right. apply Hin. unfold dereference.
    apply list_elem_of_fmap. exists (sem, s). split; [|done].
    subst y sem'. cbn [fst snd]. by case_bool_decide. }
  unfold _getInputsFromList in Hr.
  apply resolve_returns in Hr as (_ & Hadm & Hb).
  rewrite Forall_forall in Hadm. destruct (Hadm y Hy) as [_ [b Hbound]].
  unfold bound in Hbound. change (tail_str (source_ref y)) with (src_id s) in Hbound.
  destruct (localscope !! src_id s) as [entry|] eqn:Hentry; [|done].
  exists entry. split; [done|].
  rewrite Hb, initial_inputs_lookup. cbn [app].
  apply list_elem_of_omap. exists y. split.
  - apply list_elem_of_filter. split; [done|exact Hy].
  - unfold bound. change (tail_str (source_ref y)) with (src_id s). by rewrite Hentry.
Qed.

End ResolverFacts.

(** ** What [_loadNodes] adds *)

Section NodeLoadFacts.
Import Errors Tree ElementTree Nodes Loading.
Variable loadNode : IndexedList.indexed_list → xmlnode → load_outcome.
Variable maskedErrors : list mask_entry.

Lemma extends_refl st : extends loadNode st st.
Proof. exists [], []. by rewrite !app_nil_r. Qed.

Lemma extends_trans st1 st2 st3 :
  extends loadNode st1 st2 → extends loadNode st2 st3 → extends loadNode st1 st3.
Proof.
  intros (a1 & r1 & A1 & R1 & FA1 & FR1) (a2 & r2 & A2 & R2 & FA2 & FR2).
  exists (a1 ++ a2), (r1 ++ r2). rewrite A2, A1, R2, R1, !app_assoc.
  split; [done|]. split; [done|]. split; by apply Forall_app.
Qed.

Lemma try_node_extends st node :
  extends loadNode (nodes st, errors st)
    (nodes (try_node loadNode maskedErrors st node).2,
     errors (try_node loadNode maskedErrors st node).2).
Proof.
  unfold try_node. destruct (loadNode (nodes st) node) as [[N|]|msg|ex] eqn:Hl.
  - exists [N], []. cbn. rewrite app_nil_r. split; [done|]. split; [done|].
    split; [|done]. constructor; [|done]. by eexists _, _.
  - apply extends_refl.
  - apply extends_refl.
  - assert (Hrec : extends loadNode (nodes st, errors st) (nodes st, errors st ++ [ex])).
    { exists [], [ex]. cbn. rewrite app_nil_r. split; [done|]. split; [done|].
      split; [done|]. constructor; [|done]. by eexists _, _. }
    unfold handleError. by destruct (any_isinstance _ _).
Qed.

Lemma pass_extends todo : ∀ st,
  extends loadNode (nodes st, errors st)
    (nodes (pass loadNode maskedErrors st todo).2,
     errors (pass loadNode maskedErrors st todo).2).
Proof.
  induction todo as [|node rest IH]; intros st; [apply extends_refl|].
  cbn [pass]. pose proof (try_node_extends st node) as H1.
  destruct (try_node loadNode maskedErrors st node) as [[e|] st1]; [done|].
  eapply extends_trans; [exact H1|apply IH].
Qed.

Lemma retry_extends fuel : ∀ st,
  extends loadNode (nodes st, errors st)
    (nodes (retry loadNode maskedErrors fuel st).2,
     errors (retry loadNode maskedErrors fuel st).2).
Proof.
  induction fuel as [|fuel IH]; intros st; [apply extends_refl|].
  cbn [retry]. destruct (_ && _); [|apply extends_refl].
  pose proof (pass_extends (tried_loading st).*1 (MkPass [] false (nodes st) (errors st)))
    as H1.
  destruct (pass loadNode maskedErrors _ _) as [[e|] st1]; [done|].
  eapply extends_trans; [exact H1|apply IH].
Qed.

Lemma resolve_nodes_extends nodes0 errors0 todo :
  extends loadNode (nodes0, errors0)
    (nodes (resolve_nodes loadNode maskedErrors nodes0 errors0 todo).2,
     errors (resolve_nodes loadNode maskedErrors nodes0 errors0 todo).2).
Proof.
  unfold resolve_nodes.
  pose proof (pass_extends todo (MkPass [] false nodes0 errors0)) as H1.
  destruct (pass loadNode maskedErrors _ todo) as [[e|] st]; [done|].
  pose proof (retry_extends (S (length (tried_loading st))) st) as H2.
  destruct (retry loadNode maskedErrors _ st) as [[e|] st1];
    [by eapply extends_trans|].
  destruct (tried_loading st1) as [|[n msg] rest]; by eapply extends_trans.
Qed.

Lemma load_libraries_extends libnodes : ∀ nodes0 errors0,
  extends loadNode (nodes0, errors0)
    (load_libraries loadNode maskedErrors nodes0 errors0 libnodes).2.
Proof.
  induction libnodes as [|libnode rest IH]; intros nodes0 errors0; [apply extends_refl|].
  cbn [load_libraries]. unfold load_library.
  pose proof (resolve_nodes_extends nodes0 errors0 (findall "node" (xchildren libnode)))
    as H1.
  destruct (resolve_nodes loadNode maskedErrors nodes0 errors0 _) as [[e|] st]; [done|].
  eapply extends_trans; [exact H1|apply IH].
Qed.

(** X26: [_loadNodes] only adds.  Whether it returns or raises, the
    nodes that were in [self.nodes] are still there, in their order, in
    front of the objects it has added, each of which [scene.loadNode]
    returned; and the errors that were in [self.errors] are still there in
    front of those it has recorded, each of which [scene.loadNode] raised.
    The broken-reference error it raises for a node left unresolved is not
    one of them: it is raised without being recorded. *)
Theorem node_load_only_adds (root : xmlnode) (nodes0 : IndexedList.indexed_list)
    (errors0 : list dae_error) :
  extends loadNode (nodes0, errors0)
    (_loadNodes loadNode maskedErrors root nodes0 errors0).2.
Proof. apply load_libraries_extends. Qed.

End NodeLoadFacts.

(** ** What the constructor, [append] and [extend] build *)

Section BuiltFacts.
Import Errors Tree IndexedList IndexedListUpdate.

(** X27: in a collection built by the constructor, [append] and
    [extend], an id is a key of the index exactly when a member carries
    it, and the object found under an id is a member with that id.  When
    the members carry pairwise different ids and are pairwise different
    objects, the index and the list agree in the sense the updating
    methods rely on. *)
Theorem built_index_covers_members (self : indexed_list) :
  built self →
  (∀ k, __contains__ self k = true ↔ k ∈ oid <$> il_items self)
  ∧ (∀ k o, get self k None = Some o → o ∈ il_items self ∧ oid o = k)
  ∧ (NoDup (oid <$> il_items self) → NoDup (oref <$> il_items self) → agrees self).
Proof.
  intros Hb.
  assert (Hidx : ∀ k, il_index self !! k = last (filter (λ o, oid o = k) (il_items self))).
  { intros k. rewrite (built_index _ Hb), lookup_foldl_addindex.
    destruct (last _); [done|apply lookup_empty]. }
  assert (Hlast : ∀ k o, il_index self !! k = Some o → o ∈ il_items self ∧ oid o = k).
  { intros k o. rewrite Hidx. intros Hl. apply last_Some in Hl as [l' Hl].
    assert (Hin : o ∈ filter (λ o, oid o = k) (il_items self)).
    { rewrite Hl. apply elem_of_app. right. left. }
    apply list_elem_of_filter in Hin. tauto. }
  split; [|split].
  - intros k. unfold __contains__. rewrite bool_decide_eq_true. split.
    + intros [o Ho]. destruct (Hlast _ _ Ho) as [Hin <-]. by apply list_elem_of_fmap_2.
    + intros Hk. apply list_elem_of_fmap in Hk as (o & -> & Ho). rewrite Hidx.
      destruct (filter (λ x, oid x = oid o) (il_items self)) as [|y l] eqn:Hf using rev_ind.
      * assert (Hin : o ∈ filter (λ x, oid x = oid o) (il_items self))
          by (by apply list_elem_of_filter).
        rewrite Hf in Hin. by apply elem_of_nil in Hin.
      * rewrite last_snoc. by eexists.
  - intros k o. unfold get. destruct (il_index self !! k) as [o'|] eqn:Hk; [|done].
    intros [= <-]. by apply Hlast.
  - intros Hid Href. split; [done|]. split; [done|].
    intros k o. split; [apply Hlast|].
    intros [Hin <-]. rewrite Hidx. by apply last_filter_unique.
Qed.

End BuiltFacts.

Section LazyOrderFacts.
Import Errors Tree LazyIndexedList LazyLoading.
Variable loader_func : xmlnode → exn + pyobj.

Lemma load_item_listed (self : lazy_list) (k : string) :
  listed self → listed (_load_item loader_func self k).2.
Proof.
  unfold _load_item, listed.
  destruct (_loaded self !! k) as [o|] eqn:Hl; [done|].
  destruct (_pending_nodes self !! k) as [node|] eqn:Hp; [|done].
  destruct (loader_func node) as [e|obj]; cbn.
  - intros Hinv k' [Hk'|Hk']; apply Hinv; [left|by right].
    destruct (decide (k' = k)) as [->|Hne]; [by rewrite lookup_delete_eq in Hk'; destruct Hk'|].
    by rewrite lookup_delete_ne in Hk'.
  - intros Hinv k' [Hk'|Hk'].
    + apply Hinv. left.
      destruct (decide (k' = k)) as [->|Hne]; [by rewrite lookup_delete_eq in Hk'; destruct Hk'|].
      by rewrite lookup_delete_ne in Hk'.
    + destruct (decide (k' = k)) as [->|Hne].
      * apply Hinv. left. by rewrite Hp.
      * apply Hinv. right. by rewrite lookup_insert_ne in Hk'.
Qed.

Lemma iter_from_listed (ids : list string) : ∀ self,
  listed self → listed (iter_from loader_func self ids).2.
Proof.
  induction ids as [|k ids IH]; intros self Hinv; [done|].
  cbn [iter_from]. pose proof (load_item_listed self k Hinv) as H1.
  destruct (_load_item loader_func self k) as [[e|v] self1]; cbn [snd] in *; [done|].
  specialize (IH self1 H1). by destruct (iter_from loader_func self1 ids) as [[vs e] self2].
Qed.

Lemma apply_op_listed (self : lazy_list) (op : operation) :
  listed self → listed (apply_op loader_func self op).
Proof.
  intros Hinv. destruct op as [node|obj|key default|[k|i]|]; cbn [apply_op].
  - unfold add_node. destruct (node_get node "id") as [obj_id|]; [|done].
    case_bool_decide; [done|]. unfold listed in *. cbn.
    intros k [Hk|Hk]; apply elem_of_app.
    + destruct (decide (k = obj_id)) as [->|Hne]; [right; left|].
      left. apply Hinv. left. by rewrite lookup_insert_ne in Hk.
    + left. apply Hinv. by right.
  - unfold append, listed in *. cbn. intros k Hk.
    assert (Hor : k = oid obj ∨ k ∈ _order self).
    { destruct (decide (k = oid obj)) as [->|Hne]; [by left|right].
      apply Hinv. destruct Hk as [Hk|Hk]; [by left|right].
      by rewrite lookup_insert_ne in Hk. }
    case_bool_decide as Hin.
    + by destruct Hor as [->|?].
    + apply elem_of_app. destruct Hor as [->|?]; [right; left|by left].
  - unfold get. destruct (_loaded self !! key); [done|].
    case_bool_decide; [by apply load_item_listed|done].
  - cbn [__getitem__]. unfold get. destruct (_loaded self !! k); [done|].
    case_bool_decide; [by apply load_item_listed|done].
  - cbn [__getitem__]. destruct (_ || _); [done|].
    destruct (_order self !! _); [by apply load_item_listed|done].
  - by apply iter_from_listed.
Qed.

Lemma run_listed (ops : list operation) : ∀ self,
  listed self → listed (run loader_func ops self).
Proof.
  induction ops as [|op ops IH]; intros self Hinv; [done|].
  unfold run. cbn [foldl]. apply IH. by apply apply_op_listed.
Qed.

(** X28: whatever a [LazyIndexedList] holds is in its insertion order.
    After any run of registrations, appends and accesses on a new
    collection, every identity that is pending or loaded, which is every
    string that [in] accepts, is listed in [_order], the list that [len]
    measures and that the iteration and the integer subscripts walk. *)
Theorem held_identities_are_listed (ops : list operation) :
  let self := run loader_func ops __init__ in
  listed self
  ∧ ∀ k, __contains__ self k = true → k ∈ _order self.
Proof.
  intros self.
  assert (Hl : listed self).
  { apply run_listed. intros k. cbn [__init__ _pending_nodes _loaded].
    rewrite !lookup_empty. intros [[? ?]|[? ?]]; done. }
  split; [exact Hl|]. intros k Hk. apply Hl.
  unfold __contains__ in Hk. apply orb_true_iff in Hk as [Hk|Hk];
    apply bool_decide_eq_true_1 in Hk; [by right|by left].
Qed.

End LazyOrderFacts.

(** ** The pruning loop of [save] walked by position *)

Section PruneFacts.
Import Tree ElementTree.

Lemma remove_at (children : list xmlnode) (i : nat) (n : xmlnode) :
  NoDup (xref <$> children) → children !! i = Some n →
  remove n children = delete i children.
Proof.
  revert i. induction children as [|c children IH]; intros i Hnd Hi; [done|].
  rewrite fmap_cons in Hnd. apply NoDup_cons in Hnd as [Hc Hnd].
  destruct i as [|i]; cbn in Hi |- *.
  - injection Hi as ->. by rewrite bool_decide_eq_true_2.
  - rewrite bool_decide_eq_false_2.
    + f_equal. by apply IH.
    + intros Heq. apply Hc. rewrite Heq.
      apply list_elem_of_fmap_2. by eapply list_elem_of_lookup_2.
Qed.

Lemma NoDup_fmap_delete {A B} (f : A → B) (l : list A) (i : nat) :
  NoDup (f <$> l) → NoDup (f <$> delete i l).
Proof.
  intros Hnd. eapply sublist_NoDup; [exact Hnd|].
  apply fmap_sublist, sublist_delete.
Qed.

(** A child in front of the position the walk has reached stays. *)
Lemma prune_by_position_passed (keep : list xmlnode) (fuel : nat) :
  ∀ (i j : nat) (children : list xmlnode) (b : xmlnode),
    NoDup (xref <$> children) → (j < i)%nat → children !! j = Some b →
    prune_by_position keep fuel i children !! j = Some b.
Proof.
  induction fuel as [|fuel IH]; intros i j children b Hnd Hji Hb; [done|].
  cbn [prune_by_position].
  destruct (children !! i) as [n|] eqn:Hn; [|done].
  destruct (elem_in n keep).
  - apply IH; [done|lia|done].
  - rewrite (remove_at children i n Hnd Hn). apply IH.
    + by apply NoDup_fmap_delete.
    + lia.
    + by rewrite list_lookup_delete_lt by lia.
Qed.

Lemma prune_by_position_step (keep : list xmlnode) (fuel i : nat)
    (children : list xmlnode) :
  prune_by_position keep (S fuel) i children
  = match children !! i with
    | None => children
    | Some n =>
        if elem_in n keep
        then prune_by_position keep fuel (S i) children
        else prune_by_position keep fuel (S i) (remove n children)
    end.
Proof. done. Qed.

Lemma prune_by_position_prefix (keep : list xmlnode) (pre : list xmlnode) :
  ∀ (done_ rest : list xmlnode) (fuel : nat),
    Forall (λ n, elem_in n keep = true) pre →
    prune_by_position keep (length pre + fuel) (length done_) (done_ ++ pre ++ rest)
    = prune_by_position keep fuel (length done_ + length pre) (done_ ++ pre ++ rest).
Proof.
  induction pre as [|p pre IH]; intros done_ rest fuel Hkept.
  - cbn. by rewrite Nat.add_0_r.
  - apply Forall_cons in Hkept as [Hp Hkept]. cbn [length Nat.add].
    rewrite prune_by_position_step.
    rewrite lookup_app_r by lia. rewrite Nat.sub_diag. cbn [app lookup list_lookup].
    rewrite Hp.
    specialize (IH (done_ ++ [p]) rest fuel Hkept).
    rewrite length_app in IH. cbn [length] in IH.
    rewrite <- !app_assoc in IH. cbn [app] in IH.
    replace (length done_ + 1)%nat with (S (length done_)) in IH by lia.
    rewrite IH. f_equal. lia.
Qed.

(** X29: with the element tree of the standard library, whose
    iteration goes by position, the pruning loop of [save] passes over the
    child that follows a child it removes.  In a container whose children
    are pairwise different elements, let the first child that is not the
    node of a member be followed directly by another: the first is
    removed, the second is not visited and stays in the container, while
    with lxml's iteration both are removed. *)
Theorem positional_walk_skips_next_sibling (keep pre rest : list xmlnode) (a b : xmlnode) :
  NoDup (xref <$> pre ++ a :: b :: rest) →
  Forall (λ n, elem_in n keep = true) pre →
  elem_in a keep = false →
  elem_in b keep = false →
  (prune XmlEtree keep (pre ++ a :: b :: rest)) !! length pre = Some b
  ∧ (b ∉ prune Lxml keep (pre ++ a :: b :: rest))
  ∧ (a ∉ prune Lxml keep (pre ++ a :: b :: rest)).
Proof.
  intros Hnd Hpre Ha Hb. split; [|split].
  - cbn [prune].
    pose proof (prune_by_position_prefix keep pre [] (a :: b :: rest)
                  (length (a :: b :: rest)) Hpre) as Hwalk.
    cbn [app length Nat.add] in Hwalk.
    rewrite length_app. cbn [length]. cbn [length] in Hwalk. rewrite Hwalk.
    assert (Hla : (pre ++ a :: b :: rest) !! length pre = Some a).
    { rewrite lookup_app_r by lia. by rewrite Nat.sub_diag. }
    rewrite prune_by_position_step, Hla, Ha.
    rewrite (remove_at _ _ _ Hnd Hla).
    apply prune_by_position_passed.
    + by apply NoDup_fmap_delete.
    + lia.
    + rewrite list_lookup_delete_ge by lia.
      rewrite lookup_app_r by lia.
      by replace (S (length pre) - length pre)%nat with 1%nat by lia.
  - cbn [prune]. unfold prune_prefetched. rewrite list_elem_of_filter. intros [Hk _].
    by rewrite Hb in Hk.
  - cbn [prune]. unfold prune_prefetched. rewrite list_elem_of_filter. intros [Hk _].
    by rewrite Ha in Hk.
Qed.

End PruneFacts.

Section PruneExamples.
Import Tree ElementTree.

Lemma positional_walk_skips_next_sibling_witness :
  let kept := XmlNode 1 "light" [("id", "key")] [] in
  let a := XmlNode 2 "light" [("id", "fill")] [] in
  let b := XmlNode 3 "light" [("id", "rim")] [] in
  (prune XmlEtree [kept] ([kept] ++ a :: b :: [])) !! length [kept] = Some b
  ∧ (b ∉ prune Lxml [kept] ([kept] ++ a :: b :: []))
  ∧ (a ∉ prune Lxml [kept] ([kept] ++ a :: b :: [])).
Proof.
  intros kept a b.
  apply (positional_walk_skips_next_sibling [kept] [kept] [] a b).
  - apply (bool_decide_unpack _). vm_compute. exact I.
  - constructor; [reflexivity|constructor].
  - reflexivity.
  - reflexivity.
Defined.

End PruneExamples.

(** ** The collections the loaders leave *)

Section LoadedCollectionFacts.
Import Errors Tree ElementTree Nodes Document.
Variable maskedErrors : list mask_entry.
Variable qualifies : xmlnode → bool.
Variable decode : xmlnode → (exn + pyobj) * list dae_error.
Variable loadNode : IndexedList.indexed_list → xmlnode → load_outcome.

Lemma load_items_built (nodes : list xmlnode) : ∀ st,
  IndexedList.built st.1 →
  IndexedList.built (load_items maskedErrors qualifies decode st nodes).2.1.
Proof.
  induction nodes as [|node rest IH]; intros st Hb; [done|].
  cbn [load_items].
  assert (Hstep : IndexedList.built (load_item maskedErrors qualifies decode st node).2.1).
  { unfold load_item. destruct (qualifies node); cbn [negb]; [|done].
    destruct (decode node).1 as [[| | | |ex|]|obj]; try done.
    - unfold handleError. by destruct (any_isinstance _ _).
    - by apply IndexedList.built_append. }
  destruct (load_item maskedErrors qualifies decode st node) as [[e|] st1]; [done|].
  by apply IH.
Qed.

Lemma pass_built (todo : list xmlnode) : ∀ st,
  IndexedList.built (Nodes.nodes st) →
  IndexedList.built (Nodes.nodes (pass loadNode maskedErrors st todo).2).
Proof.
  induction todo as [|node rest IH]; intros st Hb; [done|].
  cbn [pass].
  assert (Hstep : IndexedList.built (Nodes.nodes (try_node loadNode maskedErrors st node).2)).
  { unfold try_node. destruct (loadNode (Nodes.nodes st) node) as [[N|]|msg|ex]; try done.
    - by apply IndexedList.built_append.
    - unfold handleError. by destruct (any_isinstance _ _). }
  destruct (try_node loadNode maskedErrors st node) as [[e|] st1]; [done|].
  by apply IH.
Qed.

Lemma retry_built (fuel : nat) : ∀ st,
  IndexedList.built (Nodes.nodes st) →
  IndexedList.built (Nodes.nodes (retry loadNode maskedErrors fuel st).2).
Proof.
  induction fuel as [|fuel IH]; intros st Hb; [done|].
  cbn [retry]. destruct (_ && _); [|done].
  pose proof (pass_built (tried_loading st).*1 (MkPass [] false (Nodes.nodes st) (Nodes.errors st)) Hb)
    as H1.
  destruct (pass loadNode maskedErrors _ _) as [[e|] st1]; [done|]. by apply IH.
Qed.

Lemma load_libraries_built (libnodes : list xmlnode) : ∀ nodes0 errors0,
  IndexedList.built nodes0 →
  IndexedList.built (load_libraries loadNode maskedErrors nodes0 errors0 libnodes).2.1.
Proof.
  induction libnodes as [|libnode rest IH]; intros nodes0 errors0 Hb; [done|].
  cbn [load_libraries]. unfold load_library, resolve_nodes.
  pose proof (pass_built (findall "node" (xchildren libnode))
                (MkPass [] false nodes0 errors0) Hb) as H1.
  destruct (pass loadNode maskedErrors _ _) as [[e|] st]; [done|].
  pose proof (retry_built (S (length (tried_loading st))) st H1) as H2.
  destruct (retry loadNode maskedErrors _ st) as [[e|] st1]; [done|].
  destruct (tried_loading st1) as [|[n msg] more]; [|done]. by apply IH.
Qed.

Lemma built_lookup_member (coll : IndexedList.indexed_list) (o : pyobj) :
  IndexedList.built coll → o ∈ IndexedList.il_items coll →
  ∃ o', IndexedList.get coll (oid o) None = Some o'
        ∧ o' ∈ IndexedList.il_items coll ∧ oid o' = oid o.
Proof.
  intros Hb Ho. unfold IndexedList.get.
  rewrite (built_index _ Hb), lookup_foldl_addindex.
  assert (Hin : o ∈ filter (λ x, oid x = oid o) (IndexedList.il_items coll))
    by (by apply list_elem_of_filter).
  destruct (last (filter (λ x, oid x = oid o) (IndexedList.il_items coll))) as [o'|] eqn:Hl.
  - exists o'. split; [done|]. apply last_Some in Hl as [l' Hl].
    assert (Hin' : o' ∈ filter (λ x, oid x = oid o) (IndexedList.il_items coll)).
    { rewrite Hl. apply elem_of_app. right. left. }
    apply list_elem_of_filter in Hin'. tauto.
  - apply last_None in Hl. rewrite Hl in Hin. by apply elem_of_nil in Hin.
Qed.

(** X30: the collections the loaders leave can be searched by id.  A
    uniform library loader and [_loadNodes], started on a collection built
    by the constructor, [append] and [extend], leave such a collection,
    whether they return or raise; so the id of every object they hold is a
    key of the index, and leads to a member with that id (the last one,
    when several carry it). *)
Theorem loaded_collections_are_indexed (libname childname : string) (root : xmlnode)
    (coll0 : IndexedList.indexed_list) (errors0 : list dae_error) :
  IndexedList.built coll0 →
  let lib := (_loadLibrary maskedErrors qualifies decode libname childname root
                (coll0, errors0)).2.1 in
  let ns := (_loadNodes loadNode maskedErrors root coll0 errors0).2.1 in
  IndexedList.built lib ∧ IndexedList.built ns
  ∧ ∀ coll o, coll = lib ∨ coll = ns → o ∈ IndexedList.il_items coll →
      ∃ o', IndexedList.get coll (oid o) None = Some o'
            ∧ o' ∈ IndexedList.il_items coll ∧ oid o' = oid o.
Proof.
  intros Hb lib ns.
  assert (Hlib : IndexedList.built lib).
  { subst lib. unfold _loadLibrary. rewrite load_containers_entities.
    by apply (load_items_built _ (coll0, errors0)). }
  assert (Hns : IndexedList.built ns) by (by apply load_libraries_built).
  split; [done|]. split; [done|].
  intros coll o [->| ->]; by apply built_lookup_member.
Qed.

End LoadedCollectionFacts.

Section LoadedCollectionExamples.
Import Errors Tree ElementTree Nodes Document Loading.

Lemma loaded_collections_are_indexed_witness :
  let loadNode := λ (_ : IndexedList.indexed_list) (_ : xmlnode), Loaded None in
  let lib := (_loadLibrary [] (λ _, true) sample_decode "library_lights" "light"
                sample_lights_root (IndexedList.__init__ [], [])).2.1 in
  let ns := (_loadNodes loadNode [] sample_lights_root (IndexedList.__init__ []) []).2.1 in
  IndexedList.built lib ∧ IndexedList.built ns
  ∧ ∀ coll o, coll = lib ∨ coll = ns → o ∈ IndexedList.il_items coll →
      ∃ o', IndexedList.get coll (oid o) None = Some o'
            ∧ o' ∈ IndexedList.il_items coll ∧ oid o' = oid o.
Proof.
  intros loadNode lib ns.
  apply (loaded_collections_are_indexed [] (λ _, true) sample_decode loadNode
           "library_lights" "light" sample_lights_root (IndexedList.__init__ []) []).
  apply IndexedList.built_init.
Defined.

End LoadedCollectionExamples.

Section LibraryLoadExamples.
Import Errors Tree ElementTree Document Loading LazyIndexedList.

Lemma library_load_under_full_mask_witness :
  let st := (IndexedList.__init__ [], []) : IndexedList.indexed_list * list dae_error in
  let qualifies := λ _ : xmlnode, true in
  let nodes := entities "light" (findall "library_lights" (xchildren sample_lights_root)) in
  _loadLibrary [MKind DaeError] qualifies sample_decode "library_lights" "light"
    sample_lights_root st
  = (None, (foldl IndexedList.append st.1 (omap (loaded qualifies sample_decode) nodes),
            [MkError DaeMalformedError "no technique";
             MkError DaeUnsupportedError "Unknown input semantic: FOO"]))
  ∧ length (omap (loaded qualifies sample_decode) nodes)
    + length (omap (failure qualifies sample_decode) nodes)
    = length (filter (λ n, qualifies n = true) nodes).
Proof.
  intros st qualifies nodes.
  destruct (library_load_under_full_mask [MKind DaeError] qualifies sample_decode [] []
              "library_lights" "light" sample_lights_root st) as (H1 & H2 & _).
  - reflexivity.
  - intros n e. unfold sample_decode, wrapping_decode.
    case_bool_decide; [intros [= <-]; by eexists|]. by case_bool_decide.
  - split; [exact H1|exact H2].
Defined.


Lemma lazy_library_matches_eager_witness :
  let qualifies := λ _ : xmlnode, true in
  let nodes := filter (λ n, qualifies n = true)
                 (entities "light" (findall "library_lights" (xchildren sample_lights_root))) in
  let l := _loadLazyLibrary qualifies "library_lights" "light" sample_lights_root in
  ∃ objs coll errors' l',
    objs = omap (LazyLoading.decoded wrapping_decode) nodes
    ∧ _loadLibrary [] qualifies (silent wrapping_decode) "library_lights" "light"
        sample_lights_root (IndexedList.__init__ [], []) = (None, (coll, errors'))
    ∧ IndexedList.il_items coll = objs
    ∧ __len__ l = length objs
    ∧ __iter__ wrapping_decode l = (Some <$> objs, None, l').
Proof.
  intros qualifies nodes l.
  apply (lazy_library_matches_eager [] qualifies (silent wrapping_decode)
           "library_lights" "light" sample_lights_root []).
  - assert (Hnodes : filter (λ n, qualifies n = true)
                       (entities "light"
                          (findall "library_lights" (xchildren sample_lights_root)))
                     = [XmlNode 2 "light" [("id", "key")] [];
                        XmlNode 3 "light" [("id", "fill")] [];
                        XmlNode 4 "light" [("id", "rim")] []])
      by (vm_compute; reflexivity).
    rewrite Hnodes. repeat constructor; by eexists.
  - apply (bool_decide_unpack _). vm_compute. exact I.
Defined.

End LibraryLoadExamples.

Section SaveAgainExamples.
Import Errors Tree ElementTree Document Loading.


Lemma save_without_scene_element_raises_witness :
  (save Lxml sceneless_collada).1 = Some AttributeError.
Proof.
  apply (save_without_scene_element_raises Lxml sceneless_collada).
  - discriminate.
  - vm_compute. reflexivity.
  - unfold libraries_saved. vm_compute. reflexivity.
Defined.

Lemma all_eager_lit : all_eager lit_collada.
Proof. intros lib. destruct lib; eexists; reflexivity. Qed.

Lemma save_again_keeps_libraries_witness :
  let once := (save Lxml lit_collada).2 in
  let twice := (save Lxml once).2 in
  findall (library_name LLights) (xchildren (xmlroot twice))
  = findall (library_name LLights) (xchildren (xmlroot once)).
Proof.
  apply (save_again_keeps_libraries lit_collada LLights).
  - reflexivity.
  - exact all_eager_lit.
  - apply (bool_decide_unpack _). vm_compute. exact I.
  - apply (bool_decide_unpack _). vm_compute. exact I.
Defined.

Lemma save_puts_asset_first_witness :
  let after := xchildren (xmlroot (save XmlEtree lit_collada).2) in
  head after = Some (assetInfo_xmlnode lit_collada)
  ∧ findall "asset" after
    = assetInfo_xmlnode lit_collada
      :: tail (findall "asset" (xchildren (xmlroot lit_collada))).
Proof.
  apply (save_puts_asset_first XmlEtree lit_collada). reflexivity.
Defined.

End SaveAgainExamples.

Section ResolverExamples.
Import Errors Primitive.

Lemma source_errors_bypass_policy_witness :
  let inputs := [MkInput 0 "NORMAL" "#normals" None; MkInput 1 "TEXCOORD" "#uv" None] in
  ∃ kind msg,
    _getInputsFromList [MKind DaeError] [] sample_scope inputs
    = (inl (DaeExn (MkError kind msg)), [])
    ∧ kind = (if malformed "#uv" then DaeMalformedError else DaeBrokenRefError).
Proof.
  intros inputs.
  apply (source_errors_bypass_policy [MKind DaeError] [] sample_scope
           [MkInput 0 "NORMAL" "#normals" None] (MkInput 1 "TEXCOORD" "#uv" None) []).
  - constructor; [|constructor]. intros _. split.
    + split; [reflexivity|]. vm_compute. by eexists.
    + apply (bool_decide_unpack _). vm_compute. exact I.
  - vm_compute. reflexivity.
  - intros [_ [b Hb]]. vm_compute in Hb. discriminate Hb.
Defined.

Lemma resolved_table_keys_witness :
  let inputs := [MkInput 0 "FOO" "#normals" None] in
  match (_getInputsFromList [MKind DaeError] [] sample_scope inputs).1 with
  | inr table =>
      is_Some (table !! "FOO")
      ↔ "FOO" ∈ _KNOWN_SEMANTICS
        ∨ ∃ x, x ∈ expand sample_scope inputs ∧ semantic x = "FOO"
  | inl _ => False
  end.
Proof.
  intros inputs.
  destruct (_getInputsFromList [MKind DaeError] [] sample_scope inputs)
    as [[e|table] errors'] eqn:Hr; cbn [fst].
  - assert (Hret : returned (_getInputsFromList [MKind DaeError] [] sample_scope inputs).1
                   = true) by (vm_compute; reflexivity).
    rewrite Hr in Hret. discriminate Hret.
  - exact (resolved_table_keys [MKind DaeError] [] sample_scope inputs table errors' Hr
             "FOO").
Defined.

Lemma vertex_alias_binds_its_sources_witness :
  let x := MkInput 0 "VERTEX" "#bundle" (Some "0") in
  let y := MkInput 0 "VERTEX" "#positions" (Some "0") in
  match (_getInputsFromList [] [] sample_scope [x]).1 with
  | inr table =>
      ∃ entry, sample_scope !! "positions" = Some entry
               ∧ (y, entry) ∈ default [] (table !! "VERTEX")
  | inl _ => False
  end.
Proof.
  intros x y.
  destruct (_getInputsFromList [] [] sample_scope [x]) as [[e|table] errors'] eqn:Hr;
    cbn [fst].
  - assert (Hret : returned (_getInputsFromList [] [] sample_scope [x]).1 = true)
      by (vm_compute; reflexivity).
    rewrite Hr in Hret. discriminate Hret.
  - apply (vertex_alias_binds_its_sources [] [] sample_scope [x] table errors' x
             [("POSITION", sample_positions); ("NORMAL", sample_normals)]
             "POSITION" sample_positions Hr).
    + left.
    + reflexivity.
    + vm_compute. reflexivity.
    + left.
Defined.

End ResolverExamples.

Section BuiltExamples.
Import Errors Tree IndexedList IndexedListUpdate.

Lemma built_index_covers_members_witness :
  let self := extend (append (__init__ [PyObj 1 "a" sample_node]) (PyObj 2 "b" sample_node))
                [PyObj 3 "c" sample_node] in
  (∀ k, __contains__ self k = true ↔ k ∈ oid <$> il_items self)
  ∧ (∀ k o, get self k None = Some o → o ∈ il_items self ∧ oid o = k)
  ∧ (NoDup (oid <$> il_items self) → NoDup (oref <$> il_items self) → agrees self).
Proof.
  intros self. apply (built_index_covers_members self).
  apply built_extend, built_append, built_init.
Defined.

End BuiltExamples.
